(** * Bases-Timeline: the timeline algorithms (src/timeline/algorithms.ts)

    A shallow embedding of the date parser, the calendar arithmetic, the item
    builder, the sorter, the track assigner and the conflict detector, with
    the properties the specification states about them, and further
    properties of the same functions and of the date label that the view
    (src/timeline-view.ts) writes on its axis.

    Conventions of the embedding.
    - A JavaScript [number] that holds a day coordinate is a [num]: an
      integer or [NaN].  [NaN] is what [days += undefined] yields when the
      Gregorian month table is read past its twelfth entry.  Fractional
      numbers, infinities and integers beyond the exact range of a double are
      outside the model.
    - An index value is a finite number, modelled as a rational ([Q]).
    - A string is a sequence of code units below 256.
    - [for (let i = a; i < b; i++)] is [for_up (Z.to_nat (b - a)) a];
      [while (true)] takes fuel, and the fuel that suffices is computed from
      the argument.
    - [Array.prototype.sort] is the stable sort of ECMAScript 2019.  That
      fixes the result where the comparator is consistent: in index mode,
      and in date mode on integer days.  With a [NaN] day the date
      comparator is inconsistent and ECMAScript leaves the order to the
      implementation; nothing is stated about the order of such a batch.
    - A call into the host ([entry.getValue]) returns or throws; [null] and
      [undefined] are [None].
    - The operations are given twice: on values (lists, sets), where the
      properties of their results are proved, and on an object store
      ([Store]), where allocation, aliasing and in-place writes are
      explicit and the two are shown to agree. *)

From Stdlib Require Import ZArith QArith Lia Lqa Ascii.
From stdpp Require Import gmap strings list sorting.

Local Open Scope Z_scope.

(** ** Numbers *)

Module Num.

Inductive num : Type :=
| Int (z : Z)
| NaN.

Global Instance num_eq_dec : EqDecision num.
Proof. solve_decision. Defined.

(** [a + b] *)
Definition add (a b : num) : num :=
  match a, b with
  | Int x, Int y => Int (x + y)
  | _, _ => NaN
  end.

(** [a - b] *)
Definition sub (a b : num) : num :=
  match a, b with
  | Int x, Int y => Int (x - y)
  | _, _ => NaN
  end.

(** [a < b]: false as soon as one side is [NaN]. *)
Definition ltb (a b : num) : bool :=
  match a, b with
  | Int x, Int y => x <? y
  | _, _ => false
  end.

(** [a > b] *)
Definition gtb (a b : num) : bool := ltb b a.

(** [a >= b]: false as soon as one side is [NaN]. *)
Definition geb (a b : num) : bool :=
  match a, b with
  | Int x, Int y => y <=? x
  | _, _ => false
  end.

(** ToBoolean on a number: [0] and [NaN] are falsy. *)
Definition truthy (a : num) : bool :=
  match a with
  | Int x => negb (x =? 0)
  | NaN => false
  end.

(** [a || b] on numbers. *)
Definition or (a b : num) : num := if truthy a then a else b.

(** ToNumber of an array read: [undefined] becomes [NaN]. *)
Definition of_read (o : option Z) : num :=
  match o with
  | Some z => Int z
  | None => NaN
  end.

Definition is_int (a : num) : Prop := ∃ z, a = Int z.

End Num.
Import Num.

(** [l[i]] for a JavaScript array and an integer index: [undefined] (here
    [None]) outside [0 .. length-1]. *)
Definition read {A : Type} (l : list A) (i : Z) : option A :=
  if i <? 0 then None else l !! Z.to_nat i.

(** [for (let i = start; n iterations; i++) s = body i s]. *)
Fixpoint for_up {St : Type} (n : nat) (i : Z) (body : Z → St → St) (s : St) : St :=
  match n with
  | O => s
  | S n' => for_up n' (i + 1) body (body i s)
  end.

(** ** Calendar arithmetic *)

Record YMD : Type := mkYMD { ymd_y : Z; ymd_m : Z; ymd_d : Z }.

Global Instance YMD_eq_dec : EqDecision YMD.
Proof. solve_decision. Defined.

(** [(Y % 4 === 0 && Y % 100 !== 0) || (Y % 400 === 0)]; [%] is the
    truncating remainder. *)
Definition isLeap (y : Z) : bool :=
  (Z.rem y 4 =? 0) && negb (Z.rem y 100 =? 0) || (Z.rem y 400 =? 0).

(** [leap ? 366 : 365] *)
Definition yearDaysOf (y : Z) : Z := if isLeap y then 366 else 365.

(** [[31, leap ? 29 : 28, 31, 30, 31, 30, 31, 31, 30, 31, 30, 31]] *)
Definition monthTable (leap : bool) : list Z :=
  [31; if leap then 29 else 28; 31; 30; 31; 30; 31; 31; 30; 31; 30; 31].

Definition toAbsoluteDay (y m d : Z) : num :=
  let monthDays := monthTable (isLeap y) in
  let days := Int 0 in
  let days :=
    for_up (Z.to_nat y) 0 (λ i days, add days (Int (yearDaysOf i))) days in
  let days :=
    for_up (Z.to_nat (m - 1)) 1
           (λ j days, add days (of_read (read monthDays (j - 1)))) days in
  add days (Int (d - 1)).

(** [months.reduce((a, b) => a + b, 0)] *)
Definition sumMonths (months : list Z) : Z := fold_left Z.add months 0.

Definition toAbsoluteDayWithMonths (y m d : Z) (months : list Z) : Z :=
  let yearDays := sumMonths months in
  let days := y * yearDays in
  let days :=
    for_up (Z.to_nat (m - 1)) 1
           (λ j days, days + default 30 (read months (j - 1))) days in
  let mdCur := default 30 (read months (m - 1)) in
  let dClamped := Z.max 1 (Z.min mdCur d) in
  days + (dClamped - 1).

(** The year loop of [fromAbsoluteDay]:
    [while (true) { if (day < yearDays) break; day -= yearDays; y++; }].
    On [NaN] the test is never true and the loop never exits. *)
Fixpoint yearLoop (fuel : nat) (day : num) (y : Z) : option (Z * Z) :=
  match fuel with
  | O => None
  | S fuel' =>
      match day with
      | Int z =>
          if z <? yearDaysOf y then Some (z, y)
          else yearLoop fuel' (Int (z - yearDaysOf y)) (y + 1)
      | NaN => yearLoop fuel' NaN (y + 1)
      end
  end.

(** The month loop shared by both inverse conversions:
    [for (i = 0; i < md.length; i++) { if (day < md[i]) { m = i + 1; break; } day -= md[i]; }],
    entered at index [i] with [rest] the entries from [i] on.  Returns the
    final [(day, m)]. *)
Fixpoint monthLoop (rest : list Z) (i : Z) (day m : Z) : Z * Z :=
  match rest with
  | [] => (day, m)
  | len :: rest' =>
      if day <? len then (day, i + 1)
      else monthLoop rest' (i + 1) (day - len) m
  end.

Definition fromAbsoluteDay_fuel (fuel : nat) (yday : num) : option YMD :=
  match yearLoop fuel yday 0 with
  | None => None
  | Some (day, y) =>
      let md := monthTable (isLeap y) in
      let '(day, m) := monthLoop md 0 day 1 in
      Some (mkYMD y m (day + 1))
  end.

(** Iterations the year loop can need: every pass removes at least 365. *)
Definition yearFuel (yday : num) : nat :=
  match yday with
  | Int z => S (Z.to_nat (z / 365))
  | NaN => O
  end.

Definition fromAbsoluteDay (yday : num) : option YMD :=
  fromAbsoluteDay_fuel (yearFuel yday) yday.

(** [Math.floor(yday / yearDays)] is the floor division of integers as long
    as [yearDays] is not [0]; on [0] the quotient is infinite or [NaN] and
    no date comes out ([None]). *)
Definition fromAbsoluteDayWithMonths (yday : Z) (months : list Z) : option YMD :=
  let yearDays := sumMonths months in
  if yearDays =? 0 then None
  else
    let y := yday / yearDays in
    let day := yday - y * yearDays in
    let '(day, m) := monthLoop months 0 day 1 in
    let d := Z.min (default 30 (read months (m - 1))) (day + 1) in
    Some (mkYMD y m d).

(** ** Values of the host (Obsidian Bases)

    [Value] is the host's polymorphic property value.  The core inspects it
    with [instanceof]; a number value holds an integer here. *)

#[warnings="-register-all"]
Inductive Value : Type :=
| ListValue (elems : list Value)
| StringValue (s : string)
| NumberValue (n : Z)
| OtherValue (tag : nat).

(** What [parseComponent] receives ([v: unknown]): a host value, a raw
    number, a raw string, or anything else ([undefined] included). *)
Inductive unknown : Type :=
| UValue (v : Value)
| UNumber (n : Z)
| UString (s : string)
| UOther.

(** [value.get(i)] *)
Definition listGet (elems : list Value) (i : Z) : unknown :=
  match read elems i with
  | Some v => UValue v
  | None => UOther
  end.

(** ** Strings *)

Definition code (c : ascii) : N := Ascii.N_of_ascii c.

(** White space and line terminators below 256: TAB, LF, VT, FF, CR, SP,
    NBSP.  This is the class [\s] of a regular expression, what [trim]
    removes and what [parseInt] skips. *)
Definition isSpace (c : ascii) : bool :=
  let n := code c in
  ((9 <=? n) && (n <=? 13) || (n =? 32) || (n =? 160))%N.

(** One of the six characters removed by [replace(/\[|\]|\(|\)|\{|\}/g, '')]. *)
Definition isBracket (c : ascii) : bool :=
  let n := code c in
  ((n =? 91) || (n =? 93) || (n =? 40) || (n =? 41) || (n =? 123) || (n =? 125))%N.

(** The class [[\s,\/\-]] of the separator. *)
Definition isSeparator (c : ascii) : bool :=
  let n := code c in
  (isSpace c || (n =? 44) || (n =? 47) || (n =? 45))%N.

Definition isDigit (c : ascii) : bool :=
  let n := code c in ((48 <=? n) && (n <=? 57))%N.

Definition digitValue (c : ascii) : Z := Z.of_N (code c) - 48.

Definition isEmpty (s : string) : bool :=
  match s with
  | EmptyString => true
  | String _ _ => false
  end.

Fixpoint trimStart (s : string) : string :=
  match s with
  | EmptyString => EmptyString
  | String c s' => if isSpace c then trimStart s' else s
  end.

Fixpoint trimEnd (s : string) : string :=
  match s with
  | EmptyString => EmptyString
  | String c s' =>
      let r := trimEnd s' in
      if isSpace c && isEmpty r then EmptyString else String c r
  end.

(** [s.trim()] *)
Definition trim (s : string) : string := trimEnd (trimStart s).

(** [s.replace(/\[|\]|\(|\)|\{|\}/g, '')] *)
Fixpoint removeBrackets (s : string) : string :=
  match s with
  | EmptyString => EmptyString
  | String c s' =>
      if isBracket c then removeBrackets s' else String c (removeBrackets s')
  end.

Definition startsWithSeparator (s : string) : bool :=
  match s with
  | EmptyString => false
  | String c _ => isSeparator c
  end.

(** [s.split(/[\s,\/\-]+/)]: the pieces between the maximal runs of
    separator characters; a run at either end leaves an empty piece there,
    and the empty string splits into one empty piece. *)
Fixpoint splitSeparators (s : string) : list string :=
  match s with
  | EmptyString => [EmptyString]
  | String c s' =>
      let pieces := splitSeparators s' in
      if isSeparator c then
        if startsWithSeparator s' then pieces else EmptyString :: pieces
      else
        match pieces with
        | p :: ps => String c p :: ps
        | [] => [String c EmptyString]
        end
  end.

(** [pieces.filter(Boolean)]: the empty string is the only falsy string. *)
Definition filterBoolean (pieces : list string) : list string :=
  filter (λ p, isEmpty p = false) pieces.

(** Value of the longest run of leading digits, with the number of digits
    read, most significant digit first. *)
Fixpoint leadingDigits (s : string) (acc : Z) (count : nat) : Z * nat :=
  match s with
  | EmptyString => (acc, count)
  | String c s' =>
      if isDigit c then leadingDigits s' (10 * acc + digitValue c) (S count)
      else (acc, count)
  end.

(** [parseInt(s, 10)]: skip leading white space, read an optional sign, then
    the longest run of decimal digits; what follows is ignored.  [None] is
    [NaN] (no digit read). *)
Definition parseInt (s : string) : option Z :=
  let s := trimStart s in
  let '(sign, s) :=
    match s with
    | String c s' =>
        if (code c =? 45)%N then (-1, s')
        else if (code c =? 43)%N then (1, s')
        else (1, s)
    | EmptyString => (1, s)
    end in
  match leadingDigits s 0 0 with
  | (_, O) => None
  | (v, S _) => Some (sign * v)
  end.

(** ** Date component parser *)

Definition parseComponent (v : unknown) : option Z :=
  match v with
  | UValue (NumberValue n) => Some n
  | UValue (StringValue s) => parseInt s
  | UNumber n => Some n
  | UString s => parseInt s
  | _ => None
  end.

(** The tokens of the string branch:
    [s.trim().replace(...).split(...).filter(Boolean)]. *)
Definition stringParts (s : string) : list string :=
  filterBoolean (splitSeparators (removeBrackets (trim s))).

(** [value] is [None] for [null]. *)
Definition parseYearMonthDay (value : option Value) : option YMD :=
  match value with
  | None => None
  | Some (ListValue elems) =>
      if 3 <=? Z.of_nat (length elems) then
        match parseComponent (listGet elems 0),
              parseComponent (listGet elems 1),
              parseComponent (listGet elems 2) with
        | Some y, Some m, Some d => Some (mkYMD y m d)
        | _, _, _ => None
        end
      else None
  | Some (StringValue s) =>
      match stringParts s with
      | p0 :: p1 :: p2 :: _ =>
          match parseInt p0, parseInt p1, parseInt p2 with
          | Some y, Some m, Some d => Some (mkYMD y m d)
          | _, _, _ => None
          end
      | _ => None
      end
  | Some (NumberValue n) =>
      let y := n / 10000 in
      let m := Z.rem n 10000 / 100 in
      let d := Z.rem n 100 in
      if negb (y =? 0) && negb (m =? 0) && negb (d =? 0)
      then Some (mkYMD y m d) else None
  | Some (OtherValue _) => None
  end.

(** ** Records and items *)

(** A host call either returns or throws. *)
Inductive outcome (A : Type) : Type :=
| Returns (a : A)
| Throws.
Arguments Returns {A} a.
Arguments Throws {A}.

Global Instance outcome_ret : MRet outcome := λ A a, Returns a.
Global Instance outcome_bind : MBind outcome := λ A B f x,
  match x with
  | Returns a => f a
  | Throws => Throws
  end.

(** [try { ... } catch {}] around a computation of an optional result that
    starts from [null]/[undefined]. *)
Definition tryCatch {A : Type} (x : outcome (option A)) : option A :=
  match x with
  | Returns a => a
  | Throws => None
  end.

(** [BasesEntry]: the identity string [entry.file.path] and the property
    lookup [entry.getValue(prop)], which returns a value or [null]. *)
Record BasesEntry : Type := mkEntry {
  file_path : string;
  getValue : string → outcome (option Value)
}.

(** A [BasesPropertyId | null] tested with [if (prop)]: [null] and the empty
    string are falsy. *)
Definition truthyProp (prop : option string) : option string :=
  match prop with
  | Some id => if isEmpty id then None else Some id
  | None => None
  end.

Record NormalizedDateRange : Type := mkRange { startDay : num; endDay : num }.

Record TimelineItem : Type := mkItem {
  entry : BasesEntry;
  range : NormalizedDateRange;
  indexValue : option Q
}.

(** [item.entry.file.path] *)
Definition path (item : TimelineItem) : string := file_path (entry item).

(** ** Item builder *)

(** [calendarMonths && calendarMonths.length > 0 ? toAbsoluteDayWithMonths(...) : toAbsoluteDay(...)] *)
Definition absoluteDay (calendarMonths : option (list Z)) (c : YMD) : num :=
  match calendarMonths with
  | Some months =>
      if 0 <? Z.of_nat (length months)
      then Int (toAbsoluteDayWithMonths (ymd_y c) (ymd_m c) (ymd_d c) months)
      else toAbsoluteDay (ymd_y c) (ymd_m c) (ymd_d c)
  | None => toAbsoluteDay (ymd_y c) (ymd_m c) (ymd_d c)
  end.

Definition extractDateRange (entry : BasesEntry) (startProp endProp : option string)
    (calendarMonths : option (list Z)) : outcome (option NormalizedDateRange) :=
  match truthyProp startProp with
  | None => Returns None
  | Some startProp =>
      startVal ← getValue entry startProp;
      match parseYearMonthDay startVal with
      | None => Returns None
      | Some start =>
          let startDay := absoluteDay calendarMonths start in
          let endDay := startDay in
          match truthyProp endProp with
          | None => Returns (Some (mkRange startDay endDay))
          | Some endProp =>
              endVal ← getValue entry endProp;
              match parseYearMonthDay endVal with
              | None => Returns (Some (mkRange startDay endDay))
              | Some end_ =>
                  let endDay := absoluteDay calendarMonths end_ in
                  let endDay := if ltb endDay startDay then startDay else endDay in
                  Returns (Some (mkRange startDay endDay))
              end
          end
      end
  end.

(** The calendar block of [buildTimelineItems]: the positive numeric entries
    of a non-empty list value, or [undefined].  A number value holds an
    integer in this model, so the list is a list of integers; the code
    keeps every positive number, and a list with a fractional length is
    outside the model. *)
Definition calendarOf (entry : BasesEntry) (calendarProp : option string) : option (list Z) :=
  match truthyProp calendarProp with
  | None => None
  | Some calendarProp =>
      tryCatch (
        v ← getValue entry calendarProp;
        match v with
        | Some (ListValue elems) =>
            if 0 <? Z.of_nat (length elems) then
              let arr :=
                for_up (length elems) 0
                  (λ i arr,
                     match parseComponent (listGet elems i) with
                     | Some n => if 0 <? n then arr ++ [n] else arr
                     | None => arr
                     end) [] in
              Returns (if 0 <? Z.of_nat (length arr) then Some arr else None)
            else Returns None
        | _ => Returns None
        end)
  end.

Section Builder.

(** [v.isTruthy()] of the host. *)
Variable isTruthy : Value → bool.
(** [Number(v.toString())] when [Number.isFinite] accepts it. *)
Variable toFiniteNumber : Value → option Q.

(** The index block of [buildTimelineItems]. *)
Definition indexOf (entry : BasesEntry) (indexProp : option string) : option Q :=
  match truthyProp indexProp with
  | None => None
  | Some indexProp =>
      tryCatch (
        v ← getValue entry indexProp;
        match v with
        | Some v => Returns (if isTruthy v then toFiniteNumber v else None)
        | None => Returns None
        end)
  end.

(** [for (const entry of entries) { ... }] with [items] the array built so
    far. *)
Fixpoint buildLoop (entries : list BasesEntry)
    (startProp endProp indexProp calendarProp : option string)
    (items : list TimelineItem) : outcome (list TimelineItem) :=
  match entries with
  | [] => Returns items
  | entry :: entries' =>
      let months := calendarOf entry calendarProp in
      range ← extractDateRange entry startProp endProp months;
      match range with
      | None => buildLoop entries' startProp endProp indexProp calendarProp items
      | Some range =>
          let indexValue := indexOf entry indexProp in
          buildLoop entries' startProp endProp indexProp calendarProp
                    (items ++ [mkItem entry range indexValue])
      end
  end.

Definition buildTimelineItems (entries : list BasesEntry)
    (startProp endProp indexProp calendarProp : option string)
    : outcome (list TimelineItem) :=
  buildLoop entries startProp endProp indexProp calendarProp [].

End Builder.

(** ** Sorter *)

(** [Array.prototype.sort(comparefn)].  ECMAScript compares through
    SortCompare, which reads a [NaN] result as [+0], and the sort is stable:
    of two elements that compare equal the one that came first stays first.
    [notAfter a b] says that SortCompare of [a] and [b] is not positive.
    For a consistent comparator (a total preorder: the index comparator,
    and the date comparator on integer days) the stable sorted arrangement
    is unique and [arraySort] computes it.  For an inconsistent one (a
    [NaN] day) the order is implementation-defined, and [arraySort] is then
    only one of the orders an engine may return. *)
Fixpoint sortedInsert {A : Type} (notAfter : A → A → bool) (x : A) (l : list A) : list A :=
  match l with
  | [] => [x]
  | y :: l' => if notAfter x y then x :: y :: l' else y :: sortedInsert notAfter x l'
  end.

Fixpoint arraySort {A : Type} (notAfter : A → A → bool) (l : list A) : list A :=
  match l with
  | [] => []
  | x :: l' => sortedInsert notAfter x (arraySort notAfter l')
  end.

(** [a.indexValue ?? 0] *)
Definition indexKey (a : TimelineItem) : Q := default 0%Q (indexValue a).

(** [(a, b) => (a.indexValue ?? 0) - (b.indexValue ?? 0)] *)
Definition compareIndex (a b : TimelineItem) : Q := (indexKey a - indexKey b)%Q.

(** [(a, b) => a.range.startDay - b.range.startDay || a.range.endDay - b.range.endDay] *)
Definition compareDate (a b : TimelineItem) : num :=
  or (sub (startDay (range a)) (startDay (range b)))
     (sub (endDay (range a)) (endDay (range b))).

Definition notAfterIndex (a b : TimelineItem) : bool := Qle_bool (compareIndex a b) 0.

Definition notAfterDate (a b : TimelineItem) : bool :=
  match compareDate a b with
  | Int v => v <=? 0
  | NaN => true
  end.

Definition sortByIndexOrDate (items : list TimelineItem) : list TimelineItem :=
  let withIndex := existsb (λ i, bool_decide (is_Some (indexValue i))) items in
  let sorted := items in
  if withIndex then arraySort notAfterIndex sorted
  else arraySort notAfterDate sorted.

(** ** Track assigner *)

(** The inner loop [for (let t = ...; t < tracks.length; t++)], with [n]
    passes left: the tracks and last ends after placing [item], or [None]
    when no track took it.  [tracks] and [lastEnd] grow together, so every
    index read or written here is inside both. *)
Fixpoint placeLoop (n : nat) (t : nat) (item : TimelineItem)
    (tracks : list (list TimelineItem)) (lastEnd : list num)
    : option (list (list TimelineItem) * list num) :=
  match n with
  | O => None
  | S n' =>
      if gtb (startDay (range item)) (default NaN (lastEnd !! t)) then
        Some (alter (λ track, track ++ [item]) t tracks,
              <[t := endDay (range item)]> lastEnd)
      else placeLoop n' (S t) item tracks lastEnd
  end.

Definition placeItem (state : list (list TimelineItem) * list num) (item : TimelineItem)
    : list (list TimelineItem) * list num :=
  let '(tracks, lastEnd) := state in
  match placeLoop (length tracks) 0 item tracks lastEnd with
  | Some placed => placed
  | None => (tracks ++ [[item]], lastEnd ++ [endDay (range item)])
  end.

Definition assignTracks (items : list TimelineItem) : list (list TimelineItem) :=
  fst (fold_left placeItem items ([], [])).

(** ** Conflict detector *)

(** [for (i = ...; i < dateSorted.length; i++) positionByPath.set(dateSorted[i].entry.file.path, i)],
    entered at index [i] with [rest] the items from [i] on. *)
Fixpoint positionLoop (rest : list TimelineItem) (i : Z)
    (positionByPath : gmap string Z) : gmap string Z :=
  match rest with
  | [] => positionByPath
  | item :: rest' => positionLoop rest' (i + 1) (<[path item := i]> positionByPath)
  end.

(** One pass of the comparison loop, at index [i].  The loop runs [i] over
    [1 .. items.length - 1], where both reads are inside the array. *)
Definition conflictStep (items : list TimelineItem) (positionByPath : gmap string Z)
    (i : Z) (conflicts : gset string) : gset string :=
  match read items (i - 1), read items i with
  | Some prev, Some curr =>
      let pPrev := default 0 (positionByPath !! path prev) in
      let pCurr := default 0 (positionByPath !! path curr) in
      if pCurr <? pPrev then {[path curr]} ∪ ({[path prev]} ∪ conflicts)
      else conflicts
  | _, _ => conflicts
  end.

Definition detectIndexConflicts (items : list TimelineItem) : gset string :=
  let conflicts : gset string := ∅ in
  if Z.of_nat (length items) <=? 1 then conflicts
  else
    let dateSorted := arraySort notAfterDate items in
    let positionByPath := positionLoop dateSorted 0 ∅ in
    for_up (length items - 1) 1 (conflictStep items positionByPath) conflicts.

(** ** The operations on the object store

    The four pipeline operations once more, this time with the arrays, the
    items and the set as objects of a store, so that what an operation
    allocates and what it writes can be told apart from what it only reads.
    An array holds references; [[...items]] allocates an array with the same
    references and [sort], [push] and [add] write the object they are
    called on.  The array [lastEnd] and the map [positionByPath] are local
    to one call and never leave it: they stay values.  A host record is a
    handle ([BasesEntry]) that the core only reads. *)

Module Store.

Definition loc : Type := nat.

Inductive object : Type :=
| OEntries (entries : list BasesEntry)
| OItem (item : TimelineItem)
| OArray (elems : list loc)
| OSet (members : gset string).

Abbreviation heap := (gmap loc object).

(** A computation on the store that returns or throws. *)
Definition M (A : Type) : Type := heap → outcome A * heap.

Definition ret {A : Type} (a : A) : M A := λ h, (Returns a, h).

Definition bind {A B : Type} (m : M A) (k : A → M B) : M B := λ h,
  match m h with
  | (Returns a, h') => k a h'
  | (Throws, h') => (Throws, h')
  end.

Definition throw {A : Type} : M A := λ h, (Throws, h).

Definition lift {A : Type} (x : outcome A) : M A := λ h, (x, h).

(** [new ...], [[]], [{...}] *)
Definition alloc (o : object) : M loc := λ h,
  let l := fresh (dom h) in (Returns l, <[l := o]> h).

Definition load (l : loc) : M object := λ h,
  match h !! l with
  | Some o => (Returns o, h)
  | None => (Throws, h)
  end.

Definition store (l : loc) (o : object) : M unit := λ h,
  (Returns tt, <[l := o]> h).

Notation "x ←ₛ m ; k" := (bind m (λ x, k))
  (at level 20, m at level 100, k at level 200, only parsing).

Definition loadItem (l : loc) : M TimelineItem :=
  o ←ₛ load l;
  match o with
  | OItem item => ret item
  | _ => throw
  end.

Definition loadArray (l : loc) : M (list loc) :=
  o ←ₛ load l;
  match o with
  | OArray elems => ret elems
  | _ => throw
  end.

Definition loadSet (l : loc) : M (gset string) :=
  o ←ₛ load l;
  match o with
  | OSet members => ret members
  | _ => throw
  end.

Definition loadEntries (l : loc) : M (list BasesEntry) :=
  o ←ₛ load l;
  match o with
  | OEntries entries => ret entries
  | _ => throw
  end.

(** The items an array of references leads to, read in order. *)
Fixpoint loadItems (refs : list loc) : M (list TimelineItem) :=
  match refs with
  | [] => ret []
  | r :: refs' =>
      item ←ₛ loadItem r;
      items ←ₛ loadItems refs';
      ret (item :: items)
  end.

(** [arr.sort(comparefn)]: the references of [arr] are rearranged in
    place, compared through the items they lead to. *)
Definition sortInPlace (arr : loc) (notAfter : TimelineItem → TimelineItem → bool) : M unit :=
  refs ←ₛ loadArray arr;
  items ←ₛ loadItems refs;
  store arr (OArray (arraySort (λ a b, notAfter a.2 b.2) (zip refs items)).*1).

Definition sortByIndexOrDate (items : loc) : M loc :=
  refs ←ₛ loadArray items;
  its ←ₛ loadItems refs;
  let withIndex := existsb (λ i, bool_decide (is_Some (indexValue i))) its in
  sorted ←ₛ alloc (OArray refs);
  _ ←ₛ (if withIndex then sortInPlace sorted notAfterIndex
   else sortInPlace sorted notAfterDate);
  ret sorted.

(** The inner loop of [assignTracks]: [Some] of the new [lastEnd] when a
    track took the item. *)
Fixpoint placeLoop (n : nat) (t : nat) (ref : loc) (item : TimelineItem)
    (tracks : loc) (lastEnd : list num) : M (option (list num)) :=
  match n with
  | O => ret None
  | S n' =>
      if gtb (startDay (range item)) (default NaN (lastEnd !! t)) then
        trackRefs ←ₛ loadArray tracks;
        match trackRefs !! t with
        | Some track =>
            elems ←ₛ loadArray track;
            _ ←ₛ store track (OArray (elems ++ [ref]));
            ret (Some (<[t := endDay (range item)]> lastEnd))
        | None => throw
        end
      else placeLoop n' (S t) ref item tracks lastEnd
  end.

Definition placeItem (tracks : loc) (lastEnd : list num) (ref : loc) : M (list num) :=
  item ←ₛ loadItem ref;
  trackRefs ←ₛ loadArray tracks;
  placed ←ₛ placeLoop (length trackRefs) 0 ref item tracks lastEnd;
  match placed with
  | Some lastEnd' => ret lastEnd'
  | None =>
      newTrack ←ₛ alloc (OArray [ref]);
      trackRefs ←ₛ loadArray tracks;
      _ ←ₛ store tracks (OArray (trackRefs ++ [newTrack]));
      ret (lastEnd ++ [endDay (range item)])
  end.

Fixpoint placeAll (refs : list loc) (tracks : loc) (lastEnd : list num) : M unit :=
  match refs with
  | [] => ret tt
  | ref :: refs' =>
      lastEnd' ←ₛ placeItem tracks lastEnd ref;
      placeAll refs' tracks lastEnd'
  end.

(** Returns the array [tracks] of the result object [{ tracks }]. *)
Definition assignTracks (items : loc) : M loc :=
  tracks ←ₛ alloc (OArray []);
  refs ←ₛ loadArray items;
  _ ←ₛ placeAll refs tracks [];
  ret tracks.

(** The comparison loop of [detectIndexConflicts], [n] passes from index
    [i]; [items] are the items the input array leads to. *)
Fixpoint conflictLoop (n : nat) (i : Z) (items : list TimelineItem)
    (positionByPath : gmap string Z) (conflicts : loc) : M unit :=
  match n with
  | O => ret tt
  | S n' =>
      members ←ₛ loadSet conflicts;
      _ ←ₛ store conflicts (OSet (conflictStep items positionByPath i members));
      conflictLoop n' (i + 1) items positionByPath conflicts
  end.

Definition detectIndexConflicts (items : loc) : M loc :=
  conflicts ←ₛ alloc (OSet ∅);
  refs ←ₛ loadArray items;
  if Z.of_nat (length refs) <=? 1 then ret conflicts
  else
    dateSorted ←ₛ alloc (OArray refs);
    _ ←ₛ sortInPlace dateSorted notAfterDate;
    sortedRefs ←ₛ loadArray dateSorted;
    sortedItems ←ₛ loadItems sortedRefs;
    let positionByPath := positionLoop sortedItems 0 ∅ in
    its ←ₛ loadItems refs;
    _ ←ₛ conflictLoop (length refs - 1) 1 its positionByPath conflicts;
    ret conflicts.

Section Builder.
Variable isTruthy : Value → bool.
Variable toFiniteNumber : Value → option Q.

Fixpoint buildLoop (entries : list BasesEntry)
    (startProp endProp indexProp calendarProp : option string)
    (items : loc) : M unit :=
  match entries with
  | [] => ret tt
  | entry :: entries' =>
      let months := calendarOf entry calendarProp in
      range ←ₛ lift (extractDateRange entry startProp endProp months);
      match range with
      | None => buildLoop entries' startProp endProp indexProp calendarProp items
      | Some range =>
          let indexValue := indexOf isTruthy toFiniteNumber entry indexProp in
          item ←ₛ alloc (OItem (mkItem entry range indexValue));
          refs ←ₛ loadArray items;
          _ ←ₛ store items (OArray (refs ++ [item]));
          buildLoop entries' startProp endProp indexProp calendarProp items
      end
  end.

Definition buildTimelineItems (entries : loc)
    (startProp endProp indexProp calendarProp : option string) : M loc :=
  items ←ₛ alloc (OArray []);
  es ←ₛ loadEntries entries;
  _ ←ₛ buildLoop es startProp endProp indexProp calendarProp items;
  ret items.
End Builder.

(** *** Reading the store *)

Definition itemAt (h : heap) (l : loc) : option TimelineItem :=
  match h !! l with
  | Some (OItem item) => Some item
  | _ => None
  end.

Definition arrayAt (h : heap) (l : loc) : option (list loc) :=
  match h !! l with
  | Some (OArray elems) => Some elems
  | _ => None
  end.

(** The items of the array at [l]. *)
Definition itemsAt (h : heap) (l : loc) : option (list TimelineItem) :=
  arrayAt h l ≫= mapM (itemAt h).

(** The tracks of the array of arrays at [l]. *)
Definition tracksAt (h : heap) (l : loc) : option (list (list TimelineItem)) :=
  arrayAt h l ≫= mapM (itemsAt h).

Definition setAt (h : heap) (l : loc) : option (gset string) :=
  match h !! l with
  | Some (OSet members) => Some members
  | _ => None
  end.

Definition entriesAt (h : heap) (l : loc) : option (list BasesEntry) :=
  match h !! l with
  | Some (OEntries entries) => Some entries
  | _ => None
  end.

(** *** What an operation does to the store

    [yields op h view result]: run on [h], [op] returns a reference that
    did not exist in [h], every object of [h] is still there and
    unchanged ([h ⊆ h']), and the returned structure reads as [result]. *)
Definition yields {R : Type} (op : M loc) (h : heap)
    (view : heap → loc → option R) (result : R) : Prop :=
  ∃ l h', op h = (Returns l, h') ∧ h ⊆ h' ∧ (l ∉ dom h) ∧ view h' l = Some result.

(** [op] throws on [h] and leaves every object of [h] unchanged. *)
Definition throwsOn {A : Type} (op : M A) (h : heap) : Prop :=
  ∃ h', op h = (Throws, h') ∧ h ⊆ h'.

(** Run twice in a row on the same input, [op] returns two fresh
    structures that both read as [result]; nothing that existed before
    either run is changed by it, and the input reads as [i] throughout. *)
Definition runsTwice {I R : Type} (op : M loc) (h : heap)
    (input : heap → option I) (view : heap → loc → option R)
    (i : I) (result : R) : Prop :=
  ∃ l1 h1 l2 h2,
    op h = (Returns l1, h1) ∧ op h1 = (Returns l2, h2)
    ∧ h ⊆ h1 ∧ h1 ⊆ h2
    ∧ (l1 ∉ dom h) ∧ (l2 ∉ dom h1)
    ∧ view h1 l1 = Some result ∧ view h2 l2 = Some result
    ∧ input h1 = Some i ∧ input h2 = Some i.

(** The objects that the array at [l] holds did not exist in [h]. *)
Definition elementsFresh (h h' : heap) (l : loc) : Prop :=
  ∀ refs, arrayAt h' l = Some refs → Forall (λ r, h !! r = None) refs.

(** The array at [l] holds the very references of the array at [input],
    rearranged: the two arrays share their elements. *)
Definition elementsShared (h h' : heap) (input l : loc) : Prop :=
  ∃ refs refs',
    arrayAt h input = Some refs ∧ arrayAt h' l = Some refs' ∧ refs' ≡ₚ refs.

End Store.

(** ** Vocabulary of the properties *)

(** An item whose day coordinates are integers, as the data model has
    them. *)
Definition integral (item : TimelineItem) : Prop :=
  is_int (startDay (range item)) ∧ is_int (endDay (range item)).

(** Ascending by [indexValue], an absent index counting as [0]. *)
Definition indexLe (a b : TimelineItem) : Prop := (indexKey a <= indexKey b)%Q.


(** Ascending by [startDay], ties broken by [endDay] ascending. *)
Definition dateLe (a b : TimelineItem) : Prop :=
  match startDay (range a), startDay (range b), endDay (range a), endDay (range b) with
  | Int sa, Int sb, Int ea, Int eb => sa < sb ∨ (sa = sb ∧ ea ≤ eb)
  | _, _, _, _ => False
  end.

(** [next.startDay > prev.endDay] for all neighbours of a track. *)
Definition nonOverlapping (track : list TimelineItem) : Prop :=
  ∀ (i : nat) prev next,
    track !! i = Some prev → track !! S i = Some next →
    gtb (startDay (range next)) (endDay (range prev)) = true.

(** ** Sample data *)

(** A record with the given identity and properties. *)
Definition sampleEntry (id : string) (props : list (string * Value)) : BasesEntry :=
  mkEntry id (λ prop,
    Returns (snd <$> list_find (λ kv, bool_decide (kv.1 = prop)) props
             ≫= λ kv, Some kv.2)).

(** An item on days [s .. e]. *)
Definition sampleItem (id : string) (s e : Z) (index : option Q) : TimelineItem :=
  mkItem (sampleEntry id []) (mkRange (Int s) (Int e)) index.

(** Scenario A of the specification: three items, no index. *)
Definition scenarioA : list TimelineItem :=
  [sampleItem "item1" 739251 739255 None;
   sampleItem "item2" 739253 739260 None;
   sampleItem "item3" 739282 739286 None].

(** Scenario B: the same items with indices 2, 1, 3. *)
Definition scenarioB : list TimelineItem :=
  [sampleItem "item1" 739251 739255 (Some 2%Q);
   sampleItem "item2" 739253 739260 (Some 1%Q);
   sampleItem "item3" 739282 739286 (Some 3%Q)].

(** A record whose start date names a fourteenth month. *)
Definition month14Entry : BasesEntry :=
  sampleEntry "notes/late.md" [("start", StringValue "2024-14-01")]%string.

(** ** The string branch in the words of the specification *)

(** Following the specification ("strip bracket characters, split on
    whitespace, comma, slash, dash"): the tokens of a string are its maximal
    runs of characters that are not separators, bracket characters being
    dropped.  One pass from the left, [cur] being the token under way. *)
Fixpoint specTokens (s : string) (cur : string) : list string :=
  match s with
  | EmptyString => if isEmpty cur then [] else [cur]
  | String c s' =>
      if isBracket c then specTokens s' cur
      else if isSeparator c then
        if isEmpty cur then specTokens s' EmptyString
        else cur :: specTokens s' EmptyString
      else specTokens s' (cur +:+ String c EmptyString)
  end.

Fixpoint allChars (P : ascii → bool) (s : string) : bool :=
  match s with
  | EmptyString => true
  | String c s' => P c && allChars P s'
  end.

Definition isSign (c : ascii) : bool := ((code c =? 43) || (code c =? 45))%N.

(** A token that is a decimal integer and nothing else: an optional sign
    and one or more digits. *)
Definition numericToken (t : string) : bool :=
  match t with
  | EmptyString => false
  | String c t' =>
      if isSign c then negb (isEmpty t') && allChars isDigit t'
      else allChars isDigit t
  end.

(** A token that begins with a decimal integer: an optional sign and a
    digit, whatever follows. *)
Definition startsWithInteger (t : string) : bool :=
  match t with
  | EmptyString => false
  | String c t' =>
      isDigit c
      || isSign c && match t' with
                     | String c' _ => isDigit c'
                     | EmptyString => false
                     end
  end.

(** The part of a token that is neither separator nor bracket. *)
Definition plainChar (c : ascii) : bool := negb (isSeparator c) && negb (isBracket c).

(** The pieces of a string from the right: the token that starts the
    string (empty when the string starts with a separator) and the tokens
    after it. *)
Fixpoint fields (s : string) : string * list string :=
  match s with
  | EmptyString => (EmptyString, [])
  | String c s' =>
      let '(h, ts) := fields s' in
      if isBracket c then (h, ts)
      else if isSeparator c then (EmptyString, if isEmpty h then ts else h :: ts)
      else (String c h, ts)
  end.

Definition fieldTokens (s : string) : list string :=
  let '(h, ts) := fields s in if isEmpty h then ts else h :: ts.

Definition startsWithDigit (s : string) : bool :=
  match s with
  | String c _ => isDigit c
  | EmptyString => false
  end.

(** ** Invariants used in the proofs *)

(** What the two arrays of [assignTracks] satisfy between two items: they
    have the same length, every track is non-overlapping, and [lastEnd[t]]
    is the end day of the last item of track [t]. *)
Definition tracksInv (tracks : list (list TimelineItem)) (lastEnd : list num) : Prop :=
  length tracks = length lastEnd
  ∧ ∀ (t : nat) track, tracks !! t = Some track →
      nonOverlapping track
      ∧ ∃ item, last track = Some item ∧ lastEnd !! t = Some (endDay (range item)).

(** Every member of a set was added with the other half of an inverted
    pair of neighbours, both of which are members. *)
Definition pairedIn (items : list TimelineItem) (conflicts : gset string) (p : string) : Prop :=
  ∃ (i : nat) prev curr,
    items !! i = Some prev ∧ items !! S i = Some curr
    ∧ (p = path prev ∨ p = path curr)
    ∧ path prev ≠ path curr
    ∧ path prev ∈ conflicts ∧ path curr ∈ conflicts.

(** How the store of [Store.assignTracks] relates to the tracks of
    [assignTracks] between two items: the store [h0] of the call is intact,
    the array [tracks] holds distinct track arrays allocated since, and
    track [t] leads to the items of the [t]-th track. *)
Definition tracksRel (h0 h : Store.heap) (tracks : Store.loc)
    (ptracks : list (list TimelineItem)) : Prop :=
  h0 ⊆ h
  ∧ ∃ trackRefs,
      h !! tracks = Some (Store.OArray trackRefs)
      ∧ NoDup trackRefs ∧ (tracks ∉ trackRefs)
      ∧ Forall (λ tr, h0 !! tr = None) trackRefs
      ∧ Forall2 (λ tr ptrack,
                   ∃ elems, h !! tr = Some (Store.OArray elems)
                            ∧ mapM (Store.itemAt h0) elems = Some ptrack)
                trackRefs ptracks.

(** A store with the items of scenario B, the array that holds them, and
    an array of host records. *)
Definition sampleStore : Store.heap :=
  list_to_map
    [(0%nat, Store.OItem (sampleItem "item1" 739251 739255 (Some 2%Q)));
     (1%nat, Store.OItem (sampleItem "item2" 739253 739260 (Some 1%Q)));
     (2%nat, Store.OItem (sampleItem "item3" 739282 739286 (Some 3%Q)));
     (3%nat, Store.OArray [0%nat; 1%nat; 2%nat]);
     (4%nat, Store.OEntries [month14Entry])].

(** [daysInMonth(y, m)] of the specification: the entry of the month table
    of year [y] for month [m] (absent outside [1 .. 12]). *)
Definition daysInMonth (y m : Z) : option Z := read (monthTable (isLeap y)) (m - 1).

(** Days in the [n] years [k, k+1, ..., k+n-1]. *)
Fixpoint spanDays (n : nat) (k : Z) : Z :=
  match n with
  | O => 0
  | S n' => yearDaysOf k + spanDays n' (k + 1)
  end.

(** Sum of a list of month lengths, by structural recursion. *)
Fixpoint total (l : list Z) : Z :=
  match l with
  | [] => 0
  | x :: l' => x + total l'
  end.

(** ** Vocabulary of the further properties *)

(** A Gregorian date the month table accepts. *)
Definition validDate (c : YMD) : Prop :=
  ∃ len, daysInMonth (ymd_y c) (ymd_m c) = Some len ∧ 1 ≤ ymd_d c ≤ len.

(** Calendar order of dates: by year, then month, then day. *)
Definition dateBefore (a b : YMD) : Prop :=
  ymd_y a < ymd_y b
  ∨ (ymd_y a = ymd_y b
     ∧ (ymd_m a < ymd_m b ∨ (ymd_m a = ymd_m b ∧ ymd_d a < ymd_d b))).

(** [toAbsoluteDay] on a date. *)
Definition dayOf (c : YMD) : num := toAbsoluteDay (ymd_y c) (ymd_m c) (ymd_d c).

(** Whether [buildTimelineItems] keeps a record: its date range comes
    out. *)
Definition keepsEntry (startProp endProp calendarProp : option string)
    (entry : BasesEntry) : bool :=
  match extractDateRange entry startProp endProp (calendarOf entry calendarProp) with
  | Returns (Some _) => true
  | _ => false
  end.


(** A record whose every property lookup throws. *)
Definition brokenEntry : BasesEntry := mkEntry "notes/broken.md" (λ _, Throws).

(** A record of a two-month calendar (the zero entry is dropped) whose end
    date lies before its start date. *)
Definition customEntry : BasesEntry :=
  sampleEntry "notes/custom.md"
    [("start", StringValue "3-2-5"); ("end", StringValue "3-1-1");
     ("calendar", ListValue [NumberValue 10; NumberValue 0; NumberValue 20])]%string.

(** A record without any property. *)
Definition emptyEntry : BasesEntry := sampleEntry "notes/empty.md" [].


(** A lookup that [extractDateRange] makes on a record throws: the start
    lookup, or the end lookup once the start date has parsed. *)
Definition lookupThrows (startProp endProp : option string) (e : BasesEntry) : Prop :=
  ∃ s, truthyProp startProp = Some s
    ∧ (getValue e s = Throws
       ∨ ∃ v c p, getValue e s = Returns v ∧ parseYearMonthDay v = Some c
           ∧ truthyProp endProp = Some p ∧ getValue e p = Throws).


(** Strictly earlier in the date order: an earlier [startDay], or the same
    [startDay] and an earlier [endDay]. *)
Definition dateLt (a b : TimelineItem) : Prop :=
  match startDay (range a), startDay (range b), endDay (range a), endDay (range b) with
  | Int sa, Int sb, Int ea, Int eb => sa < sb ∨ (sa = sb ∧ ea < eb)
  | _, _, _, _ => False
  end.

(** The items with the days of [a]. *)
Definition sameDays (a x : TimelineItem) : bool :=
  bool_decide (startDay (range x) = startDay (range a)
               ∧ endDay (range x) = endDay (range a)).


(** The item is drawn on day [day]: its days are integers and
    [startDay <= day <= endDay]. *)
Definition covers (day : Z) (item : TimelineItem) : Prop :=
  match startDay (range item), endDay (range item) with
  | Int s, Int e => s ≤ day ≤ e
  | _, _ => False
  end.

(** Integer days with [startDay <= endDay]. *)
Definition ordered (item : TimelineItem) : Prop :=
  match startDay (range item), endDay (range item) with
  | Int s, Int e => s ≤ e
  | _, _ => False
  end.

(** Ascending by [startDay]. *)
Definition startLe (a b : TimelineItem) : Prop :=
  match startDay (range a), startDay (range b) with
  | Int sa, Int sb => sa ≤ sb
  | _, _ => False
  end.

(** What the tracks are to the items placed so far: together they hold
    exactly these items, none is empty, and each keeps the items in the
    order in which they came. *)
Definition partitionOf (placed : list TimelineItem) (tracks : list (list TimelineItem)) : Prop :=
  concat tracks ≡ₚ placed
  ∧ Forall (λ track, track ≠ [] ∧ track `sublist_of` placed) tracks.


(** ** Axis labels of the view

    [renderAxisLabels] writes the date of a tick as
    [`${y}-${String(m).padStart(2,'0')}-${String(d).padStart(2,'0')}`],
    with [{y, m, d}] what [fromAbsoluteDay] returns for the day of the tick:
    three integers. *)

(** The character of a decimal digit. *)
Definition digitChar (d : Z) : ascii := Ascii.ascii_of_N (Z.to_N (48 + d)).

(** The decimal digits of [n >= 0] in front of [acc], least significant
    digit first; [fuel] bounds the number of digits. *)
Fixpoint digitsOf (fuel : nat) (n : Z) (acc : string) : string :=
  match fuel with
  | O => acc
  | S fuel' =>
      let acc' := String (digitChar (n mod 10)) acc in
      if n <? 10 then acc' else digitsOf fuel' (n / 10) acc'
  end.

(** A number below [2 ^ digitFuel n] has at most [digitFuel n] digits. *)
Definition digitFuel (n : Z) : nat := S (Z.to_nat (Z.log2 n)).

(** [String(n)] of an integer: its decimal digits, after a minus sign when
    it is negative. *)
Definition numberToString (n : Z) : string :=
  if n <? 0 then String "-" (digitsOf (digitFuel (- n)) (- n) EmptyString)
  else digitsOf (digitFuel n) n EmptyString.

Fixpoint zeros (k : nat) (s : string) : string :=
  match k with
  | O => s
  | S k' => String "0" (zeros k' s)
  end.

(** [s.padStart(2, '0')] *)
Definition padStart2 (s : string) : string := zeros (2 - String.length s) s.

Definition axisLabel (c : YMD) : string :=
  numberToString (ymd_y c) +:+ "-" +:+ padStart2 (numberToString (ymd_m c))
  +:+ "-" +:+ padStart2 (numberToString (ymd_d c)).

(** [t] is a run of decimal digits that reads as [n]. *)
Definition decimalOf (n : Z) (t : string) : Prop :=
  startsWithDigit t = true ∧ allChars isDigit t = true
  ∧ ∀ count, ∃ count', (count < count')%nat ∧ leadingDigits t 0 count = (n, count').


Global Instance covers_dec (day : Z) (item : TimelineItem) : Decision (covers day item).
Proof.
  unfold covers. destruct (startDay (range item)), (endDay (range item)); apply _.
Defined.

(* ===================================================================== *)
(** * Properties *)
(* ===================================================================== *)

(** ** Calendar arithmetic *)

Example toAbsoluteDay_2024_1_1 : toAbsoluteDay 2024 1 1 = Int 739251.
Proof. vm_compute. reflexivity. Qed.

Example fromAbsoluteDay_739251 : fromAbsoluteDay (Int 739251) = Some (mkYMD 2024 1 1).
Proof. vm_compute. reflexivity. Qed.

Example toAbsoluteDay_month14 : toAbsoluteDay 2024 14 1 = NaN.
Proof. vm_compute. reflexivity. Qed.

Lemma yearDaysOf_cases y : yearDaysOf y = 365 ∨ yearDaysOf y = 366.
Proof. unfold yearDaysOf. destruct (isLeap y); auto. Qed.

Lemma spanDays_lower n k : 365 * Z.of_nat n ≤ spanDays n k.
Proof.
  revert k. induction n as [|n IH]; intros k; simpl spanDays; [lia|].
  specialize (IH (k + 1)). destruct (yearDaysOf_cases k); lia.
Qed.

Lemma for_up_years n k a :
  for_up n k (λ i days, add days (Int (yearDaysOf i))) (Int a)
  = Int (a + spanDays n k).
Proof.
  revert k a. induction n as [|n IH]; intros k a; simpl.
  - f_equal. lia.
  - rewrite IH. f_equal. lia.
Qed.

(** The year loop undoes [spanDays]: started at year [k] on
    [spanDays n k + r] with [r] a day of year [k + n], it stops at
    [(r, k + n)], given more than [n] units of fuel. *)
Lemma yearLoop_span n : ∀ k r fuel,
  0 ≤ r < yearDaysOf (k + Z.of_nat n) → (n < fuel)%nat →
  yearLoop fuel (Int (spanDays n k + r)) k = Some (r, k + Z.of_nat n).
Proof.
  induction n as [|n IH]; intros k r fuel Hr Hf.
  - destruct fuel as [|fuel]; [lia|]. simpl.
    change (Z.of_nat 0) with 0 in *. rewrite Z.add_0_r in *.
    destruct (Z.ltb_spec (0 + r) (yearDaysOf k)); [|lia].
    do 2 f_equal; lia.
  - destruct fuel as [|fuel]; [lia|]. simpl.
    pose proof (spanDays_lower n (k + 1)).
    destruct (Z.ltb_spec (yearDaysOf k + spanDays n (k + 1) + r) (yearDaysOf k)); [lia|].
    replace (yearDaysOf k + spanDays n (k + 1) + r - yearDaysOf k)
      with (spanDays n (k + 1) + r) by lia.
    rewrite IH; [do 2 f_equal; lia | | lia].
    replace (k + 1 + Z.of_nat n) with (k + Z.of_nat (S n)) by lia. exact Hr.
Qed.

(** The year loop only counts upwards. *)
Lemma yearLoop_year_ge fuel : ∀ day y0 z y,
  yearLoop fuel day y0 = Some (z, y) → y0 ≤ y.
Proof.
  induction fuel as [|fuel IH]; intros day y0 z y; simpl; [discriminate|].
  destruct day as [d|].
  - destruct (d <? yearDaysOf y0).
    + intros [= _ <-]. lia.
    + intros H%IH. lia.
  - intros H%IH. lia.
Qed.

(** On an integer the year loop exits within [yearFuel] passes. *)
Lemma yearLoop_terminates fuel : ∀ z y,
  (0 < fuel)%nat → z < 365 * Z.of_nat fuel → is_Some (yearLoop fuel (Int z) y).
Proof.
  induction fuel as [|fuel IH]; intros z y Hpos Hz; simpl; [lia|].
  destruct (Z.ltb_spec z (yearDaysOf y)); [eauto|].
  destruct (yearDaysOf_cases y); apply IH; lia.
Qed.

Lemma yearFuel_enough z : (0 < yearFuel (Int z))%nat ∧ z < 365 * Z.of_nat (yearFuel (Int z)).
Proof.
  unfold yearFuel. split; [lia|]. destruct (Z.le_gt_cases 0 z); [|lia].
  rewrite Nat2Z.inj_succ, Z2Nat.id by (apply Z.div_pos; lia).
  pose proof (Z.mul_succ_div_gt z 365). lia.
Qed.

Lemma fromAbsoluteDay_total z : is_Some (fromAbsoluteDay (Int z)).
Proof.
  unfold fromAbsoluteDay, fromAbsoluteDay_fuel.
  destruct (yearFuel_enough z) as [H1 H2].
  destruct (yearLoop_terminates _ z 0 H1 H2) as [[day y] ->].
  cbv beta iota zeta. destruct (monthLoop (monthTable (isLeap y)) 0 day 1). eauto.
Qed.

(** More fuel does not change what the year loop returns. *)
Lemma yearLoop_more_fuel fuel : ∀ fuel' day y r,
  yearLoop fuel day y = Some r → (fuel ≤ fuel')%nat → yearLoop fuel' day y = Some r.
Proof.
  induction fuel as [|fuel IH]; intros fuel' day y r; simpl; [discriminate|].
  intros Hrun Hle. destruct fuel' as [|fuel']; [lia|]. simpl.
  destruct day as [z|].
  - destruct (z <? yearDaysOf y); [done|]. apply (IH fuel'); [done|lia].
  - apply (IH fuel'); [done|lia].
Qed.

(** Whatever the fuel, [fromAbsoluteDay_fuel] returns the result of
    [fromAbsoluteDay] or has run out. *)
Lemma fromAbsoluteDay_fuel_agrees fuel z r :
  fromAbsoluteDay_fuel fuel (Int z) = Some r → fromAbsoluteDay (Int z) = Some r.
Proof.
  unfold fromAbsoluteDay, fromAbsoluteDay_fuel. intros Hrun.
  destruct (yearLoop fuel (Int z) 0) as [p|] eqn:Hfuel; [|discriminate].
  destruct (yearFuel_enough z) as [H1 H2].
  destruct (yearLoop_terminates _ z 0 H1 H2) as [q Hq].
  destruct (Nat.le_ge_cases fuel (yearFuel (Int z))) as [Hle|Hle].
  - by rewrite (yearLoop_more_fuel _ _ _ _ _ Hfuel Hle).
  - rewrite Hq. rewrite (yearLoop_more_fuel _ _ _ _ _ Hq Hle) in Hfuel.
    by injection Hfuel as ->.
Qed.

(** On [NaN] the year loop never exits. *)
Lemma yearLoop_NaN fuel : ∀ y, yearLoop fuel NaN y = None.
Proof. induction fuel as [|fuel IH]; intros y; simpl; [done|apply IH]. Qed.

(** *** Month tables *)

Lemma total_app l1 l2 : total (l1 ++ l2) = total l1 + total l2.
Proof. induction l1 as [|x l1 IH]; simpl; lia. Qed.

Lemma total_nonneg l : Forall (λ x, 0 ≤ x) l → 0 ≤ total l.
Proof. induction 1; simpl; lia. Qed.

Lemma sumMonths_total l : sumMonths l = total l.
Proof.
  unfold sumMonths.
  assert (∀ a, fold_left Z.add l a = a + total l) as ->; [|lia].
  induction l as [|x l IH]; intros a; simpl; [lia|]. rewrite IH. lia.
Qed.

Lemma read_Some {A} (l : list A) (i : Z) (x : A) :
  read l i = Some x ↔ 0 ≤ i ∧ l !! Z.to_nat i = Some x.
Proof.
  unfold read. destruct (Z.ltb_spec i 0); split; try lia;
    try discriminate; intuition.
Qed.

Lemma read_of_nat {A} (l : list A) (k : nat) : read l (Z.of_nat k) = l !! k.
Proof.
  unfold read. destruct (Z.ltb_spec (Z.of_nat k) 0); [lia|].
  by rewrite Nat2Z.id.
Qed.

(** A table splits around an entry that is present. *)
Lemma split_at_read (l : list Z) (i x : Z) :
  read l i = Some x →
  l = take (Z.to_nat i) l ++ x :: drop (S (Z.to_nat i)) l.
Proof. intros [_ H]%read_Some. by rewrite take_drop_middle. Qed.

Lemma total_take_read (l : list Z) (i x : Z) :
  Forall (λ x, 0 ≤ x) l → read l i = Some x →
  0 ≤ total (take (Z.to_nat i) l) ∧ total (take (Z.to_nat i) l) + x ≤ total l.
Proof.
  intros Hl Hx. pose proof (split_at_read _ _ _ Hx) as Hs.
  assert (Forall (λ x, 0 ≤ x) (take (Z.to_nat i) l)) as H1
    by (by apply Forall_take).
  assert (Forall (λ x, 0 ≤ x) (drop (S (Z.to_nat i)) l)) as H2
    by (by apply Forall_drop).
  apply total_nonneg in H1, H2.
  rewrite Hs at 3. rewrite total_app. simpl. lia.
Qed.

(** The forward month loop adds up the entries it passes (custom calendar:
    every index it reads is inside the table here). *)
Lemma for_up_months (l : list Z) n : ∀ k a,
  (k + n ≤ length l)%nat →
  for_up n (Z.of_nat k + 1) (λ j days, days + default 30 (read l (j - 1))) a
  = a + total (take n (drop k l)).
Proof.
  induction n as [|n IH]; intros k a Hk; simpl.
  - lia.
  - replace (Z.of_nat k + 1 - 1) with (Z.of_nat k) by lia.
    rewrite read_of_nat.
    destruct (l !! k) as [x|] eqn:Hx;
      [|apply lookup_ge_None in Hx; lia].
    replace (Z.of_nat k + 1 + 1) with (Z.of_nat (S k) + 1) by lia.
    rewrite IH by lia.
    rewrite (drop_S l x k Hx). simpl. lia.
Qed.

(** The same for the Gregorian loop, whose reads go through [of_read]. *)
Lemma for_up_months_num (l : list Z) n : ∀ k a,
  (k + n ≤ length l)%nat →
  for_up n (Z.of_nat k + 1) (λ j days, add days (of_read (read l (j - 1)))) (Int a)
  = Int (a + total (take n (drop k l))).
Proof.
  induction n as [|n IH]; intros k a Hk; simpl.
  - f_equal. lia.
  - replace (Z.of_nat k + 1 - 1) with (Z.of_nat k) by lia.
    rewrite read_of_nat.
    destruct (l !! k) as [x|] eqn:Hx;
      [|apply lookup_ge_None in Hx; lia].
    replace (Z.of_nat k + 1 + 1) with (Z.of_nat (S k) + 1) by lia.
    simpl. rewrite IH by lia.
    rewrite (drop_S l x k Hx). simpl. f_equal. lia.
Qed.

(** The inverse month loop walks over a prefix of non-negative entries and
    stops inside the entry that holds the remaining day. *)
Lemma monthLoop_prefix pre : ∀ len post i r m0,
  Forall (λ x, 0 ≤ x) pre → 0 ≤ r < len →
  monthLoop (pre ++ len :: post) i (total pre + r) m0
  = (r, i + Z.of_nat (length pre) + 1).
Proof.
  induction pre as [|x pre IH]; intros len post i r m0 Hpre Hr; simpl.
  - destruct (Z.ltb_spec (0 + r) len); [|lia]. f_equal; lia.
  - inversion_clear Hpre as [|?? Hx Hpre'].
    pose proof (total_nonneg _ Hpre').
    destruct (Z.ltb_spec (x + total pre + r) x); [lia|].
    replace (x + total pre + r - x) with (total pre + r) by lia.
    rewrite IH by done. f_equal; lia.
Qed.

Lemma monthLoop_at (l : list Z) (m d len : Z) :
  Forall (λ x, 0 ≤ x) l → 1 ≤ m → read l (m - 1) = Some len → 1 ≤ d ≤ len →
  monthLoop l 0 (total (take (Z.to_nat (m - 1)) l) + (d - 1)) 1 = (d - 1, m).
Proof.
  intros Hl Hm Hlen Hd.
  pose proof (split_at_read _ _ _ Hlen) as Hs.
  assert (length (take (Z.to_nat (m - 1)) l) = Z.to_nat (m - 1)) as Hlt.
  { apply length_take_le. apply read_Some in Hlen as [_ H%lookup_lt_Some]. lia. }
  rewrite Hs at 1.
  rewrite monthLoop_prefix; [|by apply Forall_take|lia].
  rewrite Hlt. f_equal. lia.
Qed.

Lemma monthTable_nonneg leap : Forall (λ x, 0 ≤ x) (monthTable leap).
Proof. destruct leap; repeat constructor; lia. Qed.

Lemma monthTable_total y : total (monthTable (isLeap y)) = yearDaysOf y.
Proof. unfold yearDaysOf. by destruct (isLeap y). Qed.

Lemma monthTable_length leap : length (monthTable leap) = 12%nat.
Proof. done. Qed.

(** Closed form of [toAbsoluteDay] on months the table covers. *)
Lemma toAbsoluteDay_closed (y m d : Z) :
  1 ≤ m ≤ 13 →
  toAbsoluteDay y m d
  = Int (spanDays (Z.to_nat y) 0
         + total (take (Z.to_nat (m - 1)) (monthTable (isLeap y))) + (d - 1)).
Proof.
  intros Hm. unfold toAbsoluteDay.
  rewrite for_up_years.
  rewrite (for_up_months_num _ _ 0) by (rewrite monthTable_length; lia).
  rewrite drop_0. unfold add. f_equal; lia.
Qed.

Lemma for_up_split {St : Type} (f : Z → St → St) (n1 : nat) : ∀ (n2 : nat) k s,
  for_up (n1 + n2) k f s = for_up n2 (k + Z.of_nat n1) f (for_up n1 k f s).
Proof.
  induction n1 as [|n1 IH]; intros n2 k s; simpl.
  - f_equal. lia.
  - rewrite IH. f_equal. lia.
Qed.

Lemma for_up_NaN (l : list Z) n : ∀ k,
  for_up n k (λ j days, add days (of_read (read l (j - 1)))) NaN = NaN.
Proof. induction n as [|n IH]; intros k; simpl; [done|apply IH]. Qed.

(** Months past the thirteenth read [monthDays] beyond its last entry, and
    [days += undefined] leaves [NaN]. *)
Lemma toAbsoluteDay_NaN (y m d : Z) : 14 ≤ m → toAbsoluteDay y m d = NaN.
Proof.
  intros Hm. unfold toAbsoluteDay. rewrite for_up_years.
  replace (Z.to_nat (m - 1)) with (12 + S (Z.to_nat (m - 14)))%nat by lia.
  rewrite for_up_split.
  rewrite (for_up_months_num _ 12 0) by (rewrite monthTable_length; lia).
  change (for_up (S ?n) ?k ?f ?s) with (for_up n (k + 1) f (f k s)).
  cbv beta.
  replace (read (monthTable (isLeap y)) (1 + Z.of_nat 12 - 1)) with (@None Z)
    by (by destruct (isLeap y)).
  change (add (Int ?a) (of_read None)) with NaN. by rewrite for_up_NaN.
Qed.

(** *** Gregorian round trip *)

(** What [fromAbsoluteDay] returns carries a year that is never negative:
    the year loop starts at [0] and only counts upwards. *)
Lemma fromAbsoluteDay_year_nonneg (yday : num) (r : YMD) :
  fromAbsoluteDay yday = Some r → 0 ≤ ymd_y r.
Proof.
  unfold fromAbsoluteDay, fromAbsoluteDay_fuel.
  destruct (yearLoop _ _ _) as [[day y]|] eqn:Hloop; [|discriminate].
  apply yearLoop_year_ge in Hloop.
  destruct (monthLoop _ _ _ _). by intros [= <-].
Qed.

(** C1 (as amended): for every Gregorian date [(y, m, d)] with [0 <= y],
    [1 <= m <= 12] and [1 <= d <= daysInMonth(y, m)], Feb 29 of leap years
    included, [fromAbsoluteDay(toAbsoluteDay(y, m, d))] returns exactly
    [(y, m, d)]. *)
Theorem gregorian_roundtrip (y m d len : Z) :
  0 ≤ y → 1 ≤ m ≤ 12 → daysInMonth y m = Some len → 1 ≤ d ≤ len →
  fromAbsoluteDay (toAbsoluteDay y m d) = Some (mkYMD y m d).
Proof.
  intros Hy Hm Hlen Hd. unfold daysInMonth in Hlen.
  rewrite toAbsoluteDay_closed by lia.
  pose proof (total_take_read _ _ _ (monthTable_nonneg (isLeap y)) Hlen) as [Hlo Hhi].
  rewrite monthTable_total in Hhi.
  set (r := total (take (Z.to_nat (m - 1)) (monthTable (isLeap y))) + (d - 1)).
  replace (spanDays (Z.to_nat y) 0
           + total (take (Z.to_nat (m - 1)) (monthTable (isLeap y))) + (d - 1))
    with (spanDays (Z.to_nat y) 0 + r) by (unfold r; lia).
  assert (0 ≤ r < yearDaysOf y) as Hr by (unfold r; lia).
  unfold fromAbsoluteDay, fromAbsoluteDay_fuel.
  rewrite (yearLoop_span (Z.to_nat y) 0 r).
  - replace (0 + Z.of_nat (Z.to_nat y)) with y by lia.
    cbv beta iota zeta. unfold r.
    rewrite (monthLoop_at _ m d len) by (auto using monthTable_nonneg || lia).
    do 2 f_equal. lia.
  - by replace (0 + Z.of_nat (Z.to_nat y)) with y by lia.
  - unfold yearFuel.
    pose proof (spanDays_lower (Z.to_nat y) 0) as Hs.
    assert (y ≤ (spanDays (Z.to_nat y) 0 + r) / 365)
      by (apply Z.div_le_lower_bound; lia).
    lia.
Qed.

Lemma gregorian_roundtrip_witness :
  fromAbsoluteDay (toAbsoluteDay 2024 2 29) = Some (mkYMD 2024 2 29).
Proof.
  apply (gregorian_roundtrip 2024 2 29 29); [lia | lia | reflexivity | lia].
Defined.

(** C1 as stated, with no bound on the year, fails: year [-1] has no days
    before it in [toAbsoluteDay], so January 1st of year [-1] lands on day
    [0], which is January 1st of year [0]. *)
Lemma gregorian_roundtrip_negative_year :
  1 ≤ 1 ≤ 12 ∧ daysInMonth (-1) 1 = Some 31 ∧ 1 ≤ 1 ≤ 31
  ∧ toAbsoluteDay (-1) 1 1 = Int 0
  ∧ fromAbsoluteDay (toAbsoluteDay (-1) 1 1) = Some (mkYMD 0 1 1)
  ∧ fromAbsoluteDay (toAbsoluteDay (-1) 1 1) ≠ Some (mkYMD (-1) 1 1).
Proof. repeat split; try lia; try reflexivity. vm_compute. discriminate. Qed.

(** C10: on every negative day [n], [fromAbsoluteDay(n)] returns year [0],
    month [1] and the non-positive day [n + 1]; and for every [(y, m, d)]
    with [y < 0] the Gregorian round trip does not return [(y, m, d)]. *)
Theorem fromAbsoluteDay_negative (n y m d : Z) :
  n < 0 → y < 0 →
  fromAbsoluteDay (Int n) = Some (mkYMD 0 1 (n + 1))
  ∧ n + 1 ≤ 0
  ∧ fromAbsoluteDay (toAbsoluteDay y m d) ≠ Some (mkYMD y m d).
Proof.
  intros Hn Hy. split; [|split; [lia|]].
  - unfold fromAbsoluteDay, fromAbsoluteDay_fuel, yearFuel.
    replace (Z.to_nat (n / 365)) with 0%nat
      by (pose proof (Z.div_lt_upper_bound n 365 0); lia).
    simpl yearLoop. change (yearDaysOf 0) with 366.
    destruct (Z.ltb_spec n 366); [|lia].
    cbv beta iota zeta. change (isLeap 0) with true. simpl monthLoop.
    destruct (Z.ltb_spec n 31); [|lia]. reflexivity.
  - intros H%fromAbsoluteDay_year_nonneg. simpl in H. lia.
Qed.

Lemma fromAbsoluteDay_negative_witness :
  fromAbsoluteDay (Int (-3)) = Some (mkYMD 0 1 (-3 + 1))
  ∧ -3 + 1 ≤ 0
  ∧ fromAbsoluteDay (toAbsoluteDay (-4) 2 29) ≠ Some (mkYMD (-4) 2 29).
Proof. apply (fromAbsoluteDay_negative (-3) (-4) 2 29); lia. Defined.

(** *** Custom calendars *)

(** C6: for every custom calendar given as a non-empty list of positive
    month lengths, and every [(y, m, d)] with [1 <= m <= number of months]
    and [1 <= d <=] that month's length,
    [fromAbsoluteDayWithMonths(toAbsoluteDayWithMonths(y, m, d, months), months)]
    returns exactly [(y, m, d)]. *)
Theorem custom_roundtrip (months : list Z) (y m d len : Z) :
  months ≠ [] → Forall (λ x, 0 < x) months →
  1 ≤ m ≤ Z.of_nat (length months) → read months (m - 1) = Some len →
  1 ≤ d ≤ len →
  fromAbsoluteDayWithMonths (toAbsoluteDayWithMonths y m d months) months
  = Some (mkYMD y m d).
Proof.
  intros Hne Hpos Hm Hlen Hd.
  assert (Forall (λ x, 0 ≤ x) months) as Hnn
    by (eapply Forall_impl; [exact Hpos|simpl; lia]).
  pose proof (total_take_read _ _ _ Hnn Hlen) as [Hlo Hhi].
  unfold toAbsoluteDayWithMonths, fromAbsoluteDayWithMonths.
  rewrite Hlen. simpl default.
  rewrite (for_up_months _ _ 0) by lia. rewrite drop_0.
  rewrite sumMonths_total.
  replace (Z.max 1 (Z.min len d)) with d by lia.
  set (p := total (take (Z.to_nat (m - 1)) months)) in *.
  set (yd := total months) in *.
  destruct (Z.eqb_spec yd 0) as [Hz|_]; [lia|].
  assert ((y * yd + p + (d - 1)) / yd = y) as ->.
  { symmetry. apply (Z.div_unique_pos _ _ _ (p + (d - 1))); lia. }
  replace (y * yd + p + (d - 1) - y * yd) with (p + (d - 1)) by lia.
  unfold p. rewrite (monthLoop_at _ m d len) by (done || lia).
  rewrite Hlen. simpl default. do 2 f_equal. lia.
Qed.

Lemma custom_roundtrip_witness :
  fromAbsoluteDayWithMonths (toAbsoluteDayWithMonths (-7) 3 10 [30; 20; 10]) [30; 20; 10]
  = Some (mkYMD (-7) 3 10).
Proof.
  apply (custom_roundtrip [30; 20; 10] (-7) 3 10 10);
    [discriminate | repeat constructor | simpl; lia | reflexivity | lia].
Defined.

(** ** The sort *)

Section ArraySort.
Context {A : Type} (notAfter : A → A → bool).

Lemma sortedInsert_perm x l : sortedInsert notAfter x l ≡ₚ x :: l.
Proof.
  induction l as [|y l IH]; simpl; [done|].
  destruct (notAfter x y); [done|]. rewrite IH. apply Permutation_swap.
Qed.

Lemma arraySort_perm l : arraySort notAfter l ≡ₚ l.
Proof.
  induction l as [|x l IH]; simpl; [done|].
  by rewrite sortedInsert_perm, IH.
Qed.

Lemma arraySort_length l : length (arraySort notAfter l) = length l.
Proof. by rewrite arraySort_perm. Qed.

(** Sortedness, for a relation [R] that the comparator decides on the
    elements of the array. *)
Section Sorted.
Context (R : A → A → Prop) (dom : A → Prop).
Hypothesis notAfter_R : ∀ a b, dom a → dom b → notAfter a b = true → R a b.
Hypothesis after_R : ∀ a b, dom a → dom b → notAfter a b = false → R b a.

Lemma sortedInsert_HdRel z x l :
  R z x → HdRel R z l → HdRel R z (sortedInsert notAfter x l).
Proof.
  intros Hzx Hzl. destruct l as [|y l]; simpl; [by constructor|].
  destruct (notAfter x y); constructor; [done|]. by inversion Hzl.
Qed.

Lemma sortedInsert_Sorted x l :
  dom x → Forall dom l → Sorted R l → Sorted R (sortedInsert notAfter x l).
Proof.
  intros Hx Hl Hs. induction l as [|y l IH]; simpl.
  - repeat constructor.
  - inversion_clear Hl as [|?? Hy Hl']. inversion_clear Hs as [|?? Hs' Hhd].
    destruct (notAfter x y) eqn:Hxy.
    + constructor; [by constructor|]. constructor. by apply notAfter_R.
    + constructor; [by apply IH|].
      apply sortedInsert_HdRel; [by apply after_R|done].
Qed.

Lemma arraySort_Sorted l : Forall dom l → Sorted R (arraySort notAfter l).
Proof.
  induction l as [|x l IH]; simpl; intros Hl; [constructor|].
  inversion_clear Hl as [|?? Hx Hl'].
  apply sortedInsert_Sorted; [done| |by apply IH].
  by rewrite arraySort_perm.
Qed.
End Sorted.

(** Stability: elements that the comparator does not put after one
    another keep the order they had. *)
Lemma sortedInsert_filter (P : A → bool) x l :
  (∀ a z, P a = true → P z = true → notAfter a z = true) →
  filter P (sortedInsert notAfter x l) = filter P (x :: l).
Proof.
  intros HP. induction l as [|y l IH]; simpl; [done|].
  destruct (notAfter x y) eqn:Hxy; [done|].
  rewrite !filter_cons in *. rewrite IH.
  destruct (decide (P x)) as [Hx|Hx], (decide (P y)) as [Hy|Hy]; try done.
  apply Is_true_true in Hx, Hy. rewrite (HP x y Hx Hy) in Hxy. done.
Qed.

Lemma arraySort_stable (P : A → bool) l :
  (∀ a z, P a = true → P z = true → notAfter a z = true) →
  filter P (arraySort notAfter l) = filter P l.
Proof.
  intros HP. induction l as [|x l IH]; simpl; [done|].
  rewrite sortedInsert_filter by done. rewrite !filter_cons. by rewrite IH.
Qed.

(** An array whose neighbours are in order is left as it is. *)
Lemma arraySort_sorted_id l :
  Sorted (λ a b, notAfter a b = true) l → arraySort notAfter l = l.
Proof.
  induction 1 as [|x l Hs IH Hhd]; simpl; [done|].
  rewrite IH. destruct Hhd as [|y l Hxy]; simpl; [done|]. by rewrite Hxy.
Qed.
End ArraySort.

(** ** Sorter *)

Lemma notAfterIndex_le a b : notAfterIndex a b = true ↔ indexLe a b.
Proof.
  unfold notAfterIndex, compareIndex, indexLe. rewrite Qle_bool_iff.
  split; intros H; lra.
Qed.

Global Instance indexLe_trans : Transitive indexLe.
Proof. unfold indexLe. intros a b c ??. lra. Qed.

Global Instance dateLe_trans : Transitive dateLe.
Proof.
  unfold dateLe. intros a b c.
  destruct (startDay (range a)), (startDay (range b)), (startDay (range c)),
    (endDay (range a)), (endDay (range b)), (endDay (range c)); try done; lia.
Qed.

Lemma notAfterDate_le a b :
  integral a → integral b → notAfterDate a b = true → dateLe a b.
Proof.
  intros [[sa Ha] [ea Ha']] [[sb Hb] [eb Hb']].
  unfold notAfterDate, compareDate, dateLe. rewrite Ha, Ha', Hb, Hb'.
  unfold or, sub, truthy.
  destruct (Z.eqb_spec (sa - sb) 0); simpl; intros ?%Z.leb_le; lia.
Qed.

Lemma notAfterDate_gt a b :
  integral a → integral b → notAfterDate a b = false → dateLe b a.
Proof.
  intros [[sa Ha] [ea Ha']] [[sb Hb] [eb Hb']].
  unfold notAfterDate, compareDate, dateLe. rewrite Ha, Ha', Hb, Hb'.
  unfold or, sub, truthy.
  destruct (Z.eqb_spec (sa - sb) 0); simpl; intros ?%Z.leb_gt; lia.
Qed.

(** The date comparator never puts two items after one another, [NaN]
    coordinates included. *)
Lemma notAfterDate_total a b : notAfterDate a b = false → notAfterDate b a = true.
Proof.
  unfold notAfterDate, compareDate, or, sub, truthy.
  destruct (startDay (range a)) as [sa|], (startDay (range b)) as [sb|],
    (endDay (range a)) as [ea|], (endDay (range b)) as [eb|]; simpl;
    try done;
    try (destruct (Z.eqb_spec (sa - sb) 0), (Z.eqb_spec (sb - sa) 0); simpl;
         try done; intros ?%Z.leb_gt; try apply Z.leb_le; lia).
  all: intros ?%Z.leb_gt; apply Z.leb_le; lia.
Qed.

Lemma sortByIndexOrDate_perm items : sortByIndexOrDate items ≡ₚ items.
Proof.
  unfold sortByIndexOrDate. destruct (existsb _ _); apply arraySort_perm.
Qed.


Lemma withIndex_false items :
  Forall (λ item, indexValue item = None) items →
  sortByIndexOrDate items = arraySort notAfterDate items.
Proof.
  intros H. unfold sortByIndexOrDate.
  destruct (existsb _ items) eqn:E; [|done].
  apply existsb_exists in E as (item & Hin%list_elem_of_In & Hsome%bool_decide_eq_true).
  rewrite Forall_forall in H. rewrite (H _ Hin) in Hsome. by destruct Hsome.
Qed.



Example sortByIndexOrDate_scenarioB :
  path <$> sortByIndexOrDate scenarioB = ["item2"; "item1"; "item3"]%string.
Proof. reflexivity. Qed.

(** ** Track assigner *)

Lemma for_up_ind {St : Type} (P : Z → St → Prop) (body : Z → St → St) n : ∀ i s,
  P i s → (∀ j t, i ≤ j < i + Z.of_nat n → P j t → P (j + 1) (body j t)) →
  P (i + Z.of_nat n) (for_up n i body s).
Proof.
  induction n as [|n IH]; intros i s Hs Hstep; simpl.
  - by replace (i + Z.of_nat 0) with i by lia.
  - replace (i + Z.of_nat (S n)) with (i + 1 + Z.of_nat n) by lia.
    apply IH; [apply Hstep; [lia|done]|].
    intros j t Hj. apply Hstep. lia.
Qed.

Lemma nonOverlapping_snoc track item prev :
  nonOverlapping track → last track = Some prev →
  gtb (startDay (range item)) (endDay (range prev)) = true →
  nonOverlapping (track ++ [item]).
Proof.
  intros Htrack Hlast Hgt i a b Ha Hb.
  destruct (decide (S i < length track)%nat) as [Hlt|Hge].
  - rewrite lookup_app_l in Ha, Hb by lia. by eapply Htrack.
  - assert (S i = length track) as Hi.
    { apply lookup_lt_Some in Hb. rewrite length_app in Hb. simpl in Hb.
      apply lookup_lt_Some in Ha. rewrite length_app in Ha. simpl in Ha. lia. }
    rewrite lookup_app_l in Ha by lia.
    rewrite lookup_app_r in Hb by lia.
    replace (S i - length track)%nat with 0%nat in Hb by lia.
    injection Hb as <-.
    rewrite last_lookup in Hlast. rewrite <- Hi in Hlast. simpl in Hlast.
    rewrite Hlast in Ha. by injection Ha as <-.
Qed.

Lemma placeLoop_inv n : ∀ t item tracks lastEnd tracks' lastEnd',
  tracksInv tracks lastEnd → (t + n ≤ length tracks)%nat →
  placeLoop n t item tracks lastEnd = Some (tracks', lastEnd') →
  tracksInv tracks' lastEnd'.
Proof.
  induction n as [|n IH]; intros t item tracks lastEnd tracks' lastEnd' Hinv Ht;
    simpl; [discriminate|].
  destruct (gtb _ _) eqn:Hgt; [|apply IH; [done|lia]].
  intros [= <- <-]. destruct Hinv as [Hlen Hinv]. split.
  - by rewrite length_alter, length_insert.
  - intros u track Hu. destruct (decide (u = t)) as [->|Hne].
    + rewrite list_lookup_alter_eq in Hu.
      destruct (tracks !! t) as [track0|] eqn:Ht0; [|done].
      simpl in Hu. injection Hu as <-.
      destruct (Hinv t track0 Ht0) as (Hno & prev & Hlast & Hend).
      rewrite Hend in Hgt. simpl in Hgt. split.
      * by eapply nonOverlapping_snoc.
      * exists item. split; [by rewrite last_snoc|].
        apply list_lookup_insert_eq. lia.
    + rewrite list_lookup_alter_ne in Hu by done.
      destruct (Hinv u track Hu) as (Hno & prev & Hlast & Hend).
      split; [done|]. exists prev. split; [done|].
      by rewrite list_lookup_insert_ne.
Qed.

Lemma placeItem_inv tracks lastEnd item :
  tracksInv tracks lastEnd →
  tracksInv (placeItem (tracks, lastEnd) item).1 (placeItem (tracks, lastEnd) item).2.
Proof.
  intros Hinv. unfold placeItem.
  destruct (placeLoop _ _ _ _ _) as [[tracks' lastEnd']|] eqn:Hplace; simpl.
  - eapply placeLoop_inv; [done| |done]. simpl. lia.
  - destruct Hinv as [Hlen Hinv]. split.
    + rewrite !length_app. simpl. lia.
    + intros u track Hu.
      destruct (decide (u < length tracks)%nat) as [Hlt|Hge].
      * rewrite lookup_app_l in Hu by done.
        destruct (Hinv u track Hu) as (Hno & prev & Hlast & Hend).
        split; [done|]. exists prev. split; [done|].
        rewrite lookup_app_l by lia. done.
      * rewrite lookup_app_r in Hu by lia.
        destruct (u - length tracks)%nat as [|k] eqn:Hk; [|done].
        simpl in Hu. injection Hu as <-. split.
        -- intros i a b Ha Hb. by destruct i.
        -- exists item. split; [done|].
           rewrite lookup_app_r by lia.
           by replace (u - length lastEnd)%nat with 0%nat by lia.
Qed.

Lemma fold_placeItem_inv items : ∀ state,
  tracksInv state.1 state.2 →
  tracksInv (fold_left placeItem items state).1 (fold_left placeItem items state).2.
Proof.
  induction items as [|item items IH]; intros [tracks lastEnd] Hinv; simpl; [done|].
  apply IH. by apply placeItem_inv.
Qed.

(** C2: for every input sequence of items, every track returned by
    [assignTracks] has [next.startDay > prev.endDay] for all its adjacent
    pairs. *)
Theorem assignTracks_nonOverlapping (items : list TimelineItem) :
  Forall nonOverlapping (assignTracks items).
Proof.
  apply Forall_lookup. intros t track Ht. unfold assignTracks in Ht.
  destruct (fold_placeItem_inv items ([], [])) as [_ Hinv].
  - split; [done|]. intros u tr Hu. done.
  - by destruct (Hinv t track Ht).
Qed.

Example assignTracks_scenarioA :
  map (map path) (assignTracks (sortByIndexOrDate scenarioA))
  = [["item1"; "item3"]; ["item2"]]%string.
Proof. reflexivity. Qed.

(** ** Conflict detector *)

(** A pass of the comparison loop either leaves the set alone or adds the
    two identities of a neighbouring pair whose ranks are inverted. *)
Lemma conflictStep_cases items (positionByPath : gmap string Z) i conflicts :
  conflictStep items positionByPath i conflicts = conflicts
  ∨ ∃ prev curr,
      read items (i - 1) = Some prev ∧ read items i = Some curr
      ∧ default 0 (positionByPath !! path curr) < default 0 (positionByPath !! path prev)
      ∧ conflictStep items positionByPath i conflicts
        = {[path curr]} ∪ ({[path prev]} ∪ conflicts).
Proof.
  unfold conflictStep.
  destruct (read items (i - 1)) as [prev|]; [|by left].
  destruct (read items i) as [curr|]; [|by left].
  destruct (Z.ltb_spec (default 0 (positionByPath !! path curr))
                       (default 0 (positionByPath !! path prev))); [|by left].
  right. by exists prev, curr.
Qed.

Lemma pairedIn_mono items (c c' : gset string) p :
  c ⊆ c' → pairedIn items c p → pairedIn items c' p.
Proof.
  intros Hsub (i & prev & curr & ? & ? & ? & ? & ? & ?).
  exists i, prev, curr. repeat split; auto.
Qed.

Lemma conflictLoop_paired items (positionByPath : gmap string Z) n :
  ∀ p, p ∈ for_up n 1 (conflictStep items positionByPath) ∅ →
       pairedIn items (for_up n 1 (conflictStep items positionByPath) ∅) p.
Proof.
  apply (for_up_ind (λ _ c, ∀ p, p ∈ c → pairedIn items c p)
                    (conflictStep items positionByPath) n 1 ∅).
  - intros p Hp. set_solver.
  - intros j c Hj IH p Hp.
    destruct (conflictStep_cases items positionByPath j c)
      as [Heq|(prev & curr & Hprev & Hcurr & Hrank & Heq)];
      rewrite Heq in *; [by apply IH|].
    apply read_Some in Hprev as [Hj1 Hprev].
    apply read_Some in Hcurr as [_ Hcurr].
    replace (Z.to_nat j) with (S (Z.to_nat (j - 1))) in Hcurr by lia.
    assert (path prev ≠ path curr) as Hne by (intros Hpc; rewrite Hpc in Hrank; lia).
    assert (path prev ∈ ({[path curr]} ∪ ({[path prev]} ∪ c) : gset string)) as Hin1
      by (apply elem_of_union_r, elem_of_union_l; by apply elem_of_singleton).
    assert (path curr ∈ ({[path curr]} ∪ ({[path prev]} ∪ c) : gset string)) as Hin2
      by (apply elem_of_union_l; by apply elem_of_singleton).
    apply elem_of_union in Hp as [Hp|Hp]; [|apply elem_of_union in Hp as [Hp|Hp]].
    + apply elem_of_singleton in Hp.
      exists (Z.to_nat (j - 1)), prev, curr. by repeat split; auto.
    + apply elem_of_singleton in Hp.
      exists (Z.to_nat (j - 1)), prev, curr. by repeat split; auto.
    + eapply pairedIn_mono; [|by apply IH].
      intros q Hq. by apply elem_of_union_r, elem_of_union_r.
Qed.

(** C4: for every input sequence of items, the conflict set returned by
    [detectIndexConflicts] is symmetric: every identity string in it was
    added together with the identity of a display-adjacent counterpart, a
    different record, that is also in the set; no record is flagged
    alone. *)
Theorem detectIndexConflicts_symmetric (items : list TimelineItem) :
  ∀ p, p ∈ detectIndexConflicts items →
    ∃ (i : nat) prev curr,
      items !! i = Some prev ∧ items !! S i = Some curr
      ∧ (p = path prev ∨ p = path curr)
      ∧ path prev ≠ path curr
      ∧ path prev ∈ detectIndexConflicts items
      ∧ path curr ∈ detectIndexConflicts items.
Proof.
  intros p. unfold detectIndexConflicts.
  destruct (Z.of_nat (length items) <=? 1); [set_solver|].
  apply conflictLoop_paired.
Qed.

Lemma detectIndexConflicts_symmetric_witness :
  ∃ (i : nat) prev curr,
    sortByIndexOrDate scenarioB !! i = Some prev
    ∧ sortByIndexOrDate scenarioB !! S i = Some curr
    ∧ ("item1"%string = path prev ∨ "item1"%string = path curr)
    ∧ path prev ≠ path curr
    ∧ path prev ∈ detectIndexConflicts (sortByIndexOrDate scenarioB)
    ∧ path curr ∈ detectIndexConflicts (sortByIndexOrDate scenarioB).
Proof.
  apply (detectIndexConflicts_symmetric (sortByIndexOrDate scenarioB) "item1"%string).
  apply elem_of_elements.
  let members := eval vm_compute in
    (elements (detectIndexConflicts (sortByIndexOrDate scenarioB))) in
  change (elements (detectIndexConflicts (sortByIndexOrDate scenarioB))) with members.
  apply list_elem_of_here.
Defined.

Example detectIndexConflicts_scenarioB :
  elements (detectIndexConflicts (sortByIndexOrDate scenarioB)) = ["item1"; "item2"]%string.
Proof. vm_compute. reflexivity. Qed.

(** [positionByPath] leaves alone the identities the loop does not meet. *)
Lemma positionLoop_other rest : ∀ i (positionByPath : gmap string Z) p,
  p ∉ path <$> rest →
  positionLoop rest i positionByPath !! p = positionByPath !! p.
Proof.
  induction rest as [|item rest IH]; intros i m p Hp; simpl; [done|].
  rewrite fmap_cons in Hp. apply not_elem_of_cons in Hp as [Hne Hp].
  rewrite IH by done. by rewrite lookup_insert_ne.
Qed.

(** With distinct identities, [positionByPath] holds the index of each
    item. *)
Lemma positionLoop_lookup rest : ∀ i (positionByPath : gmap string Z) (k : nat) item,
  NoDup (path <$> rest) → rest !! k = Some item →
  positionLoop rest i positionByPath !! path item = Some (i + Z.of_nat k).
Proof.
  induction rest as [|x rest IH]; intros i m k item Hnd Hk; [done|].
  rewrite fmap_cons in Hnd. apply NoDup_cons in Hnd as [Hx Hnd].
  destruct k as [|k]; simpl in *.
  - injection Hk as ->. rewrite positionLoop_other by done.
    rewrite lookup_insert_eq. f_equal. lia.
  - rewrite (IH _ _ k item) by done. f_equal. lia.
Qed.

(** The date sort leaves neighbours in comparator order, whatever the
    coordinates. *)
Lemma arraySort_notAfterDate_sorted items :
  Sorted (λ a b, notAfterDate a b = true) (arraySort notAfterDate items).
Proof.
  apply (arraySort_Sorted _ _ (λ _, True)).
  - auto.
  - intros a b _ _. apply notAfterDate_total.
  - by apply Forall_true.
Qed.

(** C9: for every batch of items in which no item has a present
    [indexValue] and all record identity strings are distinct,
    [detectIndexConflicts] applied to the output of [sortByIndexOrDate]
    returns the empty set. *)
Theorem date_sorted_no_conflicts (items : list TimelineItem) :
  Forall (λ item, indexValue item = None) items →
  NoDup (path <$> items) →
  detectIndexConflicts (sortByIndexOrDate items) = ∅.
Proof.
  intros Hnone Hnd. rewrite withIndex_false by done.
  set (sorted := arraySort notAfterDate items).
  assert (NoDup (path <$> sorted)) as Hnd'
    by (unfold sorted; by rewrite arraySort_perm).
  unfold detectIndexConflicts.
  destruct (Z.of_nat (length sorted) <=? 1); [done|].
  rewrite (arraySort_sorted_id _ sorted)
    by apply arraySort_notAfterDate_sorted.
  apply (for_up_ind (λ _ c, c = ∅)); [done|].
  intros j c Hj ->.
  destruct (conflictStep_cases sorted (positionLoop sorted 0 ∅) j ∅)
    as [->|(prev & curr & Hprev & Hcurr & Hrank & _)]; [done|].
  apply read_Some in Hprev as [Hj1 Hprev].
  apply read_Some in Hcurr as [_ Hcurr].
  rewrite (positionLoop_lookup _ _ _ _ prev Hnd' Hprev) in Hrank.
  rewrite (positionLoop_lookup _ _ _ _ curr Hnd' Hcurr) in Hrank.
  simpl in Hrank. lia.
Qed.

Lemma date_sorted_no_conflicts_witness :
  detectIndexConflicts (sortByIndexOrDate scenarioA) = ∅.
Proof.
  apply (date_sorted_no_conflicts scenarioA).
  - repeat constructor.
  - apply (bool_decide_unpack _). by vm_compute.
Defined.

(** ** Item builder *)

(** The clamp [if (endDay < startDay) endDay = startDay] orders a range
    whenever both of its coordinates are integers. *)
Lemma extractDateRange_ordered entry startProp endProp calendarMonths r :
  extractDateRange entry startProp endProp calendarMonths = Returns (Some r) →
  is_int (startDay r) → is_int (endDay r) →
  geb (endDay r) (startDay r) = true.
Proof.
  unfold extractDateRange.
  destruct (truthyProp startProp) as [sp|]; [|discriminate].
  destruct (getValue entry sp) as [startVal|]; [|discriminate]. simpl.
  destruct (parseYearMonthDay startVal) as [start|]; [|discriminate].
  set (sd := absoluteDay calendarMonths start).
  assert (∀ r, r = mkRange sd sd → is_int (startDay r) → geb (endDay r) (startDay r) = true)
    as Hsame.
  { intros ? -> [z Hz]. simpl in *. rewrite Hz. simpl. lia. }
  destruct (truthyProp endProp) as [ep|]; [|intros [= <-] ? _; by apply Hsame].
  destruct (getValue entry ep) as [endVal|]; [|discriminate]. simpl.
  destruct (parseYearMonthDay endVal) as [end_|]; [|intros [= <-] ? _; by apply Hsame].
  set (ed := absoluteDay calendarMonths end_).
  intros [= <-]. simpl. intros [s Hs] [e He]. rewrite Hs in *.
  destruct ed as [e'|]; simpl in *.
  - destruct (Z.ltb_spec e' s); simpl; lia.
  - simpl in He. discriminate.
Qed.

(** A custom calendar always yields integer coordinates. *)
Lemma absoluteDay_custom_int months c :
  months ≠ [] → is_int (absoluteDay (Some months) c).
Proof.
  intros Hne. unfold absoluteDay. destruct months as [|x months]; [done|].
  simpl length. destruct (Z.ltb_spec 0 (Z.of_nat (S (length months)))); [|lia].
  by eexists.
Qed.

(** Under a custom calendar every range that comes out is ordered. *)
Lemma extractDateRange_custom_ordered entry startProp endProp months r :
  months ≠ [] →
  extractDateRange entry startProp endProp (Some months) = Returns (Some r) →
  geb (endDay r) (startDay r) = true.
Proof.
  intros Hne Hr. pose proof (absoluteDay_custom_int months) as Hint.
  eapply extractDateRange_ordered; [exact Hr| |]; revert Hr;
    unfold extractDateRange;
    destruct (truthyProp startProp) as [sp|]; try discriminate;
    destruct (getValue entry sp) as [startVal|]; try discriminate; simpl;
    destruct (parseYearMonthDay startVal) as [start|]; try discriminate;
    destruct (truthyProp endProp) as [ep|];
    try (intros [= <-]; simpl; by apply Hint);
    destruct (getValue entry ep) as [endVal|]; try discriminate; simpl;
    destruct (parseYearMonthDay endVal) as [end_|];
    try (intros [= <-]; simpl; by apply Hint).
  intros [= <-]. simpl.
  destruct (ltb _ _); by apply Hint.
Qed.

(** C5 (the code departs from it): a record whose start date names month
    14 under the Gregorian calendar yields an item whose range is
    [{NaN, NaN}], and [endDay >= startDay] is false on it. *)
Theorem buildTimelineItems_month14 (isTruthy : Value → bool) (toFiniteNumber : Value → option Q) :
  buildTimelineItems isTruthy toFiniteNumber [month14Entry] (Some "start"%string) None None None
  = Returns [mkItem month14Entry (mkRange NaN NaN) None]
  ∧ geb (endDay (mkRange NaN NaN)) (startDay (mkRange NaN NaN)) = false.
Proof. split; reflexivity. Qed.

(** ** Date component parser: the string branch *)

Lemma filterBoolean_cons p ps :
  filterBoolean (p :: ps) = if isEmpty p then filterBoolean ps else p :: filterBoolean ps.
Proof.
  unfold filterBoolean. rewrite filter_cons.
  destruct (isEmpty p); by case_decide.
Qed.

Lemma splitSeparators_head s :
  startsWithSeparator s = true → ∃ ps, splitSeparators s = EmptyString :: ps.
Proof.
  destruct s as [|c s]; simpl; [done|]. intros ->.
  destruct (startsWithSeparator s) eqn:E; [|eauto].
  clear c. induction s as [|c s IH]; simpl in *; [done|]. rewrite E.
  destruct (startsWithSeparator s) eqn:E'; [|eauto]. by apply IH.
Qed.

(** The split of the bracket-free string, read through [fields]. *)
Lemma splitSeparators_fields s :
  ∃ ps, splitSeparators (removeBrackets s) = (fields s).1 :: ps
        ∧ filterBoolean ps = (fields s).2.
Proof.
  induction s as [|c s (ps & Hsplit & Hps)]; simpl; [by exists []|].
  destruct (fields s) as [h ts]. simpl in *.
  destruct (isBracket c); [by exists ps|]. simpl.
  destruct (isSeparator c); simpl.
  - destruct (startsWithSeparator (removeBrackets s)) eqn:E.
    + destruct (splitSeparators_head _ E) as [ps' Hps'].
      rewrite Hps' in Hsplit. injection Hsplit as <- ->.
      exists ps. by rewrite Hps'.
    + exists (h :: ps). split; [by rewrite Hsplit|].
      rewrite filterBoolean_cons. by rewrite Hps.
  - rewrite Hsplit. by exists ps.
Qed.

Lemma stringParts_fields s : stringParts s = fieldTokens (trim s).
Proof.
  unfold stringParts, fieldTokens.
  destruct (splitSeparators_fields (trim s)) as (ps & -> & Hps).
  destruct (fields (trim s)) as [h ts]. simpl in *.
  by rewrite filterBoolean_cons, Hps.
Qed.

Lemma isSpace_isSeparator c : isSpace c = true → isSeparator c = true.
Proof. unfold isSeparator. by intros ->. Qed.

Lemma isSpace_not_bracket c : isSpace c = true → isBracket c = false.
Proof.
  unfold isSpace, isBracket. generalize (code c). intros m H.
  repeat match goal with
         | |- context [(m =? ?k)%N] => destruct (N.eqb_spec m k) as [->|]
         end; done.
Qed.

Lemma fieldTokens_trimStart s : fieldTokens (trimStart s) = fieldTokens s.
Proof.
  induction s as [|c s IH]; simpl; [done|].
  destruct (isSpace c) eqn:E; [|done].
  rewrite IH. unfold fieldTokens. simpl. destruct (fields s) as [h ts].
  by rewrite (isSpace_not_bracket _ E), (isSpace_isSeparator _ E).
Qed.

Lemma fields_trimEnd s : fields (trimEnd s) = fields s.
Proof.
  induction s as [|c s IH]; simpl; [done|].
  destruct (isSpace c) eqn:E; simpl.
  - destruct (trimEnd s) as [|c' s'] eqn:Ht; simpl in *.
    + rewrite <- IH. by rewrite (isSpace_not_bracket _ E), (isSpace_isSeparator _ E).
    + by rewrite IH.
  - by rewrite IH.
Qed.

Lemma fieldTokens_trim s : fieldTokens (trim s) = fieldTokens s.
Proof.
  unfold trim. unfold fieldTokens at 1. rewrite fields_trimEnd.
  apply fieldTokens_trimStart.
Qed.

Lemma append_empty_r (s : string) : s +:+ EmptyString = s.
Proof. induction s as [|c s IH]; [done|]. change (String c (s +:+ EmptyString) = String c s). by f_equal. Qed.

Lemma append_assoc (a b c : string) : (a +:+ b) +:+ c = a +:+ (b +:+ c).
Proof.
  induction a as [|x a IH]; [done|].
  change (String x ((a +:+ b) +:+ c) = String x (a +:+ (b +:+ c))). by f_equal.
Qed.

(** The one-pass tokens of the specification, read through [fields]. *)
Lemma specTokens_fields s : ∀ cur,
  specTokens s cur
  = if isEmpty (cur +:+ (fields s).1) then (fields s).2
    else (cur +:+ (fields s).1) :: (fields s).2.
Proof.
  induction s as [|c s IH]; intros cur; simpl.
  - by rewrite append_empty_r.
  - destruct (fields s) as [h ts] eqn:Hf. simpl in IH.
    destruct (isBracket c); [by rewrite IH|].
    destruct (isSeparator c); simpl.
    + rewrite append_empty_r.
      destruct (isEmpty cur); by rewrite (IH EmptyString).
    + rewrite IH. by rewrite append_assoc.
Qed.

Lemma stringParts_specTokens s : stringParts s = specTokens s EmptyString.
Proof.
  rewrite stringParts_fields, fieldTokens_trim, specTokens_fields.
  unfold fieldTokens. by destruct (fields s).
Qed.

Lemma fields_plain s :
  allChars plainChar (fields s).1 = true
  ∧ Forall (λ t, isEmpty t = false ∧ allChars plainChar t = true) (fields s).2.
Proof.
  induction s as [|c s [IHh IHts]]; simpl; [by split|].
  destruct (fields s) as [h ts]. simpl in *.
  destruct (isBracket c) eqn:Eb; [done|].
  destruct (isSeparator c) eqn:Es; simpl.
  - split; [done|]. destruct (isEmpty h) eqn:Eh; [done|]. by constructor.
  - split; [|done]. unfold plainChar at 1. by rewrite Es, Eb.
Qed.

(** Tokens are non-empty and hold no separator and no bracket character. *)
Lemma stringParts_plain s :
  Forall (λ t, isEmpty t = false ∧ allChars plainChar t = true) (stringParts s).
Proof.
  rewrite stringParts_fields. unfold fieldTokens.
  destruct (fields_plain (trim s)) as [Hh Hts].
  destruct (fields (trim s)) as [h ts]. simpl in *.
  destruct (isEmpty h) eqn:Eh; [done|]. by constructor.
Qed.

Lemma leadingDigits_count_ge s : ∀ acc n, (n ≤ (leadingDigits s acc n).2)%nat.
Proof.
  induction s as [|c s IH]; intros acc n; simpl; [done|].
  destruct (isDigit c); [|done].
  specialize (IH (10 * acc + digitValue c) (S n)). lia.
Qed.

Lemma leadingDigits_none s :
  (leadingDigits s 0 0).2 = 0%nat ↔ startsWithDigit s = false.
Proof.
  destruct s as [|c s]; simpl; [done|].
  destruct (isDigit c); [|done].
  pose proof (leadingDigits_count_ge s (10 * 0 + digitValue c) 1). split; [lia|done].
Qed.

(** [parseInt] on a string that does not start with white space: a number
    comes out exactly when the string starts with an integer. *)
Lemma parseInt_startsWithInteger t :
  trimStart t = t → (is_Some (parseInt t) ↔ startsWithInteger t = true).
Proof.
  intros Ht. unfold parseInt. rewrite Ht.
  assert (∀ sign s, is_Some (match leadingDigits s 0 0 with
                             | (_, O) => None
                             | (v, S _) => Some (sign * v)
                             end) ↔ startsWithDigit s = true) as Hdigits.
  { intros sign s. pose proof (leadingDigits_none s) as Hn.
    destruct (leadingDigits s 0 0) as [v [|k]]; simpl in *.
    - destruct (startsWithDigit s); [|split; [by intros []|done]].
      destruct Hn as [Hn _]. by specialize (Hn eq_refl).
    - destruct (startsWithDigit s); [by eauto|].
      destruct Hn as [_ Hn]. by specialize (Hn eq_refl). }
  destruct t as [|c t']; [simpl; split; [by intros []|done]|].
  unfold startsWithInteger, isSign, isDigit.
  destruct (N.eqb_spec (code c) 45) as [E|E].
  - rewrite Hdigits, E. simpl. by destruct t'.
  - destruct (N.eqb_spec (code c) 43) as [E'|E'].
    + rewrite Hdigits, E'. simpl. by destruct t'.
    + rewrite Hdigits. simpl. unfold isDigit. by rewrite orb_false_r.
Qed.

Lemma plain_trimStart t : allChars plainChar t = true → trimStart t = t.
Proof.
  destruct t as [|c t]; simpl; [done|].
  destruct (isSpace c) eqn:E; [|done].
  unfold plainChar. by rewrite (isSpace_isSeparator _ E).
Qed.

(** C7 (as amended): for every string-shaped value, the parser strips the
    bracket characters, splits on white space, comma, slash and dash, asks
    for at least three tokens and reads the first three with [parseInt]: a
    token yields a number exactly when it starts with an optional sign and
    a decimal digit, what follows the digits being ignored; the parse
    returns a triple exactly when there are three tokens that each yield a
    number, all three or none (no partial result). *)
Theorem parseYearMonthDay_string (s : string) :
  stringParts s = specTokens s EmptyString
  ∧ (∀ r, parseYearMonthDay (Some (StringValue s)) = Some r ↔
       ∃ t0 t1 t2 rest,
         stringParts s = t0 :: t1 :: t2 :: rest
         ∧ parseInt t0 = Some (ymd_y r)
         ∧ parseInt t1 = Some (ymd_m r)
         ∧ parseInt t2 = Some (ymd_d r))
  ∧ (∀ t, t ∈ stringParts s →
       allChars plainChar t = true
       ∧ (is_Some (parseInt t) ↔ startsWithInteger t = true)).
Proof.
  split; [apply stringParts_specTokens|]. split.
  - intros [y m d]. simpl. split.
    + destruct (stringParts s) as [|t0 [|t1 [|t2 rest]]]; try discriminate.
      destruct (parseInt t0) as [y'|] eqn:E0; [|discriminate].
      destruct (parseInt t1) as [m'|] eqn:E1; [|discriminate].
      destruct (parseInt t2) as [d'|] eqn:E2; [|discriminate].
      intros [= <- <- <-]. by exists t0, t1, t2, rest.
    + intros (t0 & t1 & t2 & rest & -> & -> & -> & ->). done.
  - intros t Ht.
    pose proof (stringParts_plain s) as Hplain.
    rewrite Forall_forall in Hplain. destruct (Hplain t Ht) as [_ Hp].
    split; [done|]. apply parseInt_startsWithInteger. by apply plain_trimStart.
Qed.

Lemma parseYearMonthDay_string_witness :
  parseYearMonthDay (Some (StringValue "[2024]/01/05")) = Some (mkYMD 2024 1 5).
Proof.
  apply (parseYearMonthDay_string "[2024]/01/05").
  exists "2024"%string, "01"%string, "05"%string, []. by repeat split.
Defined.

(** C7 as stated fails: the third token of ["2024-01-05x"] is not numeric,
    and yet the parse returns a date. *)
Lemma parseYearMonthDay_trailing_garbage :
  stringParts "2024-01-05x" = ["2024"; "01"; "05x"]%string
  ∧ numericToken "2024" = true ∧ numericToken "01" = true
  ∧ numericToken "05x" = false
  ∧ parseYearMonthDay (Some (StringValue "2024-01-05x")) = Some (mkYMD 2024 1 5)
  ∧ parseYearMonthDay (Some (StringValue "2024-01-05x")) ≠ None.
Proof. by repeat split. Qed.

(** ** The operations on the object store *)

Section StoreFacts.

Lemma alloc_fresh (h : Store.heap) : h !! fresh (dom h) = None.
Proof. apply not_elem_of_dom, is_fresh. Qed.

Lemma itemAt_mono (h h' : Store.heap) l item :
  h ⊆ h' → Store.itemAt h l = Some item → Store.itemAt h' l = Some item.
Proof.
  unfold Store.itemAt. intros Hsub.
  destruct (h !! l) as [o|] eqn:Hl; [|done].
  by rewrite (lookup_weaken _ _ _ _ Hl Hsub).
Qed.

Lemma arrayAt_mono (h h' : Store.heap) l elems :
  h ⊆ h' → Store.arrayAt h l = Some elems → Store.arrayAt h' l = Some elems.
Proof.
  unfold Store.arrayAt. intros Hsub.
  destruct (h !! l) as [o|] eqn:Hl; [|done].
  by rewrite (lookup_weaken _ _ _ _ Hl Hsub).
Qed.

Lemma arrayAt_Some (h : Store.heap) l elems :
  Store.arrayAt h l = Some elems ↔ h !! l = Some (Store.OArray elems).
Proof.
  unfold Store.arrayAt. destruct (h !! l) as [[]|]; split; intros; simplify_eq; done.
Qed.

Lemma itemsOf_mono (h h' : Store.heap) refs items :
  h ⊆ h' → mapM (Store.itemAt h) refs = Some items → mapM (Store.itemAt h') refs = Some items.
Proof.
  intros Hsub. rewrite !mapM_Some. intros H.
  eapply Forall2_impl; [exact H|]. intros r item. by apply itemAt_mono.
Qed.

Lemma itemsAt_mono (h h' : Store.heap) l items :
  h ⊆ h' → Store.itemsAt h l = Some items → Store.itemsAt h' l = Some items.
Proof.
  unfold Store.itemsAt. intros Hsub.
  destruct (Store.arrayAt h l) as [refs|] eqn:Hl; [|done]. simpl.
  rewrite (arrayAt_mono _ _ _ _ Hsub Hl). simpl. by apply itemsOf_mono.
Qed.

Lemma loadArray_ok (h : Store.heap) l elems :
  h !! l = Some (Store.OArray elems) → Store.loadArray l h = (Returns elems, h).
Proof. intros Hl. unfold Store.loadArray, Store.bind, Store.load. by rewrite Hl. Qed.

Lemma loadItem_ok (h : Store.heap) l item :
  Store.itemAt h l = Some item → Store.loadItem l h = (Returns item, h).
Proof.
  unfold Store.itemAt, Store.loadItem, Store.bind, Store.load.
  destruct (h !! l) as [[]|]; intros; simplify_eq; done.
Qed.

Lemma loadItems_ok (h : Store.heap) refs : ∀ items,
  mapM (Store.itemAt h) refs = Some items → Store.loadItems refs h = (Returns items, h).
Proof.
  induction refs as [|r refs IH]; intros items Hm.
  - apply mapM_Some in Hm. by inversion Hm.
  - apply mapM_Some in Hm. apply Forall2_cons_inv_l in Hm
      as (item & its & Hr & Hrest & ->).
    simpl. unfold Store.bind at 1. rewrite (loadItem_ok _ _ _ Hr).
    unfold Store.bind at 1. rewrite (IH its) by (by apply mapM_Some). done.
Qed.

(** Sorting pairs by their second component sorts the second
    components. *)
Lemma sortedInsert_snd {A B : Type} (notAfter : B → B → bool) (x : A * B) l :
  (sortedInsert (λ a b, notAfter a.2 b.2) x l).*2
  = sortedInsert notAfter x.2 l.*2.
Proof.
  induction l as [|y l IH]; csimpl; [done|].
  destruct (notAfter x.2 y.2); csimpl; [done|]. by rewrite IH.
Qed.

Lemma arraySort_snd {A B : Type} (notAfter : B → B → bool) (l : list (A * B)) :
  (arraySort (λ a b, notAfter a.2 b.2) l).*2 = arraySort notAfter l.*2.
Proof.
  induction l as [|x l IH]; csimpl; [done|].
  by rewrite sortedInsert_snd, IH.
Qed.

(** The references of a sorted array lead to the sorted items. *)
Lemma sorted_refs_items (h : Store.heap) notAfter refs items :
  mapM (Store.itemAt h) refs = Some items →
  mapM (Store.itemAt h) (arraySort (λ a b, notAfter a.2 b.2) (zip refs items)).*1
  = Some (arraySort notAfter items).
Proof.
  intros Hm. apply mapM_Some in Hm.
  assert (length refs = length items) as Hlen by (by eapply Forall2_length).
  rewrite <- (snd_zip refs items) at 2 by lia.
  rewrite <- arraySort_snd.
  apply mapM_Some, Forall2_fmap, Forall_Forall2_diag.
  rewrite arraySort_perm.
  apply Forall_forall. intros [r item] Hin.
  apply list_elem_of_lookup in Hin as [i Hi].
  apply lookup_zip_with_Some in Hi as (r' & item' & [= <- <-] & Hr & Hitem).
  simpl. eapply Forall2_lookup_lr in Hm; [|exact Hr|exact Hitem]. exact Hm.
Qed.

Lemma sortInPlace_ok (h : Store.heap) arr notAfter refs items :
  h !! arr = Some (Store.OArray refs) → mapM (Store.itemAt h) refs = Some items →
  Store.sortInPlace arr notAfter h
  = (Returns tt,
     <[arr := Store.OArray (arraySort (λ a b, notAfter a.2 b.2) (zip refs items)).*1]> h).
Proof.
  intros Harr Hitems. unfold Store.sortInPlace.
  unfold Store.bind at 1. rewrite (loadArray_ok _ _ _ Harr).
  unfold Store.bind at 1. rewrite (loadItems_ok _ _ _ Hitems). done.
Qed.

Lemma itemsAt_Some (h : Store.heap) l items :
  Store.itemsAt h l = Some items ↔
  ∃ refs, h !! l = Some (Store.OArray refs) ∧ mapM (Store.itemAt h) refs = Some items.
Proof.
  unfold Store.itemsAt. split.
  - destruct (Store.arrayAt h l) as [refs|] eqn:Hl; [|done]. simpl.
    apply arrayAt_Some in Hl. eauto.
  - intros (refs & Hl%arrayAt_Some & Hm). by rewrite Hl.
Qed.

Lemma sorted_refs_perm {B : Type} (notAfter : B → B → bool)
    (refs : list Store.loc) (items : list B) :
  length refs = length items →
  (arraySort (λ a b, notAfter a.2 b.2) (zip refs items)).*1 ≡ₚ refs.
Proof. intros Hlen. rewrite arraySort_perm. by rewrite fst_zip by lia. Qed.

(** [sortByIndexOrDate] allocates the array it returns, which shares the
    items of the input, sorts that one and leaves the store it found as it
    was. *)
Lemma store_sortByIndexOrDate (h : Store.heap) items its :
  Store.itemsAt h items = Some its →
  ∃ l h', Store.sortByIndexOrDate items h = (Returns l, h')
          ∧ h ⊆ h' ∧ (l ∉ dom h)
          ∧ Store.itemsAt h' l = Some (sortByIndexOrDate its)
          ∧ Store.elementsShared h h' items l.
Proof.
  intros (refs & Hitems & Hits)%itemsAt_Some.
  assert (length refs = length its) as Hlen
    by (apply mapM_Some in Hits; by eapply Forall2_length).
  set (l := fresh (dom h)).
  assert (h !! l = None) as Hfresh by apply alloc_fresh.
  assert (h ⊆ <[l := Store.OArray refs]> h) as Hsub1 by (by apply insert_subseteq).
  assert (∀ notAfter,
    ∃ l' h', match Store.sortInPlace l notAfter (<[l := Store.OArray refs]> h) with
             | (Returns _, h') => (Returns l, h')
             | (Throws, h') => (Throws, h')
             end = (Returns l', h')
             ∧ h ⊆ h' ∧ (l' ∉ dom h)
             ∧ Store.itemsAt h' l' = Some (arraySort notAfter its)
             ∧ Store.elementsShared h h' items l') as Hsort.
  { intros notAfter.
    rewrite (sortInPlace_ok _ l notAfter refs its);
      [|by rewrite lookup_insert_eq|by eapply itemsOf_mono].
    rewrite insert_insert_eq.
    eexists l, _. split; [done|].
    assert (h ⊆ <[l := Store.OArray (arraySort (λ a b, notAfter a.2 b.2) (zip refs its)).*1]> h)
      as Hsub2 by (by apply insert_subseteq).
    split; [done|]. split; [by apply not_elem_of_dom|]. split.
    - apply itemsAt_Some. eexists. split; [by rewrite lookup_insert_eq|].
      eapply itemsOf_mono; [done|]. by apply sorted_refs_items.
    - eexists refs, _. split; [by apply arrayAt_Some|].
      split; [apply arrayAt_Some; by rewrite lookup_insert_eq|].
      by apply sorted_refs_perm. }
  unfold Store.sortByIndexOrDate, sortByIndexOrDate.
  unfold Store.bind at 1. rewrite (loadArray_ok _ _ _ Hitems).
  unfold Store.bind at 1. rewrite (loadItems_ok _ _ _ Hits).
  unfold Store.bind at 1. unfold Store.alloc. fold l.
  unfold Store.bind at 1.
  destruct (existsb _ its); [apply (Hsort notAfterIndex)|apply (Hsort notAfterDate)].
Qed.

Lemma loadSet_ok (h : Store.heap) l members :
  h !! l = Some (Store.OSet members) → Store.loadSet l h = (Returns members, h).
Proof. intros Hl. unfold Store.loadSet, Store.bind, Store.load. by rewrite Hl. Qed.

(** The comparison loop writes the set it was given and nothing else. *)
Lemma conflictLoop_ok items (positionByPath : gmap string Z) conflicts n :
  ∀ i (h : Store.heap) members,
    h !! conflicts = Some (Store.OSet members) →
    Store.conflictLoop n i items positionByPath conflicts h
    = (Returns tt,
       <[conflicts := Store.OSet (for_up n i (conflictStep items positionByPath) members)]> h).
Proof.
  induction n as [|n IH]; intros i h members Hc; simpl.
  - unfold Store.ret. by rewrite insert_id.
  - unfold Store.bind at 1. rewrite (loadSet_ok _ _ _ Hc).
    unfold Store.bind at 1. unfold Store.store.
    rewrite (IH _ _ (conflictStep items positionByPath i members))
      by (by rewrite lookup_insert_eq).
    by rewrite insert_insert_eq.
Qed.

(** [detectIndexConflicts] allocates the set it returns and the copy it
    sorts, and writes these two only. *)
Lemma store_detectIndexConflicts (h : Store.heap) items its :
  Store.itemsAt h items = Some its →
  Store.yields (Store.detectIndexConflicts items) h Store.setAt (detectIndexConflicts its).
Proof.
  intros (refs & Hitems & Hits)%itemsAt_Some.
  assert (length refs = length its) as Hlen
    by (apply mapM_Some in Hits; by eapply Forall2_length).
  set (lc := fresh (dom h)).
  assert (h !! lc = None) as Hlc by apply alloc_fresh.
  set (h1 := <[lc := Store.OSet ∅]> h).
  assert (h ⊆ h1) as Hsub1 by (by apply insert_subseteq).
  unfold Store.detectIndexConflicts, detectIndexConflicts, Store.yields.
  unfold Store.bind at 1. unfold Store.alloc. fold lc. fold h1.
  unfold Store.bind at 1.
  rewrite (loadArray_ok h1 items refs) by (by eapply lookup_weaken).
  rewrite Hlen. destruct (Z.of_nat (length its) <=? 1).
  { exists lc, h1. split; [done|]. split; [done|].
    split; [by apply not_elem_of_dom|].
    unfold Store.setAt, h1. by rewrite lookup_insert_eq. }
  set (ls := fresh (dom h1)).
  assert (h1 !! ls = None) as Hls by apply alloc_fresh.
  assert (h !! ls = None) as Hls0.
  { destruct (h !! ls) eqn:E; [|done].
    by rewrite (lookup_weaken _ _ _ _ E Hsub1) in Hls. }
  assert (ls ≠ lc) as Hne.
  { intros ->. unfold h1 in Hls. by rewrite lookup_insert_eq in Hls. }
  unfold Store.bind at 1. unfold Store.alloc. fold ls.
  unfold Store.bind at 1.
  rewrite (sortInPlace_ok _ ls notAfterDate refs its);
    [|by rewrite lookup_insert_eq
     |eapply itemsOf_mono; [|done]; by apply insert_subseteq_r].
  rewrite insert_insert_eq.
  set (refs' := (arraySort (λ a b, notAfterDate a.2 b.2) (zip refs its)).*1).
  set (h3 := <[ls := Store.OArray refs']> h1).
  assert (h ⊆ h3) as Hsub3 by (by apply insert_subseteq_r).
  unfold Store.bind at 1.
  rewrite (loadArray_ok h3 ls refs') by (unfold h3; by rewrite lookup_insert_eq).
  unfold Store.bind at 1.
  rewrite (loadItems_ok h3 refs' (arraySort notAfterDate its))
    by (eapply itemsOf_mono; [done|]; by apply sorted_refs_items).
  unfold Store.bind at 1.
  rewrite (loadItems_ok h3 refs its) by (by eapply itemsOf_mono).
  unfold Store.bind at 1.
  rewrite (conflictLoop_ok _ _ lc _ _ h3 ∅)
    by (unfold h3, h1; rewrite lookup_insert_ne by done; by rewrite lookup_insert_eq).
  eexists lc, _. split; [done|]. split; [by apply insert_subseteq_r|].
  split; [by apply not_elem_of_dom|].
  unfold Store.setAt. by rewrite lookup_insert_eq.
Qed.

Lemma itemAt_insert_ne (h : Store.heap) k o r :
  r ≠ k → Store.itemAt (<[k := o]> h) r = Store.itemAt h r.
Proof. intros Hne. unfold Store.itemAt. by rewrite lookup_insert_ne. Qed.

Lemma itemAt_dom (h : Store.heap) r item :
  Store.itemAt h r = Some item → h !! r = Some (Store.OItem item).
Proof. unfold Store.itemAt. destruct (h !! r) as [[]|]; intros; simplify_eq; done. Qed.

(** Writing an array or a new object keeps the items of a list of
    references that does not hold the written reference. *)
Lemma itemsOf_insert (h : Store.heap) k o refs items :
  (∀ item, Store.itemAt h k ≠ Some item) →
  mapM (Store.itemAt h) refs = Some items →
  mapM (Store.itemAt (<[k := o]> h)) refs = Some items.
Proof.
  intros Hk. rewrite !mapM_Some. intros H.
  eapply Forall2_impl; [exact H|]. intros r item Hr. simpl in *.
  rewrite itemAt_insert_ne; [done|]. intros ->. by eapply Hk.
Qed.

Lemma mapM_snoc {A B : Type} (f : A → option B) l x k y :
  mapM f l = Some k → f x = Some y → mapM f (l ++ [x]) = Some (k ++ [y]).
Proof.
  rewrite !mapM_Some. intros Hl Hx. apply Forall2_app; [done|]. by repeat constructor.
Qed.

Section StoreBuilder.
Variable isTruthy : Value → bool.
Variable toFiniteNumber : Value → option Q.

(** The loop of [buildTimelineItems] allocates the items and writes the
    array [items]; what the store held before the call stays. *)
Lemma store_buildLoop (h0 : Store.heap) items entries sp ep ip cp :
  h0 !! items = None →
  ∀ (h : Store.heap) refs acc,
    h0 ⊆ h → h !! items = Some (Store.OArray refs) →
    Forall (λ r, h0 !! r = None) refs →
    mapM (Store.itemAt h) refs = Some acc →
    match buildLoop isTruthy toFiniteNumber entries sp ep ip cp acc with
    | Returns its =>
        ∃ h' refs', Store.buildLoop isTruthy toFiniteNumber entries sp ep ip cp items h
                    = (Returns tt, h')
                    ∧ h0 ⊆ h' ∧ h' !! items = Some (Store.OArray refs')
                    ∧ Forall (λ r, h0 !! r = None) refs'
                    ∧ mapM (Store.itemAt h') refs' = Some its
    | Throws =>
        ∃ h', Store.buildLoop isTruthy toFiniteNumber entries sp ep ip cp items h
              = (Throws, h') ∧ h0 ⊆ h'
    end.
Proof.
  intros Hitems0.
  induction entries as [|entry entries IH]; intros h refs acc Hsub Hitems Hnew Hacc.
  { by exists h, refs. }
  assert (∀ r, extractDateRange entry sp ep (calendarOf entry cp) = r →
    Store.buildLoop isTruthy toFiniteNumber (entry :: entries) sp ep ip cp items h
    = match r with
      | Returns (Some range) =>
          let item := mkItem entry range (indexOf isTruthy toFiniteNumber entry ip) in
          let li := fresh (dom h) in
          Store.buildLoop isTruthy toFiniteNumber entries sp ep ip cp items
            (<[items := Store.OArray (refs ++ [li])]> (<[li := Store.OItem item]> h))
      | Returns None =>
          Store.buildLoop isTruthy toFiniteNumber entries sp ep ip cp items h
      | Throws => (Throws, h)
      end) as Hstep.
  { intros r Hr. simpl. unfold Store.bind at 1. unfold Store.lift. rewrite Hr.
    destruct r as [[range|]|]; [|done..].
    assert (h !! fresh (dom h) = None) as Hli by apply alloc_fresh.
    unfold Store.bind at 1. unfold Store.alloc.
    unfold Store.bind at 1.
    rewrite (loadArray_ok _ items refs); [done|].
    rewrite lookup_insert_ne; [done|]. intros Heq. by rewrite Heq, Hitems in Hli. }
  rewrite (Hstep _ eq_refl). simpl. clear Hstep.
  destruct (extractDateRange entry sp ep (calendarOf entry cp)) as [[range|]|];
    simpl.
  - set (item := mkItem entry range (indexOf isTruthy toFiniteNumber entry ip)).
    set (li := fresh (dom h)).
    assert (h !! li = None) as Hli by apply alloc_fresh.
    assert (h0 !! li = None) as Hli0.
    { destruct (h0 !! li) eqn:E; [|done].
      by rewrite (lookup_weaken _ _ _ _ E Hsub) in Hli. }
    assert (li ≠ items) as Hne by (intros Heq; by rewrite Heq, Hitems in Hli).
    apply (IH _ (refs ++ [li]) (acc ++ [item])).
    + by apply insert_subseteq_r, insert_subseteq_r.
    + by rewrite lookup_insert_eq.
    + apply Forall_app. split; [done|by repeat constructor].
    + apply mapM_snoc.
      * apply itemsOf_insert.
        { intros it. unfold Store.itemAt.
          rewrite lookup_insert_ne by done. by rewrite Hitems. }
        apply itemsOf_insert; [|done].
        intros it. unfold Store.itemAt. by rewrite Hli.
      * rewrite itemAt_insert_ne by done.
        unfold Store.itemAt. by rewrite lookup_insert_eq.
  - by apply (IH h refs acc).
  - by exists h.
Qed.

(** [buildTimelineItems] allocates the array and the items it returns;
    when a host lookup throws, so does it; either way the store it
    found is as it was. *)
Lemma store_buildTimelineItems (h : Store.heap) entries es sp ep ip cp :
  Store.entriesAt h entries = Some es →
  match buildTimelineItems isTruthy toFiniteNumber es sp ep ip cp with
  | Returns its =>
      ∃ l h', Store.buildTimelineItems isTruthy toFiniteNumber entries sp ep ip cp h
              = (Returns l, h')
              ∧ h ⊆ h' ∧ (l ∉ dom h)
              ∧ Store.itemsAt h' l = Some its
              ∧ Store.elementsFresh h h' l
  | Throws =>
      Store.throwsOn (Store.buildTimelineItems isTruthy toFiniteNumber entries sp ep ip cp) h
  end.
Proof.
  intros Hes. unfold Store.entriesAt in Hes.
  destruct (h !! entries) as [[es'| | |]|] eqn:Hentries; simplify_eq.
  set (l := fresh (dom h)).
  assert (h !! l = None) as Hl by apply alloc_fresh.
  assert (l ≠ entries) as Hne by (intros ->; by rewrite Hentries in Hl).
  pose proof (store_buildLoop h l es sp ep ip cp Hl
                (<[l := Store.OArray []]> h) [] []) as Hloop.
  unfold buildTimelineItems.
  destruct (buildLoop isTruthy toFiniteNumber es sp ep ip cp []) as [its|].
  - destruct Hloop as (h' & refs' & Hrun & Hsub & Harr & Hnew & Hits);
      [by apply insert_subseteq|by rewrite lookup_insert_eq|done|done|].
    exists l, h'.
    split; [|split; [done|split; [by apply not_elem_of_dom|split]]].
    + unfold Store.buildTimelineItems.
      unfold Store.bind at 1. unfold Store.alloc. fold l.
      unfold Store.bind at 1. unfold Store.loadEntries.
      unfold Store.bind at 1. unfold Store.load.
      rewrite lookup_insert_ne by done. rewrite Hentries.
      unfold Store.ret at 1. unfold Store.bind at 1. by rewrite Hrun.
    + apply itemsAt_Some. eauto.
    + intros refs Hrefs. apply arrayAt_Some in Hrefs.
      rewrite Harr in Hrefs. by injection Hrefs as <-.
  - destruct Hloop as (h' & Hrun & Hsub);
      [by apply insert_subseteq|by rewrite lookup_insert_eq|done|done|].
    exists h'. split; [|done].
    unfold Store.buildTimelineItems.
    unfold Store.bind at 1. unfold Store.alloc. fold l.
    unfold Store.bind at 1. unfold Store.loadEntries.
    unfold Store.bind at 1. unfold Store.load.
    rewrite lookup_insert_ne by done. rewrite Hentries.
    unfold Store.ret at 1. unfold Store.bind at 1. by rewrite Hrun.
Qed.
End StoreBuilder.

(** *** Track assigner on the store *)

Section StoreTracks.
Context (h0 : Store.heap) (tracks ref : Store.loc) (item : TimelineItem).
Hypothesis tracks_fresh : h0 !! tracks = None.
Hypothesis ref_item : Store.itemAt h0 ref = Some item.

Lemma tracksRel_push (h : Store.heap) ptracks trackRefs (t : nat) tr ptrack elems :
  tracksRel h0 h tracks ptracks →
  h !! tracks = Some (Store.OArray trackRefs) →
  trackRefs !! t = Some tr → ptracks !! t = Some ptrack →
  h !! tr = Some (Store.OArray elems) →
  tracksRel h0 (<[tr := Store.OArray (elems ++ [ref])]> h) tracks
            (alter (λ track, track ++ [item]) t ptracks).
Proof.
  intros (Hsub & refs' & Htracks & Hnd & Hnotin & Hfresh & Hrel) Htr' Ht Hpt Helems.
  rewrite Htracks in Htr'. injection Htr' as <-.
  assert (h0 !! tr = None) as Htr0.
  { rewrite Forall_forall in Hfresh. apply Hfresh. by eapply list_elem_of_lookup_2. }
  assert (tr ≠ tracks) as Hne.
  { intros ->. apply Hnotin. by eapply list_elem_of_lookup_2. }
  split; [by apply insert_subseteq_r|]. exists refs'.
  split; [by rewrite lookup_insert_ne|]. do 3 (split; [done|]).
  apply Forall2_same_length_lookup in Hrel as [Hlen Hrel].
  apply Forall2_same_length_lookup. split; [by rewrite length_alter|].
  intros u x y Hx Hy. destruct (decide (u = t)) as [->|Hut].
  - rewrite Ht in Hx. injection Hx as <-.
    rewrite list_lookup_alter_eq, Hpt in Hy. simpl in Hy. injection Hy as <-.
    exists (elems ++ [ref]). split; [by rewrite lookup_insert_eq|].
    destruct (Hrel t tr ptrack Ht Hpt) as (elems' & Helems' & Hm).
    rewrite Helems in Helems'. injection Helems' as <-.
    by apply mapM_snoc.
  - rewrite list_lookup_alter_ne in Hy by done.
    destruct (Hrel u x y Hx Hy) as (elems' & Helems' & Hm).
    exists elems'. split; [|done].
    rewrite lookup_insert_ne; [done|]. intros <-.
    apply Hut. by eapply NoDup_lookup.
Qed.

Lemma store_placeLoop n : ∀ t (h : Store.heap) ptracks lastEnd,
  tracksRel h0 h tracks ptracks → (t + n ≤ length ptracks)%nat →
  match placeLoop n t item ptracks lastEnd with
  | Some (ptracks', lastEnd') =>
      ∃ h', Store.placeLoop n t ref item tracks lastEnd h = (Returns (Some lastEnd'), h')
            ∧ tracksRel h0 h' tracks ptracks'
  | None => Store.placeLoop n t ref item tracks lastEnd h = (Returns None, h)
  end.
Proof.
  induction n as [|n IH]; intros t h ptracks lastEnd Hrel Ht; simpl; [done|].
  destruct (gtb _ _); [|apply IH; [done|lia]].
  pose proof Hrel as (Hsub & trackRefs & Htracks & Hnd & Hnotin & Hfresh & Hall).
  assert (length trackRefs = length ptracks) as Hlen by (by eapply Forall2_length).
  destruct (lookup_lt_is_Some_2 trackRefs t) as [tr Htr]; [lia|].
  destruct (lookup_lt_is_Some_2 ptracks t) as [ptrack Hpt]; [lia|].
  destruct (Forall2_lookup_lr _ _ _ _ _ _ Hall Htr Hpt) as (elems & Helems & Hm).
  eexists. split.
  - unfold Store.bind at 1. rewrite (loadArray_ok _ _ _ Htracks). rewrite Htr.
    unfold Store.bind at 1. rewrite (loadArray_ok _ _ _ Helems).
    unfold Store.bind at 1. unfold Store.store. done.
  - by eapply tracksRel_push.
Qed.

Lemma store_placeItem (h : Store.heap) ptracks lastEnd :
  tracksRel h0 h tracks ptracks →
  ∃ h', Store.placeItem tracks lastEnd ref h
        = (Returns (placeItem (ptracks, lastEnd) item).2, h')
        ∧ tracksRel h0 h' tracks (placeItem (ptracks, lastEnd) item).1.
Proof.
  intros Hrel.
  pose proof Hrel as (Hsub & trackRefs & Htracks & Hnd & Hnotin & Hfresh & Hall).
  assert (length trackRefs = length ptracks) as Hlen by (by eapply Forall2_length).
  pose proof (store_placeLoop (length ptracks) 0 h ptracks lastEnd Hrel) as Hloop.
  unfold Store.placeItem, placeItem.
  unfold Store.bind at 1.
  rewrite (loadItem_ok h ref item) by (by eapply itemAt_mono).
  unfold Store.bind at 1. rewrite (loadArray_ok _ _ _ Htracks).
  unfold Store.bind at 1. rewrite Hlen.
  destruct (placeLoop (length ptracks) 0 item ptracks lastEnd)
    as [[ptracks' lastEnd']|].
  - destruct Hloop as (h' & -> & Hrel'); [simpl; lia|]. by exists h'.
  - rewrite Hloop by (simpl; lia). simpl.
    set (ln := fresh (dom h)).
    assert (h !! ln = None) as Hln by apply alloc_fresh.
    assert (h0 !! ln = None) as Hln0.
    { destruct (h0 !! ln) eqn:E; [|done].
      by rewrite (lookup_weaken _ _ _ _ E Hsub) in Hln. }
    assert (ln ≠ tracks) as Hne by (intros Heq; by rewrite Heq, Htracks in Hln).
    assert (ln ∉ trackRefs) as Hnew.
    { intros Hin. apply list_elem_of_lookup in Hin as [u Hu].
      apply Forall2_same_length_lookup in Hall as [_ Hall].
      destruct (lookup_lt_is_Some_2 ptracks u) as [y Hy];
        [apply lookup_lt_Some in Hu; lia|].
      destruct (Hall u ln y Hu Hy) as (elems & Helems & _).
      by rewrite Helems in Hln. }
    eexists. split.
    + unfold Store.bind at 1. unfold Store.alloc. fold ln.
      unfold Store.bind at 1.
      rewrite (loadArray_ok _ tracks trackRefs) by (by rewrite lookup_insert_ne).
      unfold Store.bind at 1. unfold Store.store. done.
    + split; [by apply insert_subseteq_r, insert_subseteq_r|].
      exists (trackRefs ++ [ln]).
      split; [by rewrite lookup_insert_eq|].
      split; [apply NoDup_app; split; [done|split; [|apply NoDup_singleton]];
              intros x Hx ->%list_elem_of_singleton; by apply Hnew|].
      split; [intros [Hin|Hin%list_elem_of_singleton]%elem_of_app;
              [by apply Hnotin|by apply Hne]|].
      split; [apply Forall_app; split; [done|by repeat constructor]|].
      apply Forall2_app.
      * apply Forall2_same_length_lookup in Hall as [_ Hall].
        apply Forall2_same_length_lookup. split; [done|].
        intros u tr ptrack Hu Hy.
        destruct (Hall u tr ptrack Hu Hy) as (elems & Helems & Hm).
        exists elems. split; [|done].
        rewrite lookup_insert_ne
          by (intros <-; apply Hnotin; by eapply list_elem_of_lookup_2).
        rewrite lookup_insert_ne; [done|]. intros <-. by rewrite Helems in Hln.
      * repeat constructor. exists [ref]. split.
        -- rewrite lookup_insert_ne by done. by rewrite lookup_insert_eq.
        -- simpl. by rewrite ref_item.
Qed.
End StoreTracks.

Lemma store_placeAll (h0 : Store.heap) tracks refs : ∀ its (h : Store.heap) ptracks lastEnd,
  h0 !! tracks = None →
  Forall2 (λ r it, Store.itemAt h0 r = Some it) refs its →
  tracksRel h0 h tracks ptracks →
  ∃ h', Store.placeAll refs tracks lastEnd h = (Returns tt, h')
        ∧ tracksRel h0 h' tracks (fold_left placeItem its (ptracks, lastEnd)).1.
Proof.
  induction refs as [|ref refs IH]; intros its h ptracks lastEnd Hfresh Hall Hrel.
  - apply Forall2_nil_inv_l in Hall as ->. by exists h.
  - apply Forall2_cons_inv_l in Hall as (item & its' & Hitem & Hall & ->).
    destruct (store_placeItem h0 tracks ref item Hfresh Hitem h ptracks lastEnd Hrel)
      as (h1 & Hrun & Hrel1).
    change (fold_left placeItem (item :: its') (ptracks, lastEnd))
      with (fold_left placeItem its' (placeItem (ptracks, lastEnd) item)).
    change (Store.placeAll (ref :: refs) tracks lastEnd)
      with (Store.bind (Store.placeItem tracks lastEnd ref)
                       (λ lastEnd', Store.placeAll refs tracks lastEnd')).
    unfold Store.bind at 1. rewrite Hrun.
    destruct (placeItem (ptracks, lastEnd) item) as [ptracks' lastEnd'].
    by apply IH.
Qed.

Lemma tracksRel_tracksAt (h0 h : Store.heap) tracks ptracks :
  tracksRel h0 h tracks ptracks →
  Store.tracksAt h tracks = Some ptracks ∧ Store.elementsFresh h0 h tracks.
Proof.
  intros (Hsub & trackRefs & Htracks & Hnd & Hnotin & Hfresh & Hall).
  unfold Store.tracksAt, Store.elementsFresh.
  rewrite (proj2 (arrayAt_Some _ _ _) Htracks). simpl. split.
  - apply mapM_Some. eapply Forall2_impl; [exact Hall|].
    intros tr ptrack (elems & Helems & Hm). simpl.
    apply itemsAt_Some. exists elems. split; [done|]. by eapply itemsOf_mono.
  - by intros refs [= <-].
Qed.

(** [assignTracks] allocates the array of tracks and every track, writes
    these only, and leaves the store it found as it was. *)
Lemma store_assignTracks (h : Store.heap) items its :
  Store.itemsAt h items = Some its →
  ∃ l h', Store.assignTracks items h = (Returns l, h')
          ∧ h ⊆ h' ∧ (l ∉ dom h)
          ∧ Store.tracksAt h' l = Some (assignTracks its)
          ∧ Store.elementsFresh h h' l.
Proof.
  intros (refs & Hitems & Hits)%itemsAt_Some.
  set (lt := fresh (dom h)).
  assert (h !! lt = None) as Hlt by apply alloc_fresh.
  assert (tracksRel h (<[lt := Store.OArray []]> h) lt []) as Hrel.
  { split; [by apply insert_subseteq|]. exists [].
    split; [by rewrite lookup_insert_eq|].
    split; [constructor|]. split; [by intros ?%elem_of_nil|]. by split. }
  destruct (store_placeAll h lt refs its _ [] [] Hlt
              (proj1 (mapM_Some _ _ _) Hits) Hrel) as (h' & Hrun & Hrel').
  destruct (tracksRel_tracksAt _ _ _ _ Hrel') as [Hview Hnew].
  exists lt, h'. split; [|split; [by destruct Hrel'|split; [by apply not_elem_of_dom|done]]].
  unfold Store.assignTracks.
  unfold Store.bind at 1. unfold Store.alloc. fold lt.
  unfold Store.bind at 1.
  rewrite (loadArray_ok _ items refs)
    by (rewrite lookup_insert_ne; [done|]; intros Heq; by rewrite Heq, Hitems in Hlt).
  unfold Store.bind at 1. by rewrite Hrun.
Qed.

(** An operation that yields on every store yields twice in a row. *)
Lemma yields_twice {I R : Type} (op : Store.M Store.loc)
    (input : Store.heap → option I) (view : Store.heap → Store.loc → option R)
    (i : I) (result : R) :
  (∀ h, input h = Some i → Store.yields op h view result) →
  (∀ h h', h ⊆ h' → input h = Some i → input h' = Some i) →
  ∀ h, input h = Some i → Store.runsTwice op h input view i result.
Proof.
  intros Hop Hmono h Hin.
  destruct (Hop h Hin) as (l1 & h1 & Hrun1 & Hsub1 & Hl1 & Hview1).
  assert (input h1 = Some i) as Hin1 by (by eapply Hmono).
  destruct (Hop h1 Hin1) as (l2 & h2 & Hrun2 & Hsub2 & Hl2 & Hview2).
  assert (input h2 = Some i) as Hin2 by (by eapply Hmono).
  by exists l1, h1, l2, h2.
Qed.

Lemma entriesAt_mono (h h' : Store.heap) l es :
  h ⊆ h' → Store.entriesAt h l = Some es → Store.entriesAt h' l = Some es.
Proof.
  unfold Store.entriesAt. intros Hsub.
  destruct (h !! l) as [o|] eqn:Hl; [|done].
  by rewrite (lookup_weaken _ _ _ _ Hl Hsub).
Qed.
End StoreFacts.

(** C8: every public pipeline operation ([buildTimelineItems],
    [sortByIndexOrDate], [assignTracks], [detectIndexConflicts]) leaves its
    input sequence, the items in it and every other object that existed
    before the call unchanged, and returns structures allocated during the
    call: a new array that shares the items of the input for
    [sortByIndexOrDate], a new array of new tracks for [assignTracks], a
    new set for [detectIndexConflicts], a new array of new items for
    [buildTimelineItems].  Run twice on the same input, an operation yields
    the same result both times, the value it computes from the input
    alone.  When a host lookup throws, [buildTimelineItems] throws and has
    changed nothing either. *)
Theorem pipeline_frame (isTruthy : Value → bool) (toFiniteNumber : Value → option Q)
    (h : Store.heap) (items entries : Store.loc)
    (its : list TimelineItem) (es : list BasesEntry)
    (startProp endProp indexProp calendarProp : option string) :
  Store.itemsAt h items = Some its →
  Store.entriesAt h entries = Some es →
  (Store.runsTwice (Store.sortByIndexOrDate items) h
     (λ h, Store.itemsAt h items) Store.itemsAt its (sortByIndexOrDate its)
   ∧ ∀ l h', Store.sortByIndexOrDate items h = (Returns l, h') →
             Store.elementsShared h h' items l)
  ∧ (Store.runsTwice (Store.assignTracks items) h
       (λ h, Store.itemsAt h items) Store.tracksAt its (assignTracks its)
     ∧ ∀ l h', Store.assignTracks items h = (Returns l, h') →
               Store.elementsFresh h h' l)
  ∧ Store.runsTwice (Store.detectIndexConflicts items) h
      (λ h, Store.itemsAt h items) Store.setAt its (detectIndexConflicts its)
  ∧ match buildTimelineItems isTruthy toFiniteNumber es
            startProp endProp indexProp calendarProp with
    | Returns built =>
        Store.runsTwice
          (Store.buildTimelineItems isTruthy toFiniteNumber entries
             startProp endProp indexProp calendarProp)
          h (λ h, Store.entriesAt h entries) Store.itemsAt es built
        ∧ ∀ l h', Store.buildTimelineItems isTruthy toFiniteNumber entries
                    startProp endProp indexProp calendarProp h = (Returns l, h') →
                  Store.elementsFresh h h' l
    | Throws =>
        Store.throwsOn
          (Store.buildTimelineItems isTruthy toFiniteNumber entries
             startProp endProp indexProp calendarProp) h
    end.
Proof.
  intros Hitems Hentries.
  assert (∀ h h' : Store.heap, h ⊆ h' →
            Store.itemsAt h items = Some its → Store.itemsAt h' items = Some its)
    as Hmono by (intros ????; by eapply itemsAt_mono).
  split; [|split; [|split]].
  - split.
    + apply yields_twice; [|done..].
      intros h0 H0. destruct (store_sortByIndexOrDate h0 items its H0)
        as (l & h' & ? & ? & ? & ? & _). by exists l, h'.
    + intros l h' Hrun.
      destruct (store_sortByIndexOrDate h items its Hitems)
        as (l0 & h0 & Hrun0 & _ & _ & _ & Hshared).
      rewrite Hrun in Hrun0. by injection Hrun0 as <- <-.
  - split.
    + apply yields_twice; [|done..].
      intros h0 H0. destruct (store_assignTracks h0 items its H0)
        as (l & h' & ? & ? & ? & ? & _). by exists l, h'.
    + intros l h' Hrun.
      destruct (store_assignTracks h items its Hitems)
        as (l0 & h0 & Hrun0 & _ & _ & _ & Hnew).
      rewrite Hrun in Hrun0. by injection Hrun0 as <- <-.
  - apply yields_twice; [|done..].
    intros h0 H0. by apply store_detectIndexConflicts.
  - pose proof (λ h0, store_buildTimelineItems isTruthy toFiniteNumber h0 entries es
                        startProp endProp indexProp calendarProp) as Hbuild.
    destruct (buildTimelineItems isTruthy toFiniteNumber es
                startProp endProp indexProp calendarProp) as [built|].
    + split.
      * apply yields_twice; [| |done].
        -- intros h0 H0. destruct (Hbuild h0 H0) as (l & h' & ? & ? & ? & ? & _).
           by exists l, h'.
        -- intros ????. by eapply entriesAt_mono.
      * intros l h' Hrun.
        destruct (Hbuild h Hentries) as (l0 & h0 & Hrun0 & _ & _ & _ & Hnew).
        rewrite Hrun in Hrun0. by injection Hrun0 as <- <-.
    + by apply Hbuild.
Qed.

Lemma pipeline_frame_witness :
  Store.runsTwice (Store.sortByIndexOrDate 3%nat) sampleStore
    (λ h, Store.itemsAt h 3%nat) Store.itemsAt scenarioB (sortByIndexOrDate scenarioB)
  ∧ Store.runsTwice (Store.assignTracks 3%nat) sampleStore
      (λ h, Store.itemsAt h 3%nat) Store.tracksAt scenarioB (assignTracks scenarioB).
Proof.
  pose proof (pipeline_frame (λ _, true) (λ _, None) sampleStore 3%nat 4%nat
                scenarioB [month14Entry] None None None None) as H.
  destruct H as ((Hsort & _) & (Htracks & _) & _); [reflexivity|reflexivity|].
  by split.
Defined.

(* ===================================================================== *)
(** * Further properties of the code *)
(* ===================================================================== *)

(** ** Calendar arithmetic *)

(** What the year loop returns, read backwards: the day it was given is the
    days of the years it passed plus the day it stopped on. *)
Lemma yearLoop_inv fuel : ∀ z k r y,
  yearLoop fuel (Int z) k = Some (r, y) →
  ∃ n : nat, y = k + Z.of_nat n ∧ z = spanDays n k + r
             ∧ r < yearDaysOf y ∧ (0 ≤ z → 0 ≤ r).
Proof.
  induction fuel as [|fuel IH]; intros z k r y; simpl; [discriminate|].
  destruct (Z.ltb_spec z (yearDaysOf k)) as [Hlt|Hge].
  - intros [= <- <-]. exists 0%nat. simpl. repeat split; lia.
  - intros (n & -> & Hz & Hr & Hpos)%IH. exists (S n). simpl.
    pose proof (yearDaysOf_cases k).
    repeat split; [lia|lia| |lia].
    by replace (k + Z.of_nat (S n)) with (k + 1 + Z.of_nat n) by lia.
Qed.

(** The month loop stops in the entry that holds the day. *)
Lemma monthLoop_inv rest : ∀ i day m0,
  Forall (λ x, 0 ≤ x) rest → 0 ≤ day < total rest →
  ∃ (k : nat) len,
    rest !! k = Some len
    ∧ monthLoop rest i day m0 = (day - total (take k rest), i + Z.of_nat k + 1)
    ∧ 0 ≤ day - total (take k rest) < len.
Proof.
  induction rest as [|x rest IH]; intros i day m0 Hnn Hday; simpl in *; [lia|].
  inversion_clear Hnn as [|?? Hx Hrest].
  destruct (Z.ltb_spec day x) as [Hlt|Hge].
  - exists 0%nat, x. simpl. repeat split; (done || f_equal; lia).
  - destruct (IH (i + 1) (day - x) m0 Hrest) as (k & len & Hk & Hrun & Hin); [lia|].
    exists (S k), len. simpl. rewrite Hrun.
    repeat split; [done|f_equal; lia|lia|lia].
Qed.

(** Below day [0] both loops stop at once. *)
Lemma fromAbsoluteDay_below_zero (n : Z) :
  n < 0 → fromAbsoluteDay (Int n) = Some (mkYMD 0 1 (n + 1)).
Proof.
  intros Hn. unfold fromAbsoluteDay, fromAbsoluteDay_fuel, yearFuel.
  replace (Z.to_nat (n / 365)) with 0%nat
    by (pose proof (Z.div_lt_upper_bound n 365 0); lia).
  simpl yearLoop. change (yearDaysOf 0) with 366.
  destruct (Z.ltb_spec n 366); [|lia].
  cbv beta iota zeta. change (isLeap 0) with true. simpl monthLoop.
  destruct (Z.ltb_spec n 31); [|lia]. reflexivity.
Qed.

(** X2: on every day from [0] on, [fromAbsoluteDay] returns a date of the
    calendar: a year that is not negative, a month from 1 to 12 and a day
    of that month. *)
Theorem fromAbsoluteDay_valid (n : Z) :
  0 ≤ n →
  ∃ c, fromAbsoluteDay (Int n) = Some c
       ∧ 0 ≤ ymd_y c ∧ 1 ≤ ymd_m c ≤ 12 ∧ validDate c.
Proof.
  intros Hn. unfold fromAbsoluteDay, fromAbsoluteDay_fuel.
  destruct (yearFuel_enough n) as [H1 H2].
  destruct (yearLoop_terminates _ n 0 H1 H2) as [[r y] Hloop]. rewrite Hloop.
  destruct (yearLoop_inv _ _ _ _ _ Hloop) as (k & -> & Hz & Hr & Hpos).
  destruct (monthLoop_inv (monthTable (isLeap (0 + Z.of_nat k))) 0 r 1)
    as (j & len & Hj & -> & Hin).
  { apply monthTable_nonneg. }
  { rewrite monthTable_total. lia. }
  pose proof (lookup_lt_Some _ _ _ Hj) as Hlt. rewrite monthTable_length in Hlt.
  eexists. split; [done|]. simpl. repeat split; [lia|lia|lia|].
  exists len. simpl. split; [|lia].
  unfold daysInMonth. replace (0 + Z.of_nat j + 1 - 1) with (Z.of_nat j) by lia.
  by rewrite read_of_nat.
Qed.

Lemma fromAbsoluteDay_valid_witness :
  ∃ c, fromAbsoluteDay (Int 739310) = Some c
       ∧ 0 ≤ ymd_y c ∧ 1 ≤ ymd_m c ≤ 12 ∧ validDate c.
Proof. apply (fromAbsoluteDay_valid 739310). lia. Defined.

(** X1: [fromAbsoluteDay] returns on every integer day, and
    [toAbsoluteDay] takes what it returns back to that day, negative days
    included. *)
Theorem toAbsoluteDay_fromAbsoluteDay (n : Z) :
  ∃ c, fromAbsoluteDay (Int n) = Some c ∧ dayOf c = Int n.
Proof.
  destruct (Z.le_gt_cases 0 n) as [Hn|Hn].
  - unfold fromAbsoluteDay, fromAbsoluteDay_fuel.
    destruct (yearFuel_enough n) as [H1 H2].
    destruct (yearLoop_terminates _ n 0 H1 H2) as [[r y] Hloop]. rewrite Hloop.
    destruct (yearLoop_inv _ _ _ _ _ Hloop) as (k & -> & Hz & Hr & Hpos).
    destruct (monthLoop_inv (monthTable (isLeap (0 + Z.of_nat k))) 0 r 1)
      as (j & len & Hj & -> & Hin).
    { apply monthTable_nonneg. }
    { rewrite monthTable_total. lia. }
    pose proof (lookup_lt_Some _ _ _ Hj) as Hlt. rewrite monthTable_length in Hlt.
    eexists. split; [done|]. unfold dayOf. simpl ymd_y. simpl ymd_m. simpl ymd_d.
    rewrite toAbsoluteDay_closed by lia. f_equal.
    replace (Z.to_nat (0 + Z.of_nat k)) with k by lia.
    replace (Z.to_nat (0 + Z.of_nat j + 1 - 1)) with j by lia. lia.
  - rewrite (fromAbsoluteDay_below_zero n) by lia.
    eexists. split; [done|]. unfold dayOf. simpl.
    rewrite toAbsoluteDay_closed by lia. simpl. f_equal. lia.
Qed.

Lemma spanDays_split n : ∀ m k,
  spanDays (n + m) k = spanDays n k + spanDays m (k + Z.of_nat n).
Proof.
  induction n as [|n IH]; intros m k.
  - change (Z.of_nat 0) with 0. rewrite Z.add_0_r. reflexivity.
  - change (spanDays (S n + m) k) with (yearDaysOf k + spanDays (n + m) (k + 1)).
    change (spanDays (S n) k) with (yearDaysOf k + spanDays n (k + 1)).
    rewrite IH. replace (k + 1 + Z.of_nat n) with (k + Z.of_nat (S n)) by lia. lia.
Qed.

Lemma total_take_mono (l : list Z) (k k' : nat) :
  Forall (λ x, 0 ≤ x) l → (k ≤ k')%nat → total (take k l) ≤ total (take k' l).
Proof.
  intros Hl Hk. replace k' with (k + (k' - k))%nat by lia.
  rewrite <- take_take_drop, total_app.
  assert (0 ≤ total (take (k' - k) (drop k l))); [|lia].
  by apply total_nonneg, Forall_take, Forall_drop.
Qed.

(** Closed form of [toAbsoluteDay] up to the thirteenth month, months below
    1 included (their loop does not run). *)
Lemma toAbsoluteDay_closed_le (y m d : Z) :
  m ≤ 13 →
  toAbsoluteDay y m d
  = Int (spanDays (Z.to_nat y) 0
         + total (take (Z.to_nat (m - 1)) (monthTable (isLeap y))) + (d - 1)).
Proof.
  intros Hm. unfold toAbsoluteDay.
  rewrite for_up_years.
  rewrite (for_up_months_num _ _ 0) by (rewrite monthTable_length; lia).
  rewrite drop_0. unfold add. f_equal; lia.
Qed.

(** X6: [toAbsoluteDay] returns an integer exactly when the month is at
    most 13; from month 14 on it returns [NaN], whatever the year and the
    day. *)
Theorem toAbsoluteDay_int_iff (y m d : Z) :
  is_int (toAbsoluteDay y m d) ↔ m ≤ 13.
Proof.
  split.
  - intros [z Hz]. destruct (Z.le_gt_cases m 13) as [|Hm]; [done|].
    rewrite toAbsoluteDay_NaN in Hz by lia. discriminate.
  - intros Hm. rewrite toAbsoluteDay_closed_le by done. by eexists.
Qed.

(** The days before month [m + 1] are those before month [m] and those of
    month [m]. *)
Lemma total_take_next (l : list Z) (m len : Z) :
  1 ≤ m → read l (m - 1) = Some len →
  total (take (Z.to_nat (m + 1 - 1)) l) = total (take (Z.to_nat (m - 1)) l) + len.
Proof.
  intros Hm [_ Hlen]%read_Some.
  replace (Z.to_nat (m + 1 - 1)) with (S (Z.to_nat (m - 1))) by lia.
  rewrite (take_S_r _ _ _ Hlen), total_app. simpl. lia.
Qed.

(** X4: a day past the end of its month rolls over into the next month,
    and month 13 is the first month of the next year: nothing is rejected
    or clamped. *)
Theorem toAbsoluteDay_rolls_over (y m d len : Z) :
  1 ≤ m ≤ 12 → daysInMonth y m = Some len →
  toAbsoluteDay y m (len + d) = toAbsoluteDay y (m + 1) d
  ∧ (0 ≤ y → toAbsoluteDay y 13 d = toAbsoluteDay (y + 1) 1 d).
Proof.
  intros Hm Hlen. unfold daysInMonth in Hlen. split.
  - rewrite !toAbsoluteDay_closed_le by lia.
    rewrite (total_take_next _ m len) by (done || lia). f_equal. lia.
  - intros Hy. rewrite !toAbsoluteDay_closed_le by lia.
    replace (Z.to_nat (y + 1)) with (Z.to_nat y + 1)%nat by lia.
    rewrite spanDays_split. simpl spanDays.
    replace (0 + Z.of_nat (Z.to_nat y)) with y by lia.
    change (Z.to_nat (13 - 1)) with 12%nat. change (Z.to_nat (1 - 1)) with 0%nat.
    rewrite <- (monthTable_length (isLeap y)) at 1.
    rewrite firstn_all, monthTable_total. simpl. f_equal. lia.
Qed.

Lemma toAbsoluteDay_rolls_over_witness :
  toAbsoluteDay 2023 2 (28 + 1) = toAbsoluteDay 2023 (2 + 1) 1
  ∧ (0 ≤ 2023 → toAbsoluteDay 2023 13 1 = toAbsoluteDay (2023 + 1) 1 1).
Proof. apply (toAbsoluteDay_rolls_over 2023 2 1 28); [lia|reflexivity]. Defined.

(** X3: on dates of the calendar from year 0 on, [toAbsoluteDay] is
    strictly increasing: an earlier date has a smaller day number. *)
Theorem toAbsoluteDay_increasing (a b : YMD) :
  0 ≤ ymd_y a → validDate a → validDate b → dateBefore a b →
  ∃ x z, dayOf a = Int x ∧ dayOf b = Int z ∧ x < z.
Proof.
  destruct a as [ya ma da], b as [yb mb db]. unfold validDate, dateBefore, dayOf.
  simpl. intros Hya (la & Hla & Hda) (lb & Hlb & Hdb) Hlt.
  unfold daysInMonth in *.
  pose proof Hla as [Hma Hja]%read_Some. pose proof Hlb as [Hmb Hjb]%read_Some.
  apply lookup_lt_Some in Hja, Hjb. rewrite monthTable_length in Hja, Hjb.
  rewrite !toAbsoluteDay_closed_le by lia.
  do 2 eexists. split; [done|]. split; [done|].
  pose proof (total_take_read _ _ _ (monthTable_nonneg (isLeap ya)) Hla) as [Ha0 Ha1].
  pose proof (total_take_read _ _ _ (monthTable_nonneg (isLeap yb)) Hlb) as [Hb0 Hb1].
  rewrite monthTable_total in Ha1.
  destruct Hlt as [Hy|[<- Hm]].
  - replace (Z.to_nat yb) with (Z.to_nat ya + S (Z.to_nat (yb - ya - 1)))%nat by lia.
    rewrite spanDays_split. simpl spanDays.
    replace (0 + Z.of_nat (Z.to_nat ya)) with ya by lia.
    pose proof (spanDays_lower (Z.to_nat (yb - ya - 1)) (ya + 1)). lia.
  - destruct Hm as [Hm|[<- Hd]]; [|lia].
    pose proof (total_take_mono (monthTable (isLeap ya))
                  (S (Z.to_nat (ma - 1))) (Z.to_nat (mb - 1))
                  (monthTable_nonneg _)) as Hmono.
    rewrite <- (total_take_next _ ma la) in Ha1 by (done || lia).
    replace (Z.to_nat (ma + 1 - 1)) with (S (Z.to_nat (ma - 1))) in * by lia.
    pose proof (total_take_next _ ma la ltac:(lia) Hla) as Hnext.
    replace (Z.to_nat (ma + 1 - 1)) with (S (Z.to_nat (ma - 1))) in Hnext by lia.
    lia.
Qed.

Lemma toAbsoluteDay_increasing_witness :
  ∃ x z, dayOf (mkYMD 2023 12 31) = Int x ∧ dayOf (mkYMD 2024 1 1) = Int z ∧ x < z.
Proof.
  apply (toAbsoluteDay_increasing (mkYMD 2023 12 31) (mkYMD 2024 1 1)).
  - simpl. lia.
  - exists 31. split; [reflexivity|simpl; lia].
  - exists 31. split; [reflexivity|simpl; lia].
  - left. simpl. lia.
Defined.

Lemma isLeap_period (y : Z) : 0 ≤ y → isLeap (y + 400) = isLeap y.
Proof.
  intros Hy. unfold isLeap.
  rewrite !Z.rem_mod_nonneg by lia.
  replace (y + 400) with (y + 100 * 4) at 1 by lia.
  replace (y + 400) with (y + 4 * 100) at 1 by lia.
  replace (y + 400) with (y + 1 * 400) by lia.
  by rewrite !Z_mod_plus_full.
Qed.

Lemma spanDays_snoc n k : spanDays (S n) k = spanDays n k + yearDaysOf (k + Z.of_nat n).
Proof.
  replace (S n) with (n + 1)%nat by lia. rewrite spanDays_split. simpl. lia.
Qed.

(** Any 400 years in a row from year 0 on have 146097 days. *)
Lemma spanDays_400 (k : nat) : spanDays 400 (Z.of_nat k) = 146097.
Proof.
  induction k as [|k IH]; [by vm_compute|].
  assert (spanDays 400 (Z.of_nat k)
          = yearDaysOf (Z.of_nat k) + spanDays 399 (Z.of_nat k + 1)) as H1
    by reflexivity.
  pose proof (spanDays_snoc 399 (Z.of_nat k + 1)) as H2.
  replace (Z.of_nat k + 1 + Z.of_nat 399) with (Z.of_nat k + 400) in H2 by lia.
  assert (yearDaysOf (Z.of_nat k + 400) = yearDaysOf (Z.of_nat k)) as H3
    by (unfold yearDaysOf; rewrite isLeap_period by lia; done).
  replace (Z.of_nat (S k)) with (Z.of_nat k + 1) by lia.
  change 400%nat with (S 399). lia.
Qed.

(** X5: the Gregorian cycle.  From year 0 on, the same date 400 years
    later is exactly 146097 days later. *)
Theorem toAbsoluteDay_400_years (y m d : Z) :
  0 ≤ y →
  toAbsoluteDay (y + 400) m d = add (toAbsoluteDay y m d) (Int 146097).
Proof.
  intros Hy. destruct (Z.le_gt_cases m 13) as [Hm|Hm].
  - rewrite !toAbsoluteDay_closed_le by done.
    rewrite isLeap_period by done.
    replace (Z.to_nat (y + 400)) with (Z.to_nat y + 400)%nat by lia.
    rewrite spanDays_split.
    replace (0 + Z.of_nat (Z.to_nat y)) with (Z.of_nat (Z.to_nat y)) by lia.
    rewrite spanDays_400. simpl. f_equal. lia.
  - by rewrite !toAbsoluteDay_NaN by lia.
Qed.

Lemma toAbsoluteDay_400_years_witness :
  toAbsoluteDay (1624 + 400) 2 29 = add (toAbsoluteDay 1624 2 29) (Int 146097).
Proof. apply (toAbsoluteDay_400_years 1624 2 29). lia. Defined.

(** ** Custom calendars *)

Lemma positive_nonneg (months : list Z) :
  Forall (λ x, 0 < x) months → Forall (λ x, 0 ≤ x) months.
Proof. intros H. eapply Forall_impl; [exact H|]. simpl. lia. Qed.

Lemma positive_total (months : list Z) :
  months ≠ [] → Forall (λ x, 0 < x) months → 0 < total months.
Proof.
  intros Hne Hpos. destruct Hpos as [|x l Hx Hl]; [done|].
  pose proof (total_nonneg l (positive_nonneg l Hl)). simpl. lia.
Qed.

(** X7: under a custom calendar a day outside its month is clamped into
    the month.  For positive month lengths and a month of the calendar,
    the way there and back returns the year, the month and the day clamped
    to [1 .. length of the month]. *)
Theorem custom_roundtrip_clamped (months : list Z) (y m d len : Z) :
  Forall (λ x, 0 < x) months → read months (m - 1) = Some len →
  fromAbsoluteDayWithMonths (toAbsoluteDayWithMonths y m d months) months
  = Some (mkYMD y m (Z.max 1 (Z.min len d))).
Proof.
  intros Hpos Hlen.
  pose proof (positive_nonneg _ Hpos) as Hnn.
  pose proof Hlen as [Hm Hj]%read_Some.
  assert (0 < len) as Hlenpos.
  { rewrite Forall_forall in Hpos. apply Hpos. by eapply list_elem_of_lookup_2. }
  pose proof (lookup_lt_Some _ _ _ Hj) as Hlt.
  pose proof (total_take_read _ _ _ Hnn Hlen) as [Hlo Hhi].
  unfold toAbsoluteDayWithMonths, fromAbsoluteDayWithMonths.
  rewrite Hlen. simpl default.
  rewrite (for_up_months _ _ 0) by lia. rewrite drop_0.
  rewrite sumMonths_total.
  set (c := Z.max 1 (Z.min len d)).
  set (p := total (take (Z.to_nat (m - 1)) months)) in *.
  set (yd := total months) in *.
  destruct (Z.eqb_spec yd 0) as [Hz|_]; [lia|].
  assert ((y * yd + p + (c - 1)) / yd = y) as ->.
  { symmetry. apply (Z.div_unique_pos _ _ _ (p + (c - 1))); lia. }
  replace (y * yd + p + (c - 1) - y * yd) with (p + (c - 1)) by lia.
  unfold p. rewrite (monthLoop_at _ m c len) by (done || lia).
  rewrite Hlen. simpl default. do 2 f_equal. lia.
Qed.

Lemma custom_roundtrip_clamped_witness :
  fromAbsoluteDayWithMonths (toAbsoluteDayWithMonths 3 2 99 [30; 20; 10]) [30; 20; 10]
  = Some (mkYMD 3 2 (Z.max 1 (Z.min 20 99))).
Proof.
  apply (custom_roundtrip_clamped [30; 20; 10] 3 2 99 20);
    [repeat constructor|reflexivity].
Defined.

(** X8: under a custom calendar with positive month lengths,
    [fromAbsoluteDayWithMonths] returns, on every integer day, negative or
    not, a month of the calendar and a day of that month, and
    [toAbsoluteDayWithMonths] takes them back to that day. *)
Theorem custom_inverse (months : list Z) (n : Z) :
  months ≠ [] → Forall (λ x, 0 < x) months →
  ∃ y m d len,
    fromAbsoluteDayWithMonths n months = Some (mkYMD y m d)
    ∧ read months (m - 1) = Some len ∧ 1 ≤ d ≤ len
    ∧ toAbsoluteDayWithMonths y m d months = n.
Proof.
  intros Hne Hpos.
  pose proof (positive_nonneg _ Hpos) as Hnn.
  pose proof (positive_total _ Hne Hpos) as Htot.
  unfold fromAbsoluteDayWithMonths. rewrite sumMonths_total.
  destruct (Z.eqb_spec (total months) 0) as [Hz|_]; [lia|].
  set (yd := total months) in *. set (y := n / yd).
  assert (0 ≤ n - y * yd < yd) as Hr.
  { unfold y. pose proof (Z.mod_pos_bound n yd Htot) as Hb.
    rewrite Z.mod_eq in Hb by lia. lia. }
  destruct (monthLoop_inv months 0 (n - y * yd) 1 Hnn Hr)
    as (k & len & Hk & -> & Hin).
  replace (0 + Z.of_nat k + 1 - 1) with (Z.of_nat k) by lia.
  rewrite read_of_nat, Hk. simpl default.
  exists y, (0 + Z.of_nat k + 1), (n - y * yd - total (take k months) + 1), len.
  replace (Z.min len (n - y * yd - total (take k months) + 1))
    with (n - y * yd - total (take k months) + 1) by lia.
  split; [done|].
  replace (0 + Z.of_nat k + 1 - 1) with (Z.of_nat k) by lia.
  rewrite read_of_nat. split; [done|]. split; [lia|].
  unfold toAbsoluteDayWithMonths.
  replace (0 + Z.of_nat k + 1 - 1) with (Z.of_nat k) by lia.
  rewrite read_of_nat, Hk. simpl default.
  rewrite (for_up_months _ _ 0) by (apply lookup_lt_Some in Hk; lia).
  rewrite drop_0, sumMonths_total, Nat2Z.id. fold yd. lia.
Qed.

Lemma custom_inverse_witness :
  ∃ y m d len,
    fromAbsoluteDayWithMonths (-1) [30; 20; 10] = Some (mkYMD y m d)
    ∧ read [30; 20; 10] (m - 1) = Some len ∧ 1 ≤ d ≤ len
    ∧ toAbsoluteDayWithMonths y m d [30; 20; 10] = -1.
Proof.
  apply (custom_inverse [30; 20; 10] (-1)); [discriminate|repeat constructor].
Defined.

(** ** Date component parser *)

(** X9: a packed number [YYYYMMDD] with a year from 1 on and month and day
    fields from 1 to 99 is taken apart into exactly that year, month and
    day. *)
Theorem parseYearMonthDay_packed (y m d : Z) :
  1 ≤ y → 1 ≤ m ≤ 99 → 1 ≤ d ≤ 99 →
  parseYearMonthDay (Some (NumberValue (y * 10000 + m * 100 + d)))
  = Some (mkYMD y m d).
Proof.
  intros Hy Hm Hd. simpl.
  set (n := y * 10000 + m * 100 + d).
  assert (n / 10000 = y) as ->
    by (symmetry; apply (Z.div_unique_pos _ _ _ (m * 100 + d)); lia).
  assert (Z.rem n 10000 = m * 100 + d) as ->.
  { rewrite Z.rem_mod_nonneg by lia. symmetry.
    apply (Z.mod_unique_pos _ _ y); lia. }
  assert ((m * 100 + d) / 100 = m) as ->
    by (symmetry; apply (Z.div_unique_pos _ _ _ d); lia).
  assert (Z.rem n 100 = d) as ->.
  { rewrite Z.rem_mod_nonneg by lia. symmetry.
    apply (Z.mod_unique_pos _ _ (y * 100 + m)); lia. }
  destruct (Z.eqb_spec y 0), (Z.eqb_spec m 0), (Z.eqb_spec d 0); simpl; (lia || done).
Qed.

Lemma parseYearMonthDay_packed_witness :
  parseYearMonthDay (Some (NumberValue (2024 * 10000 + 2 * 100 + 29)))
  = Some (mkYMD 2024 2 29).
Proof. apply (parseYearMonthDay_packed 2024 2 29); lia. Defined.

(** X10: a negative packed number never parses to the date it spells:
    whenever it parses, the year, the month and the day are all
    negative. *)
Theorem parseYearMonthDay_negative_number (n : Z) (c : YMD) :
  n < 0 → parseYearMonthDay (Some (NumberValue n)) = Some c →
  ymd_y c < 0 ∧ ymd_m c < 0 ∧ ymd_d c < 0.
Proof.
  intros Hn. simpl.
  destruct (Z.eqb_spec (n / 10000) 0) as [|Hy]; [done|].
  destruct (Z.eqb_spec (Z.rem n 10000 / 100) 0) as [|Hm]; [done|].
  destruct (Z.eqb_spec (Z.rem n 100) 0) as [|Hd]; [done|].
  simpl. intros [= <-]. simpl.
  pose proof (Z.rem_bound_pos_neg n 10000 ltac:(lia) ltac:(lia)) as H1.
  pose proof (Z.rem_bound_pos_neg n 100 ltac:(lia) ltac:(lia)) as H2.
  assert (n / 10000 < 0) by (apply Z.div_lt_upper_bound; lia).
  assert (Z.rem n 10000 / 100 ≤ 0) by (apply Z.div_le_upper_bound; lia).
  lia.
Qed.

Lemma parseYearMonthDay_negative_number_witness :
  ymd_y (mkYMD (-2025) (-2) (-5)) < 0 ∧ ymd_m (mkYMD (-2025) (-2) (-5)) < 0
  ∧ ymd_d (mkYMD (-2025) (-2) (-5)) < 0.
Proof.
  apply (parseYearMonthDay_negative_number (-20240105) (mkYMD (-2025) (-2) (-5)));
    [lia|reflexivity].
Defined.

Lemma leadingDigits_nonneg s : ∀ acc n, 0 ≤ acc → 0 ≤ (leadingDigits s acc n).1.
Proof.
  induction s as [|c s IH]; intros acc n Hacc; simpl; [done|].
  destruct (isDigit c) eqn:Hc; [|done]. apply IH.
  unfold isDigit in Hc. apply andb_true_iff in Hc as [Hc%N.leb_le _].
  unfold digitValue. lia.
Qed.

(** A token without a dash yields no negative number. *)
Lemma parseInt_plain_nonneg t z :
  allChars plainChar t = true → parseInt t = Some z → 0 ≤ z.
Proof.
  intros Hp. unfold parseInt. rewrite (plain_trimStart _ Hp).
  destruct t as [|c t']; [done|]. simpl in Hp.
  apply andb_true_iff in Hp as [Hc _].
  destruct (N.eqb_spec (code c) 45) as [E|_].
  { exfalso. unfold plainChar, isSeparator in Hc. rewrite E in Hc.
    by rewrite !orb_true_r in Hc. }
  assert (∀ s, match leadingDigits s 0 0 with
               | (_, O) => None
               | (v, S _) => Some (1 * v)
               end = Some z → 0 ≤ z) as Hv.
  { intros s. pose proof (leadingDigits_nonneg s 0 0 ltac:(lia)).
    destruct (leadingDigits s 0 0) as [v [|k]]; [done|].
    intros [= <-]. simpl in *. lia. }
  destruct (code c =? 43)%N; apply Hv.
Qed.

(** X11: a string never parses to a negative component: the dash is a
    separator, so a minus sign cannot reach [parseInt]. *)
Theorem parseYearMonthDay_string_nonneg (s : string) (c : YMD) :
  parseYearMonthDay (Some (StringValue s)) = Some c →
  0 ≤ ymd_y c ∧ 0 ≤ ymd_m c ∧ 0 ≤ ymd_d c.
Proof.
  simpl. pose proof (stringParts_plain s) as Hplain.
  destruct (stringParts s) as [|t0 [|t1 [|t2 rest]]]; try discriminate.
  apply Forall_cons in Hplain as [[_ H0] Hplain].
  apply Forall_cons in Hplain as [[_ H1] Hplain].
  apply Forall_cons in Hplain as [[_ H2] _].
  destruct (parseInt t0) as [y|] eqn:E0; [|discriminate].
  destruct (parseInt t1) as [m|] eqn:E1; [|discriminate].
  destruct (parseInt t2) as [d|] eqn:E2; [|discriminate].
  intros [= <-]. simpl.
  split; [exact (parseInt_plain_nonneg _ _ H0 E0)|].
  split; [exact (parseInt_plain_nonneg _ _ H1 E1)|exact (parseInt_plain_nonneg _ _ H2 E2)].
Qed.

Lemma parseYearMonthDay_string_nonneg_witness :
  0 ≤ ymd_y (mkYMD 2024 1 5) ∧ 0 ≤ ymd_m (mkYMD 2024 1 5) ∧ 0 ≤ ymd_d (mkYMD 2024 1 5).
Proof.
  apply (parseYearMonthDay_string_nonneg "-2024--01-05" (mkYMD 2024 1 5)).
  reflexivity.
Defined.

Lemma fields_removeBrackets s : fields (removeBrackets s) = fields s.
Proof.
  induction s as [|c s IH]; simpl; [done|].
  destruct (isBracket c) eqn:E; [by destruct (fields s)|].
  simpl. by rewrite IH, E.
Qed.

(** X12: bracket characters count for nothing wherever they stand, even
    inside a number: a string and the same string without its brackets
    have the same tokens and parse alike. *)
Theorem parseYearMonthDay_ignores_brackets (s : string) :
  stringParts (removeBrackets s) = stringParts s
  ∧ parseYearMonthDay (Some (StringValue (removeBrackets s)))
    = parseYearMonthDay (Some (StringValue s)).
Proof.
  assert (stringParts (removeBrackets s) = stringParts s) as H.
  { rewrite !stringParts_fields, !fieldTokens_trim.
    unfold fieldTokens. by rewrite fields_removeBrackets. }
  split; [done|]. simpl. by rewrite H.
Qed.

(** ** Item builder *)

Lemma buildLoop_spec isT toN sp ep ip cp entries : ∀ acc,
  match buildLoop isT toN entries sp ep ip cp acc with
  | Returns items =>
      ∃ new, items = acc ++ new
        ∧ entry <$> new = filter (λ e, keepsEntry sp ep cp e) entries
        ∧ Forall (λ it,
            extractDateRange (entry it) sp ep (calendarOf (entry it) cp)
            = Returns (Some (range it))
            ∧ indexValue it = indexOf isT toN (entry it) ip) new
        ∧ Forall (λ e, extractDateRange e sp ep (calendarOf e cp) ≠ Throws) entries
  | Throws => Exists (λ e, extractDateRange e sp ep (calendarOf e cp) = Throws) entries
  end.
Proof.
  induction entries as [|e es IH]; intros acc; simpl.
  - exists []. by rewrite app_nil_r.
  - rewrite filter_cons.
    assert (keepsEntry sp ep cp e
            = match extractDateRange e sp ep (calendarOf e cp) with
              | Returns (Some _) => true
              | _ => false
              end) as Hk by done.
    revert Hk.
    destruct (extractDateRange e sp ep (calendarOf e cp)) as [[r|]|] eqn:E;
      intros Hk; simpl.
    + specialize (IH (acc ++ [mkItem e r (indexOf isT toN e ip)])).
      destruct (buildLoop _ _ es _ _ _ _ _) as [items|].
      * destruct IH as (new & -> & Hmap & Hall & Hok).
        exists (mkItem e r (indexOf isT toN e ip) :: new).
        rewrite <- app_assoc. split; [done|]. rewrite decide_True by (rewrite Hk; exact I).
        split; [by rewrite fmap_cons, Hmap|].
        split; [by constructor|]. constructor; [by rewrite E|done].
      * by apply Exists_cons_tl.
    + specialize (IH acc).
      destruct (buildLoop _ _ es _ _ _ _ _) as [items|].
      * destruct IH as (new & -> & Hmap & Hall & Hok).
        exists new. split; [done|]. rewrite decide_False by (rewrite Hk; exact id).
        split; [done|]. split; [done|]. constructor; [by rewrite E|done].
      * by apply Exists_cons_tl.
    + by apply Exists_cons_hd.
Qed.

(** X13: when the build returns, its items are the records whose date
    range comes out, one item each and in the order of the input; every
    item carries the range and the index computed from its own record. *)
Theorem buildTimelineItems_items isT toN entries sp ep ip cp items :
  buildTimelineItems isT toN entries sp ep ip cp = Returns items →
  entry <$> items = filter (λ e, keepsEntry sp ep cp e) entries
  ∧ Forall (λ it,
      extractDateRange (entry it) sp ep (calendarOf (entry it) cp)
      = Returns (Some (range it))
      ∧ indexValue it = indexOf isT toN (entry it) ip) items.
Proof.
  unfold buildTimelineItems. intros H.
  pose proof (buildLoop_spec isT toN sp ep ip cp entries []) as Hspec.
  rewrite H in Hspec. destruct Hspec as (new & -> & Hmap & Hall & _). done.
Qed.

Lemma buildTimelineItems_items_witness :
  let items := [mkItem customEntry (mkRange (Int 104) (Int 104)) None] in
  entry <$> items
  = filter (λ e, keepsEntry (Some "start"%string) (Some "end"%string) (Some "calendar"%string) e)
           [emptyEntry; customEntry]
  ∧ Forall (λ it,
      extractDateRange (entry it) (Some "start"%string) (Some "end"%string)
        (calendarOf (entry it) (Some "calendar"%string))
      = Returns (Some (range it))
      ∧ indexValue it = indexOf (λ _, true) (λ _, None) (entry it) (Some "index"%string))
      items.
Proof.
  apply (buildTimelineItems_items (λ _, true) (λ _, None) [emptyEntry; customEntry]
           (Some "start"%string) (Some "end"%string) (Some "index"%string)
           (Some "calendar"%string)).
  reflexivity.
Defined.

Lemma extractDateRange_throws e sp ep cal :
  extractDateRange e sp ep cal = Throws ↔ lookupThrows sp ep e.
Proof.
  unfold extractDateRange, lookupThrows.
  destruct (truthyProp sp) as [s|]; [|split; [done|by intros (? & ? & _)]].
  destruct (getValue e s) as [v|] eqn:Ev; simpl;
    [|split; [intros _; exists s; by split; [|left]|done]].
  destruct (parseYearMonthDay v) as [c|] eqn:Ec.
  - destruct (truthyProp ep) as [p|].
    + destruct (getValue e p) as [w|] eqn:Ew; simpl.
      * split; [by destruct (parseYearMonthDay w)|].
        intros (s' & [= <-] & [H|(v' & c' & p' & H1 & _ & [= <-] & H2)]);
          [by rewrite Ev in H|by rewrite Ew in H2].
      * split; [|done]. intros _. exists s. split; [done|].
        right. by exists v, c, p.
    + split; [done|].
      intros (s' & [= <-] & [H|(v' & c' & p' & _ & _ & ? & _)]); [by rewrite Ev in H|done].
  - split; [done|].
    intros (s' & [= <-] & [H|(v' & c' & p' & H1 & H2 & _)]); [by rewrite Ev in H|].
    rewrite Ev in H1. injection H1 as <-. by rewrite Ec in H2.
Qed.

(** X14: the build throws exactly when a start or end lookup of some
    record throws (the end lookup being made only once the start date has
    parsed): one such record loses the whole batch, and lookups of the
    calendar and index properties never make the build throw. *)
Theorem buildTimelineItems_throws isT toN entries sp ep ip cp :
  buildTimelineItems isT toN entries sp ep ip cp = Throws
  ↔ Exists (lookupThrows sp ep) entries.
Proof.
  unfold buildTimelineItems.
  pose proof (buildLoop_spec isT toN sp ep ip cp entries []) as Hspec.
  destruct (buildLoop _ _ entries _ _ _ _ _) as [items|].
  - destruct Hspec as (_ & _ & _ & _ & Hok). split; [done|]. intros Hex.
    apply Exists_exists in Hex as (e & He & Hthrow).
    rewrite Forall_forall in Hok.
    exfalso. by apply (Hok e He), (extractDateRange_throws e sp ep (calendarOf e cp)).
  - split; [|done]. intros _. eapply Exists_impl; [exact Hspec|].
    intros e. apply extractDateRange_throws.
Qed.

(** X15: with no start property configured (absent or the empty string)
    every batch builds to the empty list, whatever the records do when
    looked up. *)
Theorem buildTimelineItems_no_start isT toN entries sp ep ip cp :
  truthyProp sp = None →
  buildTimelineItems isT toN entries sp ep ip cp = Returns [].
Proof.
  intros Hsp. unfold buildTimelineItems. generalize (@nil TimelineItem).
  induction entries as [|e es IH]; intros acc; simpl; [done|].
  unfold extractDateRange. rewrite Hsp. simpl. apply IH.
Qed.

Lemma buildTimelineItems_no_start_witness :
  buildTimelineItems (λ _, true) (λ _, None) [brokenEntry; customEntry]
    (Some ""%string) (Some "end"%string) (Some "index"%string) (Some "calendar"%string)
  = Returns [].
Proof. apply buildTimelineItems_no_start. reflexivity. Defined.

Lemma calendarOf_positive e cp months :
  calendarOf e cp = Some months → months ≠ [] ∧ Forall (λ x, 0 < x) months.
Proof.
  unfold calendarOf. destruct (truthyProp cp) as [p|]; [|done].
  destruct (getValue e p) as [[[elems| | |]|]|]; simpl; try done.
  destruct (0 <? Z.of_nat (length elems)); [|done]. simpl.
  match goal with |- context [for_up ?n ?i ?b ?s] => set (arr := for_up n i b s) end.
  assert (Forall (λ x, 0 < x) arr) as Hpos.
  { apply (for_up_ind (λ _ arr, Forall (λ x, 0 < x) arr)); [constructor|].
    intros j t _ Ht. destruct (parseComponent _) as [n|]; [|done].
    destruct (Z.ltb_spec 0 n); [|done].
    apply Forall_app. split; [done|]. by constructor. }
  destruct (Z.ltb_spec 0 (Z.of_nat (length arr))) as [Hlen|]; [|done].
  intros [= <-]. split; [|done]. intros E. rewrite E in Hlen. simpl in Hlen. lia.
Qed.

(** X16: a month list that the builder takes from a record is never empty
    and holds positive lengths only, and [endDay >= startDay] holds of every
    item built under such a list, as it does of every built item whose two
    days are integers. *)
Theorem buildTimelineItems_ordered isT toN entries sp ep ip cp items it :
  buildTimelineItems isT toN entries sp ep ip cp = Returns items →
  it ∈ items →
  (∀ months, calendarOf (entry it) cp = Some months →
     months ≠ [] ∧ Forall (λ x, 0 < x) months)
  ∧ (integral it ∨ is_Some (calendarOf (entry it) cp) →
     geb (endDay (range it)) (startDay (range it)) = true).
Proof.
  intros Hbuild Hin. split; [intros months; apply calendarOf_positive|].
  unfold buildTimelineItems in Hbuild.
  pose proof (buildLoop_spec isT toN sp ep ip cp entries []) as Hspec.
  rewrite Hbuild in Hspec. destruct Hspec as (new & -> & _ & Hall & _).
  rewrite Forall_forall in Hall. destruct (Hall it Hin) as [Hr _].
  intros [[Hs He]|[months Hm]].
  - by eapply extractDateRange_ordered.
  - rewrite Hm in Hr. eapply extractDateRange_custom_ordered; [|exact Hr].
    by apply (calendarOf_positive _ _ _ Hm).
Qed.

Lemma buildTimelineItems_ordered_witness :
  let it := mkItem customEntry (mkRange (Int 104) (Int 104)) None in
  (∀ months, calendarOf (entry it) (Some "calendar"%string) = Some months →
     months ≠ [] ∧ Forall (λ x, 0 < x) months)
  ∧ (integral it ∨ is_Some (calendarOf (entry it) (Some "calendar"%string)) →
     geb (endDay (range it)) (startDay (range it)) = true).
Proof.
  apply (buildTimelineItems_ordered (λ _, true) (λ _, None) [emptyEntry; customEntry]
           (Some "start"%string) (Some "end"%string) (Some "index"%string)
           (Some "calendar"%string)
           [mkItem customEntry (mkRange (Int 104) (Int 104)) None]);
    [reflexivity|apply list_elem_of_here].
Defined.

(** ** Sorter *)

Lemma existsb_perm {A : Type} (f : A → bool) (l l' : list A) :
  l ≡ₚ l' → existsb f l = existsb f l'.
Proof.
  induction 1 as [|x l l' _ IH|x y l|l l' l'' _ IH1 _ IH2]; simpl.
  - done.
  - by rewrite IH.
  - by destruct (f x), (f y).
  - by rewrite IH1.
Qed.

Lemma notAfterIndex_total a b : notAfterIndex a b = false → notAfterIndex b a = true.
Proof.
  intros Hab. apply notAfterIndex_le. unfold indexLe.
  assert (¬ indexLe a b) as Hn by (rewrite <- notAfterIndex_le; congruence).
  unfold indexLe in Hn. lra.
Qed.

(** X17: sorting a sorted batch changes nothing: in index mode (some item
    has an index), and in date mode when all days are integers,
    [sortByIndexOrDate] gives the same array when applied to its own
    result.  These are the batches on which the comparator is consistent
    and the sort therefore determined. *)
Theorem sortByIndexOrDate_idempotent (items : list TimelineItem) :
  Exists (λ item, is_Some (indexValue item)) items ∨ Forall integral items →
  sortByIndexOrDate (sortByIndexOrDate items) = sortByIndexOrDate items.
Proof.
  intros Hmode. unfold sortByIndexOrDate at 1.
  rewrite (existsb_perm _ _ _ (sortByIndexOrDate_perm items)).
  unfold sortByIndexOrDate.
  destruct (existsb _ items) eqn:Hwith.
  - apply arraySort_sorted_id.
    apply (arraySort_Sorted _ _ (λ _, True)); [auto| |by apply Forall_true].
    intros a b _ _. apply notAfterIndex_total.
  - destruct Hmode as [Hex|Hint].
    + exfalso. apply Exists_exists in Hex as (item & Hin & Hsome).
      assert (existsb (λ i, bool_decide (is_Some (indexValue i))) items = true)
        as E; [|congruence].
      apply existsb_exists. exists item. split; [by apply list_elem_of_In|].
      by apply bool_decide_eq_true.
    + apply arraySort_sorted_id.
      apply (arraySort_Sorted _ _ integral); [auto| |done].
      intros a b _ _. apply notAfterDate_total.
Qed.

Lemma sortByIndexOrDate_idempotent_witness :
  sortByIndexOrDate (sortByIndexOrDate scenarioB) = sortByIndexOrDate scenarioB
  ∧ sortByIndexOrDate (sortByIndexOrDate scenarioA) = sortByIndexOrDate scenarioA.
Proof.
  split.
  - apply (sortByIndexOrDate_idempotent scenarioB).
    left. apply Exists_cons_hd. simpl. eauto.
  - apply (sortByIndexOrDate_idempotent scenarioA).
    right. repeat constructor; simpl; unfold is_int; eauto.
Defined.

(** ** Conflict detector *)

Lemma lookup_pair_sublist {A : Type} (l : list A) (i j : nat) a b :
  (i < j)%nat → l !! i = Some a → l !! j = Some b → [a; b] `sublist_of` l.
Proof.
  intros Hij Hi Hj. rewrite <- (take_drop_middle l i a Hi).
  apply sublist_inserts_l, sublist_skip, singleton_sublist_l.
  apply (list_elem_of_lookup_2 _ (j - S i)).
  rewrite lookup_drop. by replace (S i + (j - S i))%nat with j by lia.
Qed.

Lemma sublist_pair_NoDup {A : Type} (l : list A) a b :
  NoDup l → [a; b] `sublist_of` l → [b; a] `sublist_of` l → False.
Proof.
  induction 1 as [|x l Hx Hnd IH]; intros Hab Hba.
  - by apply sublist_nil_r in Hab.
  - apply sublist_cons_r in Hab as [Hab|(k & [= <- <-] & Hb%singleton_sublist_l)];
      apply sublist_cons_r in Hba as [Hba|(k' & [= E <-] & Ha%singleton_sublist_l)].
    + by apply IH.
    + subst. apply Hx. eapply elem_of_sublist; [|exact Hab].
      apply list_elem_of_In. simpl. auto.
    + apply Hx. eapply elem_of_sublist; [|exact Hba].
      apply list_elem_of_In. simpl. auto.
    + by subst.
Qed.

Lemma StronglySorted_pair {A : Type} (R : A → A → Prop) (l : list A) a b :
  StronglySorted R l → [a; b] `sublist_of` l → R a b.
Proof.
  induction 1 as [|x l Hs IH Hall]; intros Hab.
  - by apply sublist_nil_r in Hab.
  - apply sublist_cons_r in Hab as [Hab|(k & [= <- <-] & Hb%singleton_sublist_l)];
      [by apply IH|].
    rewrite Forall_forall in Hall. by apply Hall.
Qed.

Lemma filter_sublist_mono {A : Type} (P : A → Prop) `{!∀ x, Decision (P x)} (l k : list A) :
  l `sublist_of` k → filter P l `sublist_of` filter P k.
Proof.
  induction 1 as [|x l k _ IH|x l k _ IH]; [done| |]; rewrite ?filter_cons.
  - destruct (decide (P x)); [by apply sublist_skip|done].
  - destruct (decide (P x)); [by apply sublist_cons|done].
Qed.

(** What the comparison loop has flagged after [n] passes from index
    [i]. *)
Lemma conflictLoop_mem items (positionByPath : gmap string Z) n :
  ∀ i (conflicts : gset string) p,
    p ∈ for_up n i (conflictStep items positionByPath) conflicts
    ↔ p ∈ conflicts
      ∨ ∃ j prev curr,
          i ≤ j < i + Z.of_nat n
          ∧ read items (j - 1) = Some prev ∧ read items j = Some curr
          ∧ default 0 (positionByPath !! path curr) < default 0 (positionByPath !! path prev)
          ∧ (p = path prev ∨ p = path curr).
Proof.
  induction n as [|n IH]; intros i c p.
  - simpl. split; [auto|]. intros [H|(j & ? & ? & Hj & _)]; [done|lia].
  - change (for_up (S n) i (conflictStep items positionByPath) c)
      with (for_up n (i + 1) (conflictStep items positionByPath)
              (conflictStep items positionByPath i c)).
    rewrite IH. split.
    + intros [Hc|(j & prev & curr & Hj & H)].
      * destruct (conflictStep_cases items positionByPath i c)
          as [E|(prev & curr & Hp & Hc' & Hlt & E)]; rewrite E in Hc; [by left|].
        apply elem_of_union in Hc as [Hc%elem_of_singleton|Hc].
        { right. exists i, prev, curr. repeat split; try done; try lia. by right. }
        apply elem_of_union in Hc as [Hc%elem_of_singleton|Hc]; [|by left].
        right. exists i, prev, curr. repeat split; try done; try lia. by left.
      * right. exists j, prev, curr. split; [lia|done].
    + intros [Hc|(j & prev & curr & Hj & Hp & Hc' & Hlt & Hor)].
      * left. destruct (conflictStep_cases items positionByPath i c)
          as [E|(prev & curr & _ & _ & _ & E)]; rewrite E; [done|].
        apply elem_of_union. right. apply elem_of_union. by right.
      * destruct (decide (j = i)) as [->|Hne].
        -- left. unfold conflictStep. rewrite Hp, Hc'.
           destruct (Z.ltb_spec (default 0 (positionByPath !! path curr))
                                (default 0 (positionByPath !! path prev))); [|lia].
           destruct Hor as [->| ->].
           ++ apply elem_of_union. right. apply elem_of_union. left.
              by apply elem_of_singleton.
           ++ apply elem_of_union. left. by apply elem_of_singleton.
        -- right. exists j, prev, curr. split; [lia|done].
Qed.

Lemma dateLt_not_le a b : dateLt a b → dateLe b a → False.
Proof.
  unfold dateLt, dateLe.
  destruct (startDay (range a)), (startDay (range b)),
    (endDay (range a)), (endDay (range b)); try done. lia.
Qed.

Lemma dateLe_cases a b : dateLe a b → dateLt a b ∨ sameDays b a = true.
Proof.
  unfold dateLt, dateLe, sameDays.
  destruct (startDay (range a)) as [sa|], (startDay (range b)) as [sb|],
    (endDay (range a)) as [ea|], (endDay (range b)) as [eb|]; try done.
  intros H. destruct (decide (sa = sb ∧ ea = eb)) as [[-> ->]|Hne].
  - right. by apply bool_decide_eq_true.
  - left. lia.
Qed.

Lemma sameDays_notAfterDate c a z :
  sameDays c a = true → sameDays c z = true → notAfterDate a z = true.
Proof.
  unfold sameDays, notAfterDate, compareDate.
  intros [-> ->]%bool_decide_eq_true [-> ->]%bool_decide_eq_true.
  destruct (startDay (range c)) as [s|], (endDay (range c)) as [e|]; simpl;
    rewrite ?Z.sub_diag; simpl; rewrite ?Z.sub_diag; done.
Qed.

(** With distinct identities and integer days, the date rank of the
    second of two display neighbours is below that of the first exactly
    when the second is strictly earlier in the date order. *)
Lemma rank_lt_dateLt items (i : nat) prev curr :
  Forall integral items → NoDup (path <$> items) →
  items !! i = Some prev → items !! S i = Some curr →
  let positionByPath := positionLoop (arraySort notAfterDate items) 0 ∅ in
  default 0 (positionByPath !! path curr) < default 0 (positionByPath !! path prev)
  ↔ dateLt curr prev.
Proof.
  intros Hint Hnd Hprev Hcurr. simpl.
  set (sorted := arraySort notAfterDate items).
  assert (sorted ≡ₚ items) as Hperm by apply arraySort_perm.
  assert (NoDup (path <$> sorted)) as Hnd' by (by rewrite Hperm).
  assert (NoDup sorted) as HndS by (by apply NoDup_fmap_1 in Hnd').
  assert (StronglySorted dateLe sorted) as Hss.
  { apply Sorted_StronglySorted; [apply _|].
    apply (arraySort_Sorted _ _ integral); [apply notAfterDate_le|apply notAfterDate_gt|done]. }
  destruct (list_elem_of_lookup_1 sorted prev) as [pp Hpp];
    [rewrite Hperm; by eapply list_elem_of_lookup_2|].
  destruct (list_elem_of_lookup_1 sorted curr) as [pc Hpc];
    [rewrite Hperm; by eapply list_elem_of_lookup_2|].
  rewrite (positionLoop_lookup _ _ _ _ prev Hnd' Hpp).
  rewrite (positionLoop_lookup _ _ _ _ curr Hnd' Hpc). simpl. split.
  - intros Hlt.
    assert ([curr; prev] `sublist_of` sorted) as Hcp
      by (apply (lookup_pair_sublist _ pc pp); [lia|done|done]).
    destruct (dateLe_cases curr prev (StronglySorted_pair _ _ _ _ Hss Hcp))
      as [Hdone|Hsame]; [done|exfalso].
    apply (sublist_pair_NoDup sorted prev curr HndS); [|done].
    assert (sameDays prev prev = true) as Hpp' by (by apply bool_decide_eq_true).
    transitivity (filter (λ x, sameDays prev x) sorted); [|apply sublist_filter].
    unfold sorted.
    rewrite (arraySort_stable notAfterDate (sameDays prev) items)
      by apply sameDays_notAfterDate.
    replace [prev; curr] with (filter (λ x, sameDays prev x) [prev; curr]).
    + apply filter_sublist_mono, (lookup_pair_sublist _ i (S i)); [lia|done|done].
    + rewrite filter_cons, decide_True by (by rewrite Hpp').
      rewrite filter_cons, decide_True by (by rewrite Hsame). done.
  - intros Hlt. destruct (Nat.lt_trichotomy pc pp) as [?|[->|Hgt]]; [lia| |]; exfalso.
    + rewrite Hpp in Hpc. injection Hpc as ->.
      unfold dateLt in Hlt.
      destruct (startDay (range curr)), (endDay (range curr)); try done. lia.
    + apply (dateLt_not_le curr prev Hlt).
      apply (StronglySorted_pair _ sorted); [done|].
      by apply (lookup_pair_sublist _ pp pc).
Qed.

(** X18: for a display order with distinct identities and integer days,
    the flagged identities are exactly those of the neighbours whose
    second item is strictly earlier in the date order (start day, then end
    day) than the first: nothing else is flagged, and every such pair is. *)
Theorem detectIndexConflicts_exact (items : list TimelineItem) :
  Forall integral items → NoDup (path <$> items) →
  ∀ p, p ∈ detectIndexConflicts items
       ↔ ∃ (i : nat) prev curr,
           items !! i = Some prev ∧ items !! S i = Some curr
           ∧ (p = path prev ∨ p = path curr) ∧ dateLt curr prev.
Proof.
  intros Hint Hnd p. unfold detectIndexConflicts.
  destruct (Z.leb_spec (Z.of_nat (length items)) 1) as [Hlen|Hlen].
  - split; [by intros ?%not_elem_of_empty|].
    intros (i & prev & curr & _ & Hc%lookup_lt_Some & _). lia.
  - rewrite conflictLoop_mem. split.
    + intros [H|(j & prev & curr & Hj & Hp & Hc & Hlt & Hor)];
        [by apply not_elem_of_empty in H|].
      apply read_Some in Hp as [Hj1 Hp]. apply read_Some in Hc as [_ Hc].
      replace (Z.to_nat j) with (S (Z.to_nat (j - 1))) in Hc by lia.
      exists (Z.to_nat (j - 1)), prev, curr. repeat split; try done.
      by apply (rank_lt_dateLt items (Z.to_nat (j - 1)) prev curr Hint Hnd Hp Hc).
    + intros (i & prev & curr & Hp & Hc & Hor & Hlt). right.
      exists (Z.of_nat (S i)), prev, curr.
      split; [apply lookup_lt_Some in Hc; lia|].
      replace (Z.of_nat (S i) - 1) with (Z.of_nat i) by lia.
      rewrite !read_of_nat. repeat split; try done.
      by apply (rank_lt_dateLt items i prev curr Hint Hnd Hp Hc).
Qed.

Lemma detectIndexConflicts_exact_witness :
  let items := [sampleItem "b" 10 12 None; sampleItem "a" 3 4 None;
                sampleItem "c" 20 21 None] in
  "a"%string ∈ detectIndexConflicts items
  ↔ ∃ (i : nat) prev curr,
      items !! i = Some prev ∧ items !! S i = Some curr
      ∧ ("a"%string = path prev ∨ "a"%string = path curr) ∧ dateLt curr prev.
Proof.
  apply (detectIndexConflicts_exact
           [sampleItem "b" 10 12 None; sampleItem "a" 3 4 None; sampleItem "c" 20 21 None]).
  - repeat constructor; by eexists.
  - apply (bool_decide_unpack _). by vm_compute.
Defined.

(** ** Track assigner *)

(** The inner loop is a first fit: it appends to the first track from
    [t] on whose last end the item starts after, and reports failure when
    there is none. *)
Lemma placeLoop_cases n : ∀ t item tracks lastEnd,
  match placeLoop n t item tracks lastEnd with
  | Some placed =>
      ∃ t', (t ≤ t' < t + n)%nat
        ∧ gtb (startDay (range item)) (default NaN (lastEnd !! t')) = true
        ∧ placed = (alter (λ track, track ++ [item]) t' tracks,
                    <[t' := endDay (range item)]> lastEnd)
  | None =>
      ∀ t', (t ≤ t' < t + n)%nat →
        gtb (startDay (range item)) (default NaN (lastEnd !! t')) = false
  end.
Proof.
  induction n as [|n IH]; intros t item tracks lastEnd; simpl; [intros; lia|].
  destruct (gtb _ _) eqn:Hgt.
  - exists t. split; [lia|done].
  - specialize (IH (S t) item tracks lastEnd).
    destruct (placeLoop n (S t) item tracks lastEnd) as [placed|].
    + destruct IH as (t' & Ht' & H). exists t'. split; [lia|done].
    + intros t' Ht'. destruct (decide (t' = t)) as [->|]; [done|]. apply IH. lia.
Qed.

Lemma placeItem_cases tracks lastEnd item :
  (∃ t track, tracks !! t = Some track
     ∧ gtb (startDay (range item)) (default NaN (lastEnd !! t)) = true
     ∧ placeItem (tracks, lastEnd) item
       = (alter (λ track, track ++ [item]) t tracks, <[t := endDay (range item)]> lastEnd))
  ∨ ((∀ t, (t < length tracks)%nat →
        gtb (startDay (range item)) (default NaN (lastEnd !! t)) = false)
     ∧ placeItem (tracks, lastEnd) item
       = (tracks ++ [[item]], lastEnd ++ [endDay (range item)])).
Proof.
  unfold placeItem.
  pose proof (placeLoop_cases (length tracks) 0 item tracks lastEnd) as H.
  destruct (placeLoop _ _ _ _ _) as [placed|].
  - destruct H as (t & Ht & Hgt & ->). left.
    destruct (lookup_lt_is_Some_2 tracks t) as [track Htrack]; [lia|].
    by exists t, track.
  - right. split; [|done]. intros t Ht. apply H. lia.
Qed.

Lemma concat_alter_snoc {A : Type} (tracks : list (list A)) (t : nat) track x :
  tracks !! t = Some track →
  concat (alter (λ track, track ++ [x]) t tracks) ≡ₚ x :: concat tracks.
Proof.
  revert t. induction tracks as [|y tracks IH]; intros [|t] Ht; simpl in *; try done.
  - injection Ht as ->. rewrite <- app_assoc. simpl. by rewrite <- Permutation_middle.
  - change (y ++ concat (alter (λ track, track ++ [x]) t tracks) ≡ₚ x :: y ++ concat tracks).
    rewrite (IH t Ht). by rewrite <- Permutation_middle.
Qed.

Lemma placeItem_partition tracks lastEnd item placed :
  partitionOf placed tracks →
  partitionOf (placed ++ [item]) (placeItem (tracks, lastEnd) item).1.
Proof.
  intros [Hperm Hall].
  destruct (placeItem_cases tracks lastEnd item)
    as [(t & track & Ht & _ & ->)|[_ ->]]; simpl; split.
  - rewrite (concat_alter_snoc _ _ _ _ Ht), Hperm. apply Permutation_cons_append.
  - rewrite Forall_lookup in Hall. apply Forall_lookup. intros u tr Hu.
    destruct (decide (u = t)) as [->|Hne].
    + rewrite list_lookup_alter_eq, Ht in Hu. simpl in Hu. injection Hu as <-.
      destruct (Hall t track Ht) as [_ Hsub].
      split; [by destruct track|]. by apply sublist_app.
    + rewrite list_lookup_alter_ne in Hu by done.
      destruct (Hall u tr Hu) as [Hne' Hsub].
      split; [done|]. by apply sublist_inserts_r.
  - rewrite concat_app. simpl. by rewrite Hperm.
  - apply Forall_app. split.
    + eapply Forall_impl; [exact Hall|]. intros tr [Hne Hsub].
      split; [done|]. by apply sublist_inserts_r.
    + constructor; [|constructor]. split; [done|].
      by apply sublist_inserts_l.
Qed.

Lemma fold_placeItem_partition items : ∀ state placed,
  partitionOf placed state.1 →
  partitionOf (placed ++ items) (fold_left placeItem items state).1.
Proof.
  induction items as [|item items IH]; intros [tracks lastEnd] placed Hinv; simpl.
  - by rewrite app_nil_r.
  - replace (placed ++ item :: items) with ((placed ++ [item]) ++ items)
      by (by rewrite <- app_assoc).
    apply IH. by apply placeItem_partition.
Qed.

(** X19: the tracks partition the input: taken together they hold exactly
    the items of the input, each as often as it occurs there; no track is
    empty; and within a track the items stand in the order of the
    input. *)
Theorem assignTracks_partition (items : list TimelineItem) :
  concat (assignTracks items) ≡ₚ items
  ∧ Forall (λ track, track ≠ [] ∧ track `sublist_of` items) (assignTracks items).
Proof.
  apply (fold_placeItem_partition items ([], []) []).
  split; [done|constructor].
Qed.

Lemma covers_pick (day : Z) (tracks : list (list TimelineItem)) :
  Forall (Exists (covers day)) tracks →
  ∃ ws, ws ⊆+ concat tracks ∧ length ws = length tracks ∧ Forall (covers day) ws.
Proof.
  induction 1 as [|track tracks Hex _ (ws & Hsub & Hlen & Hall)].
  - by exists [].
  - apply Exists_exists in Hex as (w & Hw & Hcov).
    exists (w :: ws). simpl. split; [|split; [by rewrite Hlen|by constructor]].
    change (w :: ws) with ([w] ++ ws).
    apply submseteq_app; [|done]. by apply singleton_submseteq_l.
Qed.

(** A new track is opened only on a day that every track covers. *)
Lemma placeItem_common_day tracks lastEnd item placed :
  tracksInv tracks lastEnd → partitionOf placed tracks →
  Forall ordered placed → ordered item → Forall (λ a, startLe a item) placed →
  (∃ day, Forall (Exists (covers day)) tracks) →
  ∃ day, Forall (Exists (covers day)) (placeItem (tracks, lastEnd) item).1.
Proof.
  intros [_ Hinv] [_ Hpart] Hord Hitem Hle [day Hday].
  destruct (placeItem_cases tracks lastEnd item)
    as [(t & track & Ht & _ & ->)|[Hfull ->]]; simpl.
  - exists day. apply Forall_alter; [done|].
    intros tr _ Hex. apply Exists_app. by left.
  - unfold ordered in Hitem.
    destruct (startDay (range item)) as [s|] eqn:Es; [|done].
    destruct (endDay (range item)) as [e|] eqn:Ee; [|done].
    exists s. apply Forall_app. split.
    + apply Forall_lookup. intros u track Hu.
      destruct (Hinv u track Hu) as (_ & prev & Hlast & Hend).
      specialize (Hfull u (lookup_lt_Some _ _ _ Hu)). rewrite Hend in Hfull.
      assert (prev ∈ track) as Hprev.
      { apply last_Some in Hlast as [l' ->]. apply elem_of_app. right.
        apply list_elem_of_here. }
      assert (prev ∈ placed) as Hplaced.
      { rewrite Forall_lookup in Hpart. destruct (Hpart u track Hu) as [_ Hsub].
        by eapply elem_of_sublist. }
      apply Exists_exists. exists prev. split; [done|].
      rewrite Forall_forall in Hord, Hle.
      specialize (Hord prev Hplaced). specialize (Hle prev Hplaced).
      unfold ordered in Hord. unfold startLe in Hle. unfold covers.
      rewrite Es in Hle.
      destruct (startDay (range prev)) as [sp|]; [|done].
      destruct (endDay (range prev)) as [ep|]; [|done].
      simpl in Hfull. lia.
    + constructor; [|constructor]. apply Exists_cons_hd.
      unfold covers. rewrite Es, Ee. lia.
Qed.

Lemma fold_placeItem_common_day items : ∀ state placed,
  tracksInv state.1 state.2 → partitionOf placed state.1 →
  Forall ordered (placed ++ items) → StronglySorted startLe (placed ++ items) →
  (∃ day, Forall (Exists (covers day)) state.1) →
  ∃ day, Forall (Exists (covers day)) (fold_left placeItem items state).1.
Proof.
  induction items as [|item items IH]; intros [tracks lastEnd] placed Hinv Hpart Hord Hss Hday;
    simpl in *; [done|].
  assert (placed ++ item :: items = (placed ++ [item]) ++ items) as E
    by (by rewrite <- app_assoc).
  rewrite E in Hord, Hss.
  apply (IH _ (placed ++ [item])); try done.
  - by apply placeItem_inv.
  - by apply placeItem_partition.
  - apply Forall_app in Hord as [Hord _]. apply Forall_app in Hord as [Hord Hitem].
    apply Forall_cons in Hitem as [Hitem _].
    apply placeItem_common_day with placed; try done.
    apply StronglySorted_app_1_l in Hss.
    apply Forall_forall. intros a Ha.
    apply (StronglySorted_app_1_elem_of _ _ _ a item Hss Ha), list_elem_of_here.
Qed.

Lemma filter_all {A : Type} (P : A → Prop) `{!∀ x, Decision (P x)} (l : list A) :
  Forall P l → filter P l = l.
Proof.
  induction 1 as [|x l Hx _ IH]; [done|]. by rewrite filter_cons, decide_True, IH.
Qed.

Lemma filter_none {A : Type} (P : A → Prop) `{!∀ x, Decision (P x)} (l : list A) :
  Forall (λ x, ¬ P x) l → filter P l = [].
Proof.
  induction 1 as [|x l Hx _ IH]; [done|]. by rewrite filter_cons, decide_False, IH.
Qed.

(** In a track without overlap whose items have [startDay <= endDay],
    everything after the head starts after the head has ended. *)
Lemma nonOverlapping_after_head x rest :
  nonOverlapping (x :: rest) → Forall ordered (x :: rest) →
  nonOverlapping rest
  ∧ Forall (λ z, gtb (startDay (range z)) (endDay (range x)) = true) rest.
Proof.
  revert x. induction rest as [|y rest IH]; intros x Hno Hord.
  - split; [|constructor]. intros i a b Ha. done.
  - assert (nonOverlapping (y :: rest)) as Hno'
      by (intros i a b Ha Hb; apply (Hno (S i) a b Ha Hb)).
    split; [done|].
    apply Forall_cons in Hord as [_ Hord].
    destruct (IH y Hno' Hord) as [_ Hall].
    pose proof (Hno 0%nat x y eq_refl eq_refl) as Hxy.
    constructor; [done|].
    apply Forall_cons in Hord as [Hy _].
    eapply Forall_impl; [exact Hall|]. intros z Hz.
    unfold ordered in Hy. unfold gtb, ltb in *.
    destruct (startDay (range y)) as [sy|]; [|done].
    destruct (endDay (range y)) as [ey|]; [|done].
    destruct (startDay (range z)) as [sz|]; [|done].
    destruct (endDay (range x)) as [ex|]; [|done]. lia.
Qed.

(** Such a track has at most one item on any one day. *)
Lemma nonOverlapping_one_a_day (day : Z) track :
  nonOverlapping track → Forall ordered track →
  (length (filter (covers day) track) ≤ 1)%nat.
Proof.
  induction track as [|x rest IH]; intros Hno Hord; [simpl; lia|].
  destruct (nonOverlapping_after_head x rest Hno Hord) as [Hno' Hafter].
  rewrite filter_cons. destruct (decide (covers day x)) as [Hx|Hx].
  - rewrite filter_none; [simpl; lia|].
    eapply Forall_impl; [exact Hafter|]. intros z Hz Hcov.
    unfold covers in Hx, Hcov. unfold gtb, ltb in Hz.
    destruct (startDay (range x)), (endDay (range x)); try done.
    destruct (startDay (range z)), (endDay (range z)); try done. lia.
  - apply IH; [done|]. by apply Forall_cons in Hord as [_ Hord].
Qed.

(** As many tracks are needed as items are drawn on one day. *)
Lemma crowded_day_lower_bound (day : Z) ws items (tracks : list (list TimelineItem)) :
  ws ⊆+ items → Forall (covers day) ws → Forall ordered items →
  concat tracks ≡ₚ items → Forall nonOverlapping tracks →
  (length ws ≤ length tracks)%nat.
Proof.
  intros Hsub Hcov Hord Hperm Hno.
  assert (length (filter (covers day) (concat tracks)) ≤ length tracks)%nat as Hle.
  { rewrite <- Hperm in Hord. apply Forall_concat in Hord. clear Hperm.
    induction Hno as [|track tracks Htrack _ IH]; [done|].
    apply Forall_cons in Hord as [Hord1 Hord2].
    simpl. rewrite filter_app, length_app.
    pose proof (nonOverlapping_one_a_day day track Htrack Hord1).
    specialize (IH Hord2). lia. }
  destruct (submseteq_Permutation _ _ Hsub) as [k Hk].
  rewrite Hperm, Hk, filter_app, length_app, (filter_all _ ws) in Hle by done. lia.
Qed.

(** X20: on items with integer days and [startDay <= endDay] that come in
    ascending order of [startDay], the first fit uses as few tracks as any
    arrangement can: there is a day on which every track draws an item, and
    no way of dealing the items into tracks without overlap has fewer
    tracks. *)
Theorem assignTracks_optimal (items : list TimelineItem) :
  Forall ordered items → StronglySorted startLe items →
  (∃ day, Forall (Exists (covers day)) (assignTracks items))
  ∧ ∀ tracks, concat tracks ≡ₚ items → Forall nonOverlapping tracks →
      (length (assignTracks items) ≤ length tracks)%nat.
Proof.
  intros Hord Hss.
  destruct (fold_placeItem_common_day items ([], []) []) as [day Hday]; try done.
  - exists 0. constructor.
  - change (fold_left placeItem items ([], [])).1 with (assignTracks items) in Hday.
    split; [by exists day|]. intros tracks Hperm Hno.
    destruct (covers_pick day _ Hday) as (ws & Hsub & <- & Hall).
    apply (crowded_day_lower_bound day ws items); try done.
    assert (concat (assignTracks items) ≡ₚ items) as <-; [|done].
    apply (fold_placeItem_partition items ([], []) []). split; [done|constructor].
Qed.

Lemma assignTracks_optimal_witness :
  (∃ day, Forall (Exists (covers day)) (assignTracks scenarioA))
  ∧ ∀ tracks, concat tracks ≡ₚ scenarioA → Forall nonOverlapping tracks →
      (length (assignTracks scenarioA) ≤ length tracks)%nat.
Proof.
  apply (assignTracks_optimal scenarioA).
  - repeat (apply List.Forall_cons; [unfold ordered; simpl; lia|]).
    apply List.Forall_nil.
  - repeat (apply SSorted_cons;
            [|repeat (apply List.Forall_cons; [unfold startLe; simpl; lia|]);
              apply List.Forall_nil]).
    apply SSorted_nil.
Defined.

Lemma StronglySorted_impl {A : Type} (R R' : A → A → Prop) (l : list A) :
  (∀ a b, R a b → R' a b) → StronglySorted R l → StronglySorted R' l.
Proof.
  intros HR. induction 1 as [|x l _ IH Hall]; constructor; [done|].
  eapply Forall_impl; [exact Hall|]. intros b. apply HR.
Qed.

Lemma dateLe_startLe a b : dateLe a b → startLe a b.
Proof.
  unfold dateLe, startLe.
  destruct (startDay (range a)), (startDay (range b)),
    (endDay (range a)), (endDay (range b)); try done. lia.
Qed.

Lemma ordered_integral item : ordered item → integral item.
Proof.
  unfold ordered, integral.
  destruct (startDay (range item)) as [s|], (endDay (range item)) as [e|]; try done.
  intros _. split; by eexists.
Qed.

(** X21: the two steps of the view in date mode fit together: for a
    batch without any index whose items have integer days with
    [startDay <= endDay], the tracks assigned to the sorted batch are as
    few as can be: no way of dealing the items of the batch into tracks
    without overlap has fewer tracks. *)
Theorem date_sorted_tracks_optimal (items : list TimelineItem) :
  Forall (λ item, indexValue item = None) items → Forall ordered items →
  ∀ tracks, concat tracks ≡ₚ items → Forall nonOverlapping tracks →
    (length (assignTracks (sortByIndexOrDate items)) ≤ length tracks)%nat.
Proof.
  intros Hnone Hord tracks Hparts Hno. rewrite withIndex_false by done.
  set (sorted := arraySort notAfterDate items).
  assert (sorted ≡ₚ items) as Hperm by apply arraySort_perm.
  assert (Forall ordered sorted) as Hord' by (by rewrite Hperm).
  assert (StronglySorted startLe sorted) as Hss.
  { apply (StronglySorted_impl dateLe); [apply dateLe_startLe|].
    apply Sorted_StronglySorted; [apply _|].
    apply (arraySort_Sorted _ _ integral); [apply notAfterDate_le|apply notAfterDate_gt|].
    eapply Forall_impl; [exact Hord|]. apply ordered_integral. }
  destruct (fold_placeItem_common_day sorted ([], []) []) as [day Hday]; try done.
  { exists 0. constructor. }
  change (fold_left placeItem sorted ([], [])).1 with (assignTracks sorted) in Hday.
  destruct (covers_pick day _ Hday) as (ws & Hsub & <- & Hall).
  apply (crowded_day_lower_bound day ws items); try done.
  rewrite <- Hperm.
  assert (concat (assignTracks sorted) ≡ₚ sorted) as <-; [|done].
  apply (fold_placeItem_partition sorted ([], []) []). split; [done|constructor].
Qed.

Lemma date_sorted_tracks_optimal_witness :
  (length (assignTracks (sortByIndexOrDate scenarioA))
   ≤ length [[sampleItem "item1" 739251 739255 None; sampleItem "item3" 739282 739286 None];
             [sampleItem "item2" 739253 739260 None]])%nat.
Proof.
  apply (date_sorted_tracks_optimal scenarioA).
  - repeat constructor.
  - repeat (apply List.Forall_cons; [unfold ordered; simpl; lia|]).
    apply List.Forall_nil.
  - apply perm_skip, perm_swap.
  - repeat (apply List.Forall_cons;
            [intros [|[|i]] a b Ha Hb; simplify_eq/=; reflexivity|]).
    apply List.Forall_nil.
Defined.

(** ** Months outside the table of a custom calendar *)

Lemma for_up_beyond (months : list Z) n : ∀ k a,
  Z.of_nat (length months) < k →
  for_up n k (λ j days, days + default 30 (read months (j - 1))) a
  = a + 30 * Z.of_nat n.
Proof.
  induction n as [|n IH]; intros k a Hk; simpl; [lia|].
  rewrite IH by lia.
  assert (read months (k - 1) = None) as ->; [|simpl; lia].
  unfold read. destruct (Z.ltb_spec (k - 1) 0); [done|].
  apply lookup_ge_None. lia.
Qed.

(** X22: a month beyond the table of a custom calendar counts as a month
    of 30 days, and so does every month between the table and it: the day
    number is that of the first day after the year, plus 30 for each
    month skipped, plus the day clamped into [1 .. 30]. *)
Theorem toAbsoluteDayWithMonths_beyond (months : list Z) (y m d : Z) :
  Z.of_nat (length months) < m →
  toAbsoluteDayWithMonths y m d months
  = (y + 1) * sumMonths months + 30 * (m - 1 - Z.of_nat (length months))
    + (Z.max 1 (Z.min 30 d) - 1).
Proof.
  intros Hm. unfold toAbsoluteDayWithMonths.
  replace (Z.to_nat (m - 1))
    with (length months + Z.to_nat (m - 1 - Z.of_nat (length months)))%nat by lia.
  rewrite for_up_split.
  rewrite (for_up_months months (length months) 0) by lia.
  rewrite for_up_beyond by lia.
  rewrite drop_0, firstn_all, <- sumMonths_total.
  assert (read months (m - 1) = None) as ->.
  { unfold read. destruct (Z.ltb_spec (m - 1) 0); [done|].
    apply lookup_ge_None. lia. }
  simpl. lia.
Qed.

Lemma toAbsoluteDayWithMonths_beyond_witness :
  toAbsoluteDayWithMonths 2 5 40 [10; 20]
  = (2 + 1) * sumMonths [10; 20] + 30 * (5 - 1 - Z.of_nat (length [10; 20]))
    + (Z.max 1 (Z.min 30 40) - 1).
Proof. apply (toAbsoluteDayWithMonths_beyond [10; 20] 2 5 40). simpl. lia. Defined.

(** ** Axis labels of the view *)

Lemma digitChar_digit (k : Z) :
  0 ≤ k ≤ 9 → isDigit (digitChar k) = true ∧ digitValue (digitChar k) = k.
Proof.
  intros Hk. unfold isDigit, digitValue, digitChar, code.
  rewrite Ascii.N_ascii_embedding by lia. split; [|lia].
  apply andb_true_iff. split; apply N.leb_le; lia.
Qed.

Lemma isDigit_plain c :
  isDigit c = true → isBracket c = false ∧ isSeparator c = false ∧ isSpace c = false.
Proof.
  unfold isDigit, isBracket, isSeparator, isSpace.
  intros [H1%N.leb_le H2%N.leb_le]%andb_true_iff.
  repeat match goal with
         | |- context [(?a =? ?b)%N] => destruct (N.eqb_spec a b); [lia|]
         | |- context [(?a <=? ?b)%N] => destruct (N.leb_spec a b)
         end; simpl; try done; lia.
Qed.

Lemma digitsOf_spec fuel : ∀ n acc,
  0 ≤ n < 2 ^ Z.of_nat (S fuel) →
  ∃ ds, digitsOf (S fuel) n acc = ds +:+ acc
    ∧ startsWithDigit ds = true ∧ allChars isDigit ds = true
    ∧ ∀ rest count, ∃ count',
        (count < count')%nat
        ∧ leadingDigits (ds +:+ rest) 0 count = leadingDigits rest n count'.
Proof.
  induction fuel as [|fuel IH]; intros n acc Hn;
    (destruct (digitChar_digit (n mod 10)) as [Hd Hv];
       [pose proof (Z.mod_pos_bound n 10); lia|]);
    change (digitsOf (S ?f) n acc)
      with (if n <? 10 then String (digitChar (n mod 10)) acc
            else digitsOf f (n / 10) (String (digitChar (n mod 10)) acc));
    destruct (Z.ltb_spec n 10) as [Hlt|Hge].
  - exists (String (digitChar (n mod 10)) EmptyString). simpl. rewrite Hd.
    repeat split; try done.
    intros rest count. exists (S count). split; [lia|].
    rewrite Hv. by rewrite Z.mod_small by lia.
  - change (2 ^ Z.of_nat 1) with 2 in Hn. lia.
  - exists (String (digitChar (n mod 10)) EmptyString). simpl. rewrite Hd.
    repeat split; try done.
    intros rest count. exists (S count). split; [lia|].
    rewrite Hv. by rewrite Z.mod_small by lia.
  - destruct (IH (n / 10) (String (digitChar (n mod 10)) acc))
      as (ds & -> & Hstart & Hall & Hread).
    { rewrite (Nat2Z.inj_succ (S fuel)), Z.pow_succ_r in Hn by lia.
      split; [apply Z.div_pos; lia|]. apply Z.div_lt_upper_bound; lia. }
    exists (ds +:+ String (digitChar (n mod 10)) EmptyString).
    rewrite append_assoc. split; [done|]. split; [|split].
    + by destruct ds.
    + clear -Hall Hd. induction ds as [|c ds IHds]; simpl in *; [by rewrite Hd|].
      apply andb_true_iff in Hall as [-> Hall]. by apply IHds.
    + intros rest count. rewrite append_assoc.
      change (String (digitChar (n mod 10)) EmptyString +:+ rest)
        with (String (digitChar (n mod 10)) rest).
      destruct (Hread (String (digitChar (n mod 10)) rest) count) as (c' & Hc' & ->).
      exists (S c'). split; [lia|]. simpl. rewrite Hd, Hv. f_equal.
      pose proof (Z.div_mod n 10). lia.
Qed.

Lemma numberToString_decimal (n : Z) : 0 ≤ n → decimalOf n (numberToString n).
Proof.
  intros Hn. unfold numberToString. destruct (Z.ltb_spec n 0); [lia|].
  unfold digitFuel.
  destruct (digitsOf_spec (Z.to_nat (Z.log2 n)) n EmptyString)
    as (ds & -> & Hstart & Hall & Hread).
  { split; [done|].
    destruct (decide (n = 0)) as [->|]; [done|].
    rewrite Nat2Z.inj_succ, Z2Nat.id by apply Z.log2_nonneg.
    apply Z.log2_spec. lia. }
  rewrite append_empty_r. repeat split; try done.
  intros count. destruct (Hread EmptyString count) as (c' & Hc' & E).
  rewrite append_empty_r in E. by exists c'.
Qed.

Lemma zeros_decimal (n : Z) (k : nat) (t : string) :
  decimalOf n t → decimalOf n (zeros k t).
Proof.
  intros Ht. induction k as [|k (Hstart & Hall & Hread)]; [done|].
  simpl. repeat split; try done.
  intros count. destruct (Hread (S count)) as (c' & Hc' & E).
  exists c'. split; [lia|]. exact E.
Qed.

Lemma decimal_parseInt (n : Z) (t : string) : decimalOf n t → parseInt t = Some n.
Proof.
  intros (Hstart & _ & Hread). unfold parseInt.
  destruct t as [|c t]; [done|]. simpl in Hstart.
  destruct (isDigit_plain c Hstart) as (_ & _ & Hspace).
  simpl trimStart. rewrite Hspace.
  assert ((code c =? 45)%N = false ∧ (code c =? 43)%N = false) as [-> ->].
  { unfold isDigit in Hstart. apply andb_true_iff in Hstart as [H1%N.leb_le _].
    split; apply N.eqb_neq; lia. }
  destruct (Hread 0%nat) as (c' & Hc' & ->).
  destruct c' as [|c']; [lia|]. f_equal. lia.
Qed.

Lemma fields_digits (t s : string) :
  allChars isDigit t = true → fields (t +:+ s) = (t +:+ (fields s).1, (fields s).2).
Proof.
  induction t as [|c t IH]; intros Hall.
  - change (fields s = ((fields s).1, (fields s).2)). by destruct (fields s).
  - simpl in Hall. apply andb_true_iff in Hall as [Hc Hall].
    change (String c t +:+ s) with (String c (t +:+ s)).
    change (String c t +:+ (fields s).1) with (String c (t +:+ (fields s).1)).
    simpl fields. rewrite (IH Hall).
    destruct (isDigit_plain c Hc) as (-> & -> & _). done.
Qed.

Lemma fields_dash (s : string) :
  fields (String "-" s)
  = (EmptyString, if isEmpty (fields s).1 then (fields s).2 else (fields s).1 :: (fields s).2).
Proof. simpl. by destruct (fields s). Qed.

Lemma decimal_nonempty n t s : decimalOf n t → isEmpty (t +:+ s) = false.
Proof. intros (Hstart & _). by destruct t. Qed.

(** The tokens of a label are its three numbers. *)
Lemma stringParts_label (y m d : string) ny nm nd :
  decimalOf ny y → decimalOf nm m → decimalOf nd d →
  stringParts (y +:+ "-" +:+ m +:+ "-" +:+ d) = [y; m; d].
Proof.
  intros Hy Hm Hd. rewrite stringParts_fields, fieldTokens_trim. unfold fieldTokens.
  rewrite (fields_digits y) by apply Hy.
  change ("-" +:+ m +:+ "-" +:+ d) with (String "-" (m +:+ String "-" d)).
  rewrite fields_dash, (fields_digits m) by apply Hm.
  rewrite fields_dash.
  rewrite <- (append_empty_r d), (fields_digits d) by apply Hd.
  simpl fields. simpl fst. simpl snd.
  rewrite (decimal_nonempty nd d _ Hd), (decimal_nonempty nm m _ Hm).
  rewrite !append_empty_r.
  by rewrite <- (append_empty_r y) at 1; rewrite (decimal_nonempty ny y _ Hy).
Qed.

(** A date without a negative component is written in a form that the
    date parser reads back as the same date. *)
Lemma axisLabel_parseYearMonthDay (c : YMD) :
  0 ≤ ymd_y c → 0 ≤ ymd_m c → 0 ≤ ymd_d c →
  parseYearMonthDay (Some (StringValue (axisLabel c))) = Some c.
Proof.
  intros Hy Hm Hd. destruct c as [y m d]. simpl in *. unfold axisLabel. simpl.
  pose proof (numberToString_decimal y Hy) as Dy.
  pose proof (zeros_decimal m (2 - String.length (numberToString m)) _
                (numberToString_decimal m Hm)) as Dm.
  pose proof (zeros_decimal d (2 - String.length (numberToString d)) _
                (numberToString_decimal d Hd)) as Dd.
  unfold padStart2.
  rewrite (stringParts_label _ _ _ y m d Dy Dm Dd).
  by rewrite (decimal_parseInt y _ Dy), (decimal_parseInt m _ Dm), (decimal_parseInt d _ Dd).
Qed.

Lemma fromAbsoluteDay_decode (n : Z) :
  0 ≤ n →
  ∃ c, fromAbsoluteDay (Int n) = Some c
       ∧ 0 ≤ ymd_y c ∧ 1 ≤ ymd_m c ∧ 1 ≤ ymd_d c ∧ dayOf c = Int n.
Proof.
  intros Hn. unfold fromAbsoluteDay, fromAbsoluteDay_fuel.
  destruct (yearFuel_enough n) as [H1 H2].
  destruct (yearLoop_terminates _ n 0 H1 H2) as [[r y] Hloop]. rewrite Hloop.
  destruct (yearLoop_inv _ _ _ _ _ Hloop) as (k & -> & Hz & Hr & Hpos).
  destruct (monthLoop_inv (monthTable (isLeap (0 + Z.of_nat k))) 0 r 1)
    as (j & len & Hj & -> & Hin).
  { apply monthTable_nonneg. }
  { rewrite monthTable_total. lia. }
  pose proof (lookup_lt_Some _ _ _ Hj) as Hlt. rewrite monthTable_length in Hlt.
  eexists. split; [done|]. unfold dayOf. simpl ymd_y. simpl ymd_m. simpl ymd_d.
  repeat split; [lia|lia|lia|].
  rewrite toAbsoluteDay_closed by lia. f_equal.
  replace (Z.to_nat (0 + Z.of_nat k)) with k by lia.
  replace (Z.to_nat (0 + Z.of_nat j + 1 - 1)) with j by lia. lia.
Qed.

(** X23: the label that the axis shows for a day from [-1] on reads back:
    the date parser takes the label to the date that [fromAbsoluteDay]
    returned, and [toAbsoluteDay] takes that date to the day. *)
Theorem axisLabel_roundtrip (n : Z) :
  -1 ≤ n →
  ∃ c, fromAbsoluteDay (Int n) = Some c
       ∧ parseYearMonthDay (Some (StringValue (axisLabel c))) = Some c
       ∧ dayOf c = Int n.
Proof.
  intros Hn. destruct (Z.le_gt_cases 0 n) as [Hpos|Hneg].
  - destruct (fromAbsoluteDay_decode n Hpos) as (c & Hc & Hy & Hm & Hd & Hday).
    exists c. split; [done|]. split; [|done].
    apply axisLabel_parseYearMonthDay; lia.
  - assert (n = -1) as -> by lia. exists (mkYMD 0 1 0). by vm_compute.
Qed.

Lemma axisLabel_roundtrip_witness :
  ∃ c, fromAbsoluteDay (Int 739310) = Some c
       ∧ parseYearMonthDay (Some (StringValue (axisLabel c))) = Some c
       ∧ dayOf c = Int 739310.
Proof. apply (axisLabel_roundtrip 739310). lia. Defined.
